(** * ros2_def: the callback orchestrator

    A shallow embedding of
    [orchestrator/orchestrator_lib/orchestrator.py]: the constraint graph,
    the insertion of actions with their edges, the scheduling loop, the
    admission of offers and the two completion callbacks.

    Python objects become records, the [networkx] graph becomes two
    insertion-ordered lists, exceptions become the [Err] branch of a result
    type, and the instance fields that the methods reassign are threaded as
    an explicit state. *)

From Stdlib Require Import String List ZArith Bool Arith Lia Relations.
Import ListNotations.

Local Open Scope string_scope.
Local Open Scope list_scope.

(** ** Names, times and payloads *)

Definition NodeName := string.
Definition TopicName := string.

(** [rclpy.time.Time], as its nanosecond count. *)
Definition Time := Z.

(** A message is opaque to the orchestrator. *)
Definition Msg := string.

(** ** Node models (node_model.py) *)

Inductive Cause : Type :=
| TopicInput (input_topic : TopicName)
| TimerInput (period : Z).

Inductive Effect : Type :=
| TopicPublish (output_topic : TopicName)
| StatusPublish
| ServiceCall (service : string).

Definition Cause_eqb (a b : Cause) : bool :=
  match a, b with
  | TopicInput x, TopicInput y => String.eqb x y
  | TimerInput p, TimerInput q => Z.eqb p q
  | _, _ => false
  end.

Definition Effect_eqb (a b : Effect) : bool :=
  match a, b with
  | TopicPublish x, TopicPublish y => String.eqb x y
  | StatusPublish, StatusPublish => true
  | ServiceCall x, ServiceCall y => String.eqb x y
  | _, _ => false
  end.

(** Modelled from the spec: the class [NodeModel] of node_model.py, which is
    not part of the sources at hand.  The spec gives its interface: a name,
    the set of possible inputs, and for each input the list of effects,
    which depends on nothing but the input. *)
Record NodeModel : Type := mkNodeModel {
  get_name : NodeName;
  get_possible_inputs : list Cause;
  effects_for_input : Cause -> list Effect
}.

(** ** Actions (action.py) *)

Inductive ActionState : Type := WAITING | READY | RUNNING.

Inductive EdgeType : Type := SAME_NODE | SAME_TOPIC | CAUSALITY.

Definition ActionState_eqb (a b : ActionState) : bool :=
  match a, b with
  | WAITING, WAITING | READY, READY | RUNNING, RUNNING => true
  | _, _ => false
  end.

Definition EdgeType_eqb (a b : EdgeType) : bool :=
  match a, b with
  | SAME_NODE, SAME_NODE | SAME_TOPIC, SAME_TOPIC | CAUSALITY, CAUSALITY => true
  | _, _ => false
  end.

(** The two dataclasses derived from [Action], with the fields in the order
    the constructor calls of orchestrator.py pass them; [data] is the
    buffered message of an [RxAction], [None] until it is received. *)
Inductive Action : Type :=
| RxAction (state : ActionState) (node : NodeName) (timestamp : Time)
           (cause : Cause) (topic : TopicName) (data : option Msg)
| TimerCallbackAction (state : ActionState) (node : NodeName) (timestamp : Time)
                      (cause : Cause) (period : Z).

Definition action_state (a : Action) : ActionState :=
  match a with
  | RxAction st _ _ _ _ _ => st
  | TimerCallbackAction st _ _ _ _ => st
  end.

Definition action_node (a : Action) : NodeName :=
  match a with
  | RxAction _ n _ _ _ _ => n
  | TimerCallbackAction _ n _ _ _ => n
  end.

Definition action_timestamp (a : Action) : Time :=
  match a with
  | RxAction _ _ t _ _ _ => t
  | TimerCallbackAction _ _ t _ _ => t
  end.

Definition action_cause (a : Action) : Cause :=
  match a with
  | RxAction _ _ _ c _ _ => c
  | TimerCallbackAction _ _ _ c _ => c
  end.

Definition set_state (st : ActionState) (a : Action) : Action :=
  match a with
  | RxAction _ n t c tp d => RxAction st n t c tp d
  | TimerCallbackAction _ n t c p => TimerCallbackAction st n t c p
  end.

(** ** Exceptions and results *)

Inductive Exn : Type :=
| RuntimeError (msg : string)
| KeyError (key : string)
| ActionNotFoundError
| NotImplementedError
| AssertionError
| RecursionError
| ZeroDivisionError
| TypeError
| LoopBound.

Inductive Res (A : Type) : Type :=
| Ok (a : A)
| Err (e : Exn).

Arguments Ok {A} a.
Arguments Err {A} e.

Definition bind {A B : Type} (m : Res A) (k : A -> Res B) : Res B :=
  match m with
  | Ok a => k a
  | Err e => Err e
  end.

Notation "x <- m ;; k" := (bind m (fun x => k))
  (at level 61, m at next level, right associativity).

(** A [for] loop whose body may raise. *)
Fixpoint foldM {A S : Type} (f : A -> S -> Res S) (l : list A) (s : S) : Res S :=
  match l with
  | [] => Ok s
  | x :: l' =>
      match f x s with
      | Ok s' => foldM f l' s'
      | Err e => Err e
      end
  end.

(** ** The constraint graph (networkx.DiGraph) *)

(** The attribute dictionary of a graph node.  [add_node(node_id,
    data=action)] stores the key ["data"] only; the key ["timestep"], which
    the interception callback reads, is kept as an optional field so that its
    absence is visible. *)
Record NodeData : Type := mkNodeData {
  nd_data : Action;
  nd_timestep : option Time
}.

(** Nodes and edges in insertion order, as [graph.nodes(data=True)] and
    [graph.edges(data=True)] enumerate them; an edge (u, v, ty) reads
    "u waits for v". *)
Record DiGraph : Type := mkDiGraph {
  nodes : list (nat * NodeData);
  edges : list (nat * nat * EdgeType)
}.

Definition empty_graph : DiGraph := mkDiGraph [] [].

(** [add_node] with a fresh id. *)
Definition add_node (id : nat) (nd : NodeData) (g : DiGraph) : DiGraph :=
  mkDiGraph (nodes g ++ [(id, nd)]) (edges g).

Definition is_edge (u v : nat) (e : nat * nat * EdgeType) : bool :=
  Nat.eqb (fst (fst e)) u && Nat.eqb (snd (fst e)) v.

(** [add_edge(u, v, edge_type=ty)]: a new edge, or a new attribute on the
    edge that is already there.  Both ends are nodes of the graph at every
    call in orchestrator.py. *)
Definition add_edge (u v : nat) (ty : EdgeType) (g : DiGraph) : DiGraph :=
  if existsb (is_edge u v) (edges g)
  then mkDiGraph (nodes g)
         (map (fun e => if is_edge u v e then (u, v, ty) else e) (edges g))
  else mkDiGraph (nodes g) (edges g ++ [(u, v, ty)]).

Definition out_degree (g : DiGraph) (u : nat) : nat :=
  length (filter (fun e => Nat.eqb (fst (fst e)) u) (edges g)).

Definition has_successor (g : DiGraph) (u v : nat) : bool :=
  existsb (is_edge u v) (edges g).

Definition edge_type (g : DiGraph) (u v : nat) : option EdgeType :=
  match find (is_edge u v) (edges g) with
  | Some e => Some (snd e)
  | None => None
  end.

(** [remove_node]: the node goes, and every edge at it. *)
Definition remove_node (n : nat) (g : DiGraph) : DiGraph :=
  mkDiGraph
    (filter (fun x => negb (Nat.eqb (fst x) n)) (nodes g))
    (filter (fun e => negb (Nat.eqb (fst (fst e)) n) && negb (Nat.eqb (snd (fst e)) n)) (edges g)).

(** ** The orchestrator state *)

(** The offer of the data source, [FutureInput] or [FutureTimestep]; a
    [rclpy.Future] is identified by a number. *)
Inductive NextInput : Type :=
| FutureInput (topic : TopicName) (future : nat)
| FutureTimestep (time : Time) (future : nat).

(** One call of [publish] on an interception publisher. *)
Definition Publication : Type := NodeName * TopicName * option Msg.

(** The fields of [Orchestrator] that its methods reassign, the global
    counter [_next_id.value], and what the methods do to the outside: the
    messages published and the futures completed. *)
Record Orchestrator : Type := mkOrchestrator {
  next_input : option NextInput;
  simulator_time : option Time;
  graph : DiGraph;
  next_id : nat;
  published : list Publication;
  next_future : nat;
  futures_done : list nat
}.

Definition set_graph (g : DiGraph) (s : Orchestrator) : Orchestrator :=
  mkOrchestrator (next_input s) (simulator_time s) g (next_id s)
    (published s) (next_future s) (futures_done s).

Definition set_next_id (n : nat) (s : Orchestrator) : Orchestrator :=
  mkOrchestrator (next_input s) (simulator_time s) (graph s) n
    (published s) (next_future s) (futures_done s).

Definition set_next_input (ni : option NextInput) (s : Orchestrator) : Orchestrator :=
  mkOrchestrator ni (simulator_time s) (graph s) (next_id s)
    (published s) (next_future s) (futures_done s).

Definition set_simulator_time (t : option Time) (s : Orchestrator) : Orchestrator :=
  mkOrchestrator (next_input s) t (graph s) (next_id s)
    (published s) (next_future s) (futures_done s).

(** [future.set_result(None)] *)
Definition set_result (f : nat) (s : Orchestrator) : Orchestrator :=
  mkOrchestrator (next_input s) (simulator_time s) (graph s) (next_id s)
    (published s) (next_future s) (futures_done s ++ [f]).

(** [Future()] *)
Definition new_future (s : Orchestrator) : nat * Orchestrator :=
  (next_future s,
   mkOrchestrator (next_input s) (simulator_time s) (graph s) (next_id s)
     (published s) (S (next_future s)) (futures_done s)).

(** [Orchestrator.__init__] *)
Definition init : Orchestrator :=
  mkOrchestrator None None empty_graph 0 [] 0 [].

(** The [Timer] dataclass local to [__add_pending_timers_until]. *)
Record Timer : Type := mkTimer {
  timer_node : NodeName;
  timer_cause : Cause
}.

Definition cause_period (c : Cause) : Z :=
  match c with
  | TimerInput p => p
  | TopicInput _ => 0%Z
  end.

(** What the orchestrator is built with and the methods below leave alone:
    the interpreter's recursion limit, counted in calls of
    [__add_action_and_effects]; the node models; the external input topics
    as (type, name) pairs; the (node, topic) pairs that have an interception
    publisher. *)
Class Config : Type := mkConfig {
  recursion_limit : nat;
  node_models : list NodeModel;
  external_input_topics_config : list (string * TopicName);
  interception_pubs : list (NodeName * TopicName)
}.

Section Orchestrator.

Context {config : Config}.

(** [__node_model_by_name] *)
Definition node_model_by_name (name : NodeName) : Res NodeModel :=
  match find (fun m => String.eqb (get_name m) name) node_models with
  | Some m => Ok m
  | None => Err (KeyError name)
  end.

(** The sibling loop of [__add_action_and_effects]: an edge from the new
    node to every other node whose action is at the same ROS node. *)
Definition same_node_edges (node_id : nat) (action : Action) (g : DiGraph) : DiGraph :=
  fold_left
    (fun g' x =>
       let '(node, node_data) := x in
       if String.eqb (action_node (nd_data node_data)) (action_node action)
          && negb (Nat.eqb node node_id)
       then add_edge node_id node SAME_NODE g'
       else g')
    (nodes g) g.

(** The inner loop of the first loop of [__add_all_effects_for_cause]: an
    edge to every [RxAction] of the topic.  The loop goes over all nodes,
    the node [cause_node_id] itself included. *)
Definition same_topic_edges_for (output_topic : TopicName) (cause_node_id : nat)
  (g : DiGraph) : DiGraph :=
  fold_left
    (fun g' x =>
       let '(node, node_data) := x in
       match nd_data node_data with
       | RxAction _ _ _ _ topic _ =>
           if String.eqb topic output_topic
           then add_edge cause_node_id node SAME_TOPIC g'
           else g'
       | TimerCallbackAction _ _ _ _ _ => g'
       end)
    (nodes g) g.

Definition same_topic_edges (effects : list Effect) (cause_node_id : nat)
  (g : DiGraph) : DiGraph :=
  fold_left
    (fun g' effect =>
       match effect with
       | TopicPublish output_topic => same_topic_edges_for output_topic cause_node_id g'
       | _ => g'
       end)
    effects g.

(** [__add_all_effects_for_cause]; the recursive call of
    [__add_action_and_effects] is the argument [rec]. *)
Definition add_all_effects_for_cause
  (rec : Action -> option nat -> Orchestrator -> Res Orchestrator)
  (node_name : NodeName) (cause : Cause) (cause_node_id : nat) (time : Time)
  (s : Orchestrator) : Res Orchestrator :=
  node_model <- node_model_by_name node_name ;;
  if negb (existsb (Cause_eqb cause) (get_possible_inputs node_model))
  then Err AssertionError
  else
    let effects := effects_for_input node_model cause in
    let s1 := set_graph (same_topic_edges effects cause_node_id (graph s)) s in
    foldM
      (fun effect s2 =>
         match effect with
         | TopicPublish output_topic =>
             let resulting_input := TopicInput output_topic in
             foldM
               (fun node s3 =>
                  if existsb (Cause_eqb resulting_input) (get_possible_inputs node)
                  then rec (RxAction WAITING (get_name node) time resulting_input
                              output_topic None)
                           (Some cause_node_id) s3
                  else Ok s3)
               node_models s2
         | _ => Ok s2
         end)
      effects s1.

(** [__add_action_and_effects]; [fuel] bounds the depth of the recursion and
    [RecursionError] is raised when it is used up. *)
Fixpoint add_action_and_effects (fuel : nat) (action : Action) (parent : option nat)
  (s : Orchestrator) : Res Orchestrator :=
  match fuel with
  | O => Err RecursionError
  | S fuel' =>
      let node_id := next_id s in
      let g0 := add_node node_id (mkNodeData action None) (graph s) in
      let g1 := same_node_edges node_id action g0 in
      let g2 := match parent with
                | Some p => add_edge node_id p CAUSALITY g1
                | None => g1
                end in
      let cause := match action with
                   | TimerCallbackAction _ _ _ _ period => TimerInput period
                   | RxAction _ _ _ _ topic _ => TopicInput topic
                   end in
      add_all_effects_for_cause (add_action_and_effects fuel')
        (action_node action) cause node_id (action_timestamp action)
        (set_graph g2 (set_next_id (S node_id) s))
  end.

(** The first loop of [__add_pending_timers_until].  It builds a [Timer] for
    every timer input and binds it to [timer]; nothing is appended to
    [timers]. *)
Definition collect_timers : list Timer :=
  fold_left
    (fun timers node_model =>
       fold_left
         (fun timers' input_cause =>
            match input_cause with
            | TimerInput _ =>
                let timer := mkTimer (get_name node_model) input_cause in
                timers'
            | TopicInput _ => timers'
            end)
         (get_possible_inputs node_model) timers)
    node_models [].

(** [t - last_time] in [__add_pending_timers_until]: [t] is an rclpy
    [Time] and [last_time] the [int] read from [simulator_time.nanoseconds].
    [Time.__sub__] takes a [Time] or a [Duration] and answers
    [NotImplemented] to anything else, and [int] has no reflected
    subtraction for a [Time]: the expression raises [TypeError]. *)
Definition time_minus_int (t : Time) (n : Z) : Res Z := Err TypeError.

(** [next_fire <= t], an [int] compared with an rclpy [Time]: [Time.__ge__]
    takes a [Time] only, so the comparison raises [TypeError] as well. *)
Definition int_le_time (n : Z) (t : Time) : Res bool := Err TypeError.

(** The second loop of [__add_pending_timers_until]; [last_time] is a
    nanosecond count.  The text of the RuntimeError goes on with the two
    times and their difference. *)
Definition expected_timer_actions (last_time : Z) (t : Time) (timers : list Timer)
  : Res (list Action) :=
  foldM
    (fun timer acc =>
       let p := cause_period (timer_cause timer) in
       if Z.eqb p 0 then Err ZeroDivisionError
       else
         let nr_fires := Z.div last_time p in
         let last_fire := Z.mul nr_fires p in
         let next_fire := Z.add last_fire p in
         dt <- time_minus_int t last_time ;;
         if Z.ltb p dt then Err (RuntimeError "Requested timestep too large!")
         else
           fires <- int_le_time next_fire t ;;
           if (fires : bool)
           then Ok (acc ++ [TimerCallbackAction READY (timer_node timer) t
                              (timer_cause timer) p])
           else Ok acc)
    timers [].

(** [__add_pending_timers_until] *)
Definition add_pending_timers_until (t : Time) (s : Orchestrator) : Res Orchestrator :=
  match simulator_time s with
  | None =>
      Err (RuntimeError "simulator_time has to be initialized before adding timer events")
  | Some last_time =>
      let timers := collect_timers in
      actions <- expected_timer_actions last_time t timers ;;
      foldM (fun action s' => add_action_and_effects recursion_limit action None s')
        actions s
  end.

(** [__add_topic_input] *)
Definition add_topic_input (t : Time) (topic : TopicName) (s : Orchestrator)
  : Res Orchestrator :=
  let input := TopicInput topic in
  let expected_rx_actions :=
    map (fun node => RxAction WAITING (get_name node) t (TopicInput topic) topic None)
      (filter (fun node => existsb (Cause_eqb input) (get_possible_inputs node))
         node_models) in
  foldM (fun action s' => add_action_and_effects recursion_limit action None s')
    expected_rx_actions s.

(** [__request_next_input] *)
Definition request_next_input (s : Orchestrator) : Res Orchestrator :=
  match next_input s with
  | Some (FutureInput topic future) =>
      let s1 := set_next_input None s in
      match simulator_time s1 with
      | None => Err AssertionError
      | Some now =>
          s2 <- add_topic_input now topic s1 ;;
          Ok (set_result future s2)
      end
  | Some (FutureTimestep time future) =>
      let s1 := set_next_input None s in
      s2 <- add_pending_timers_until time s1 ;;
      Ok (set_result future (set_simulator_time (Some time) s2))
  | None => Err (RuntimeError "No unused input available.")
  end.

Definition set_published (p : list Publication) (s : Orchestrator) : Orchestrator :=
  mkOrchestrator (next_input s) (simulator_time s) (graph s) (next_id s)
    p (next_future s) (futures_done s).

Definition set_nodes (l : list (nat * NodeData)) (s : Orchestrator) : Orchestrator :=
  set_graph (mkDiGraph l (edges (graph s))) s.

(** A [for] loop over the nodes whose body may raise and may change the
    action of the node it visits. *)
Fixpoint mapM {A B : Type} (f : A -> Res B) (l : list A) : Res (list B) :=
  match l with
  | [] => Ok []
  | x :: l' =>
      y <- f x ;;
      ys <- mapM f l' ;;
      Ok (y :: ys)
  end.

(** One round of the [for] loop of [__process] over the nodes [l]: the
    nodes with their new states, the publications so far and the flag
    [repeat]. *)
Fixpoint process_pass (g : DiGraph) (l : list (nat * NodeData))
  (pubs : list Publication) (repeat : bool)
  : Res (list (nat * NodeData) * list Publication * bool) :=
  match l with
  | [] => Ok ([], pubs, repeat)
  | (graph_node_id, node_data) :: l' =>
      let keep r := let '(l2, p2, b2) := r in Ok ((graph_node_id, node_data) :: l2, p2, b2) in
      if Nat.ltb 0 (out_degree g graph_node_id)
      then r <- process_pass g l' pubs repeat ;; keep r
      else if negb (ActionState_eqb (action_state (nd_data node_data)) READY)
      then r <- process_pass g l' pubs repeat ;; keep r
      else
        match nd_data node_data with
        | RxAction _ n ts c tp d =>
            if existsb (fun x => String.eqb (fst x) n && String.eqb (snd x) tp)
                 interception_pubs
            then
              r <- process_pass g l' (pubs ++ [(n, tp, d)]) true ;;
              let '(l2, p2, b2) := r in
              Ok ((graph_node_id,
                   mkNodeData (RxAction RUNNING n ts c tp d) (nd_timestep node_data))
                    :: l2, p2, b2)
            else if existsb (fun x => String.eqb (fst x) n) interception_pubs
                 then Err (KeyError tp)
                 else Err (KeyError n)
        | TimerCallbackAction _ _ _ _ _ => Err NotImplementedError
        end
  end.

(** The [while repeat] loop of [__process], with a bound on its rounds. *)
Fixpoint process_loop (rounds : nat) (s : Orchestrator) : Res Orchestrator :=
  match rounds with
  | O => Err LoopBound
  | S rounds' =>
      r <- process_pass (graph s) (nodes (graph s)) (published s) false ;;
      let '(l, p, repeat) := r in
      let s' := set_published p (set_nodes l s) in
      if repeat then process_loop rounds' s' else Ok s'
  end.

(** [__ready_for_next_input] *)
Definition ready_for_next_input (s : Orchestrator) : Res bool :=
  match next_input s with
  | None => Err (RuntimeError "There is no next input!")
  | Some (FutureTimestep _ _) => Ok true
  | Some (FutureInput topic _) =>
      Ok (negb (existsb
                  (fun x =>
                     let data := nd_data (snd x) in
                     (ActionState_eqb (action_state data) READY
                      || ActionState_eqb (action_state data) WAITING)
                     && match data with
                        | RxAction _ _ _ _ tp _ => String.eqb tp topic
                        | TimerCallbackAction _ _ _ _ _ => false
                        end)
                  (nodes (graph s))))
  end.

(** [__process]: the loop, then the pending offer.  Every round that
    repeats has set a [READY] action to [RUNNING], so the bound is more
    than the loop can use. *)
Definition process (s : Orchestrator) : Res Orchestrator :=
  s1 <- process_loop (S (S (length (nodes (graph s))))) s ;;
  match next_input s1 with
  | None => Ok s1
  | Some _ =>
      ready <- ready_for_next_input s1 ;;
      if negb ready then Ok s1 else request_next_input s1
  end.

(** [__graph_is_busy] *)
Definition graph_is_busy (s : Orchestrator) : bool :=
  existsb
    (fun x =>
       let data := nd_data (snd x) in
       ActionState_eqb (action_state data) RUNNING
       || ActionState_eqb (action_state data) WAITING)
    (nodes (graph s)).

(** [__find_running_action], over the nodes [l]. *)
Fixpoint find_running_action (published_topic_name : TopicName)
  (l : list (nat * NodeData)) : Res nat :=
  match l with
  | [] => Err ActionNotFoundError
  | (node_id, node_data) :: l' =>
      let d := nd_data node_data in
      if ActionState_eqb (action_state d) RUNNING
      then
        node_model <- node_model_by_name (action_node d) ;;
        if existsb (fun output => Effect_eqb output (TopicPublish published_topic_name))
             (effects_for_input node_model (action_cause d))
        then Ok node_id
        else find_running_action published_topic_name l'
      else find_running_action published_topic_name l'
  end.

(** [__find_running_action_status], over the nodes [l]. *)
Fixpoint find_running_action_status (node_name : NodeName)
  (l : list (nat * NodeData)) : Res nat :=
  match l with
  | [] => Err ActionNotFoundError
  | (node_id, node_data) :: l' =>
      let d := nd_data node_data in
      if ActionState_eqb (action_state d) RUNNING && String.eqb (action_node d) node_name
      then
        node_model <- node_model_by_name (action_node d) ;;
        if existsb (fun output => Effect_eqb output StatusPublish)
             (effects_for_input node_model (action_cause d))
        then Ok node_id
        else find_running_action_status node_name l'
      else find_running_action_status node_name l'
  end.

(** The loop of [__interception_subscription_callback] that looks for the
    timestep of the earliest waiting action of an external input. *)
Definition earliest_waiting_timestep (topic_name : TopicName)
  (l : list (nat * NodeData)) : Res (option Time) :=
  foldM
    (fun x input_timestep =>
       match nd_data (snd x) with
       | RxAction st _ _ _ tp _ =>
           if negb (String.eqb tp topic_name) then Ok input_timestep
           else if negb (ActionState_eqb st WAITING) then Ok input_timestep
           else
             match nd_timestep (snd x) with
             | None => Err (KeyError "timestep")
             | Some t =>
                 match input_timestep with
                 | None => Ok (Some t)
                 | Some it => if Z.ltb t it then Ok (Some t) else Ok (Some it)
                 end
             end
       | TimerCallbackAction _ _ _ _ _ => Ok input_timestep
       end)
    l None.

(** The body of the buffering loop of
    [__interception_subscription_callback], at one node. *)
Definition buffer_at (g : DiGraph) (topic_name : TopicName) (msg : Msg)
  (cause_action_id : option nat) (input_timestep : option Time)
  (x : nat * NodeData) : Res (nat * NodeData) :=
  let '(action_node_id, node_data) := x in
  match nd_data node_data with
  | RxAction st n ts c tp d =>
      if negb (String.eqb tp topic_name) then Ok x
      else if negb (ActionState_eqb st WAITING) then Ok x
      else
        skip <-
          match cause_action_id with
          | Some cid =>
              Ok (negb (has_successor g action_node_id cid)
                  || negb (match edge_type g action_node_id cid with
                           | Some ty => EdgeType_eqb ty CAUSALITY
                           | None => false
                           end))
          | None =>
              match input_timestep with
              | None => Err AssertionError
              | Some it =>
                  match nd_timestep node_data with
                  | None => Err (KeyError "timestep")
                  | Some t => Ok (negb (Z.eqb t it))
                  end
              end
          end ;;
        if (skip : bool) then Ok x
        else
          match d with
          | Some _ => Err AssertionError
          | None =>
              Ok (action_node_id,
                  mkNodeData (RxAction READY n ts c tp (Some msg)) (nd_timestep node_data))
          end
  | TimerCallbackAction _ _ _ _ _ => Ok x
  end.

(** [__interception_subscription_callback] *)
Definition interception_subscription_callback (topic_name : TopicName) (msg : Msg)
  (s : Orchestrator) : Res Orchestrator :=
  if String.eqb topic_name "clock" then Ok s
  else
    found <-
      match find_running_action topic_name (nodes (graph s)) with
      | Ok cause_action_id => Ok (Some cause_action_id, None)
      | Err ActionNotFoundError =>
          if existsb (fun x => String.eqb topic_name (snd x)) external_input_topics_config
          then
            input_timestep <- earliest_waiting_timestep topic_name (nodes (graph s)) ;;
            Ok (None, input_timestep)
          else Err ActionNotFoundError
      | Err e => Err e
      end ;;
    let '(cause_action_id, input_timestep) := found in
    l <- mapM (buffer_at (graph s) topic_name msg cause_action_id input_timestep)
           (nodes (graph s)) ;;
    let s1 := set_nodes l s in
    let s2 := match cause_action_id with
              | Some id => set_graph (remove_node id (graph s1)) s1
              | None => s1
              end in
    process s2.

(** [__status_callback] *)
Definition status_callback (node_name : NodeName) (s : Orchestrator) : Res Orchestrator :=
  cause_action_id <- find_running_action_status node_name (nodes (graph s)) ;;
  process (set_graph (remove_node cause_action_id (graph s)) s).

(** [wait_until_publish_allowed]; the result is the future and the new
    state. *)
Definition wait_until_publish_allowed (topic : TopicName) (s : Orchestrator)
  : Res (nat * Orchestrator) :=
  match next_input s with
  | Some _ =>
      Err (RuntimeError "Data source wants to provide next input before waiting on the last one!")
  | None =>
      match simulator_time s with
      | None => Err (RuntimeError "Data source has to provide time before first data")
      | Some _ =>
          let '(future, s0) := new_future s in
          let s1 := set_next_input (Some (FutureInput topic future)) s0 in
          if negb (graph_is_busy s1)
          then s2 <- request_next_input s1 ;; Ok (future, s2)
          else Ok (future, s1)
      end
  end.

(** [wait_until_time_publish_allowed] *)
Definition wait_until_time_publish_allowed (t : Time) (s : Orchestrator)
  : Res (nat * Orchestrator) :=
  match next_input s with
  | Some _ =>
      Err (RuntimeError "Data source wants to provide next timestep before waiting on the last one!")
  | None =>
      let '(f, s0) := new_future s in
      let s1 := set_next_input (Some (FutureTimestep t f)) s0 in
      if negb (graph_is_busy s1)
      then s2 <- request_next_input s1 ;; Ok (f, s2)
      else Ok (f, s1)
  end.

(** ** Runs of the orchestrator *)

(** What reaches the orchestrator from outside: the two offers of the data
    source, a message on a subscribed topic, a status message. *)
Inductive Event : Type :=
| OfferInput (topic : TopicName)
| OfferTime (t : Time)
| TopicMessage (topic : TopicName) (msg : Msg)
| StatusMessage (node_name : NodeName).

Definition step (ev : Event) (s : Orchestrator) : Res Orchestrator :=
  match ev with
  | OfferInput topic => r <- wait_until_publish_allowed topic s ;; Ok (snd r)
  | OfferTime t => r <- wait_until_time_publish_allowed t s ;; Ok (snd r)
  | TopicMessage topic msg => interception_subscription_callback topic msg s
  | StatusMessage node_name => status_callback node_name s
  end.

(** The states after a sequence of calls none of which raised; an exception
    ends the process.  A run starts from a fresh orchestrator, or from a
    fresh orchestrator whose [simulator_time] the caller has assigned: no
    method sets the time of an orchestrator that has none. *)
Inductive reachable : Orchestrator -> Prop :=
| reachable_init : reachable init
| reachable_started : forall t0, reachable (set_simulator_time (Some t0) init)
| reachable_step : forall ev s s',
    reachable s -> step ev s = Ok s' -> reachable s'.

(** The states after a sequence of calls none of which raised, from any
    state [s0]. *)
Inductive run_from (s0 : Orchestrator) : Orchestrator -> Prop :=
| run_from_here : run_from s0 s0
| run_from_step : forall ev s s',
    run_from s0 s -> step ev s = Ok s' -> run_from s0 s'.

End Orchestrator.

(** * What the graph is to satisfy *)

Definition node_ids (g : DiGraph) : list nat := map fst (nodes g).

Definition edge_in (g : DiGraph) (u v : nat) : Prop :=
  exists ty, In (u, v, ty) (edges g).

(** No action waits, directly or through others, for itself. *)
Definition acyclic (g : DiGraph) : Prop :=
  forall u, ~ clos_trans nat (edge_in g) u u.

(** Every edge leads from an action to one that was inserted before it, and
    both are in the graph. *)
Definition edges_to_older (g : DiGraph) : Prop :=
  forall u v ty, In (u, v, ty) (edges g) ->
    v < u /\ In u (node_ids g) /\ In v (node_ids g).

(** At most one action at a ROS node is running. *)
Definition one_running_per_node (g : DiGraph) : Prop :=
  forall u a v b,
    In (u, a) (nodes g) -> In (v, b) (nodes g) ->
    action_state (nd_data a) = RUNNING -> action_state (nd_data b) = RUNNING ->
    action_node (nd_data a) = action_node (nd_data b) ->
    u = v.

(** The loops that add edges from one node, in one shape: an edge from [u]
    to every node of [l] that [sel] picks. *)
Definition add_edges_to (u : nat) (ty : EdgeType) (sel : nat * NodeData -> bool)
  (l : list (nat * NodeData)) (g : DiGraph) : DiGraph :=
  fold_left (fun g' x => if sel x then add_edge u (fst x) ty g' else g') l g.

Definition at_same_node (node_id : nat) (action : Action) (x : nat * NodeData) : bool :=
  String.eqb (action_node (nd_data (snd x))) (action_node action)
  && negb (Nat.eqb (fst x) node_id).

Definition is_rx_on (output_topic : TopicName) (x : nat * NodeData) : bool :=
  match nd_data (snd x) with
  | RxAction _ _ _ _ topic _ => String.eqb topic output_topic
  | TimerCallbackAction _ _ _ _ _ => false
  end.

(** An action may run: it waits for no other action and its state is
    [READY]. *)
Definition eligible (g : DiGraph) (x : nat * NodeData) : bool :=
  Nat.eqb (out_degree g (fst x)) 0
  && ActionState_eqb (action_state (nd_data (snd x))) READY.

(** What the scheduling loop is to do to a node: an eligible action becomes
    [RUNNING], any other stays as it is. *)
Definition run_eligible (g : DiGraph) (x : nat * NodeData) : nat * NodeData :=
  if eligible g x
  then (fst x, mkNodeData (set_state RUNNING (nd_data (snd x))) (nd_timestep (snd x)))
  else x.

(** What the scheduling loop is to publish: the buffered message of every
    eligible [RxAction], for its node and topic, in the order of the nodes. *)
Definition publications_of (g : DiGraph) (l : list (nat * NodeData)) : list Publication :=
  flat_map
    (fun x =>
       if eligible g x
       then match nd_data (snd x) with
            | RxAction _ n _ _ tp d => [(n, tp, d)]
            | TimerCallbackAction _ _ _ _ _ => []
            end
       else [])
    l.

(** A change of the action at a node that keeps its id and its ROS node and
    makes it [RUNNING] only if it waited for nothing. *)
Definition node_update (g : DiGraph) (x y : nat * NodeData) : Prop :=
  fst x = fst y /\
  action_node (nd_data (snd x)) = action_node (nd_data (snd y)) /\
  (action_state (nd_data (snd y)) = RUNNING ->
   action_state (nd_data (snd x)) = RUNNING \/ out_degree g (fst x) = 0).

(** Every action of the graph is an [RxAction] that waits for its message,
    at a node without the key ["timestep"]. *)
Definition waiting_rx (x : nat * NodeData) : Prop :=
  (exists n ts c tp d, nd_data (snd x) = RxAction WAITING n ts c tp d)
  /\ nd_timestep (snd x) = None.

Definition all_waiting (g : DiGraph) : Prop :=
  forall x, In x (nodes g) -> waiting_rx x.

(** An [RxAction] of the topic is waiting for its message or has it
    buffered. *)
Definition pending_on (topic : TopicName) (g : DiGraph) : Prop :=
  exists id st n ts c d ots,
    In (id, mkNodeData (RxAction st n ts c topic d) ots) (nodes g)
    /\ (st = WAITING \/ st = READY).

(** The action at [x] is an [RxAction] of the topic that waits for its
    message. *)
Definition waiting_on (topic : TopicName) (x : nat * NodeData) : bool :=
  match nd_data (snd x) with
  | RxAction st _ _ _ tp _ => String.eqb tp topic && ActionState_eqb st WAITING
  | TimerCallbackAction _ _ _ _ _ => false
  end.

Section Invariants.

Context {config : Config}.

(** The model of the node of action [a] declares that its cause publishes
    [T]. *)
Definition declares_publish (a : Action) (T : TopicName) : Prop :=
  exists m, node_model_by_name (action_node a) = Ok m /\
            In (TopicPublish T) (effects_for_input m (action_cause a)).

Definition declares_status (a : Action) : Prop :=
  exists m, node_model_by_name (action_node a) = Ok m /\
            In StatusPublish (effects_for_input m (action_cause a)).


(** The part of the invariant that holds at every point of an insertion:
    ids are below the counter and distinct, edges lead to older nodes, a
    running action waits for nothing, every action has a node model. *)
Record GCore (g : DiGraph) (n : nat) : Prop := mkGCore {
  gc_ids : forall id, In id (node_ids g) -> id < n;
  gc_nodup : NoDup (node_ids g);
  gc_edges : edges_to_older g;
  gc_running : forall u nd v ty,
      In (u, nd) (nodes g) -> action_state (nd_data nd) = RUNNING ->
      ~ In (u, v, ty) (edges g);
  gc_models : forall u nd,
      In (u, nd) (nodes g) ->
      exists m, node_model_by_name (action_node (nd_data nd)) = Ok m
}.

(** Of two actions at one ROS node, the later waits for the earlier. *)
Definition SameNode (g : DiGraph) : Prop :=
  forall u a v b,
    In (u, a) (nodes g) -> In (v, b) (nodes g) -> u < v ->
    action_node (nd_data a) = action_node (nd_data b) ->
    edge_in g v u.

Definition GInv (s : Orchestrator) : Prop :=
  GCore (graph s) (next_id s) /\ SameNode (graph s).

(** The action at [x] is an [RxAction] whose node and topic have an
    interception publisher. *)
Definition publishable (x : nat * NodeData) : bool :=
  match nd_data (snd x) with
  | RxAction _ n _ _ tp _ =>
      existsb (fun p => String.eqb (fst p) n && String.eqb (snd p) tp) interception_pubs
  | TimerCallbackAction _ _ _ _ _ => false
  end.

(** Every action of the graph is at a ROS node that has a model. *)
Definition models_known (g : DiGraph) : Prop :=
  forall x, In x (nodes g) ->
    exists m, node_model_by_name (action_node (nd_data (snd x))) = Ok m.

(** A running action whose model declares that it publishes [T]; a running
    action at node [N] whose model declares a status message. *)
Definition running_publisher (g : DiGraph) (T : TopicName) : Prop :=
  exists x, In x (nodes g)
            /\ action_state (nd_data (snd x)) = RUNNING
            /\ declares_publish (nd_data (snd x)) T.

Definition running_status (g : DiGraph) (N : NodeName) : Prop :=
  exists x, In x (nodes g)
            /\ action_state (nd_data (snd x)) = RUNNING
            /\ action_node (nd_data (snd x)) = N
            /\ declares_status (nd_data (snd x)).

Definition is_external_input (T : TopicName) : bool :=
  existsb (fun x => String.eqb T (snd x)) external_input_topics_config.

(** A node that receives a topic and publishes it again: the insertion of
    an action for it calls itself without end. *)
Definition self_publishing (N : NodeName) (T : TopicName) : Prop :=
  exists m, node_model_by_name N = Ok m /\
            In (TopicPublish T) (effects_for_input m (TopicInput T)).

(** What an insertion keeps and what it may change. *)
Definition grows (s s' : Orchestrator) : Prop :=
  next_id s <= next_id s' /\
  (forall id, In id (node_ids (graph s)) -> In id (node_ids (graph s'))).

(** What the proof by induction on the depth of the recursion asks of the
    recursive call. *)
Definition rec_ok (rec : Action -> option nat -> Orchestrator -> Res Orchestrator) : Prop :=
  forall action parent t t',
    GInv t ->
    (forall p, parent = Some p -> In p (node_ids (graph t))) ->
    action_state action <> RUNNING ->
    rec action parent t = Ok t' ->
    GInv t' /\ grows t t'.

End Invariants.

(** * Subscriptions and publishers (initialize_ros_communication) *)

(** What [create_subscription] and [create_publisher] are called with: the
    message type, by its name, and the topic. *)
Record Subscription : Type := mkSubscription {
  sub_type : string;
  sub_topic : TopicName
}.

Record Publisher : Type := mkPublisher {
  pub_type : string;
  pub_topic : TopicName
}.

(** A Python [dict] with string keys, in insertion order: [d[k]] and
    [d[k] = v]. *)
Fixpoint dict_get {V : Type} (k : string) (d : list (string * V)) : option V :=
  match d with
  | [] => None
  | (k', v) :: d' => if String.eqb k' k then Some v else dict_get k d'
  end.

Fixpoint dict_set {V : Type} (k : string) (v : V) (d : list (string * V))
  : list (string * V) :=
  match d with
  | [] => [(k, v)]
  | (k', v') :: d' =>
      if String.eqb k' k then (k, v) :: d' else (k', v') :: dict_set k v d'
  end.

(** The fields of [Orchestrator] that [initialize_ros_communication]
    fills. *)
Record RosCommunication : Type := mkRosCommunication {
  rc_interception_subs : list (TopicName * Subscription);
  rc_interception_pubs : list (NodeName * list (TopicName * Publisher));
  rc_output_subs : list Subscription;
  rc_status_subscription : option Subscription
}.

(** The fields as [__init__] leaves them. *)
Definition no_communication : RosCommunication := mkRosCommunication [] [] [] None.

(** An element of the result of [collect_intercepted_topics]: node,
    canonical name, intercepted name, message type. *)
Definition Intercepted : Type := NodeName * TopicName * TopicName * string.

Definition ic_node (x : Intercepted) : NodeName := fst (fst (fst x)).
Definition ic_canonical (x : Intercepted) : TopicName := snd (fst (fst x)).
Definition ic_intercepted (x : Intercepted) : TopicName := snd (fst x).
Definition ic_type (x : Intercepted) : string := snd x.

(** The body of the first loop of [initialize_ros_communication]. *)
Definition intercept_one (rc : RosCommunication) (x : Intercepted) : RosCommunication :=
  let node := ic_node x in
  let canonical_name := ic_canonical x in
  let subs :=
    match dict_get canonical_name (rc_interception_subs rc) with
    | None =>
        dict_set canonical_name (mkSubscription (ic_type x) canonical_name)
          (rc_interception_subs rc)
    | Some _ => rc_interception_subs rc
    end in
  let publisher := mkPublisher (ic_type x) (ic_intercepted x) in
  let pubs :=
    match dict_get node (rc_interception_pubs rc) with
    | None => dict_set node [] (rc_interception_pubs rc)
    | Some _ => rc_interception_pubs rc
    end in
  let pubs_of_node :=
    match dict_get node pubs with
    | Some d => d
    | None => []
    end in
  mkRosCommunication subs
    (dict_set node (dict_set canonical_name publisher pubs_of_node) pubs)
    (rc_output_subs rc) (rc_status_subscription rc).

(** [initialize_ros_communication]; [intercepted] is what
    [collect_intercepted_topics] has returned for the topics of the ROS
    graph, [output_topics] the (type, name) pairs of the constructor. *)
Definition initialize_ros_communication (intercepted : list Intercepted)
  (output_topics : list (string * TopicName)) (rc : RosCommunication)
  : RosCommunication :=
  let rc1 := fold_left intercept_one intercepted rc in
  let rc2 :=
    fold_left
      (fun rc' x =>
         mkRosCommunication (rc_interception_subs rc') (rc_interception_pubs rc')
           (rc_output_subs rc' ++ [mkSubscription (fst x) (snd x)])
           (rc_status_subscription rc'))
      output_topics rc1 in
  mkRosCommunication (rc_interception_subs rc2) (rc_interception_pubs rc2)
    (rc_output_subs rc2) (Some (mkSubscription "Status" "status")).

(** [self.interception_pubs[node][topic]], as [__process] looks it up. *)
Definition lookup_pub (node : NodeName) (topic : TopicName) (rc : RosCommunication)
  : option Publisher :=
  match dict_get node (rc_interception_pubs rc) with
  | Some d => dict_get topic d
  | None => None
  end.

(** * Remappings (remapping_generation.py) *)

(** [launch_ros.actions.SetRemap], by its two texts. *)
Record SetRemap : Type := mkSetRemap {
  src : string;
  dst : string
}.

(** [_find_node_model] *)
Definition find_node_model (name : string) (models : list NodeModel) : Res NodeModel :=
  match find (fun model => String.eqb name (get_name model)) models with
  | Some model => Ok model
  | None => Err (RuntimeError ("No model for node with name " ++ name)%string)
  end.

(** The loops of [generate_remappings_from_config]: [launch_nodes] is
    [launch_config["nodes"]], a node name with its remappings from internal
    name to ROS name, and [models] is what [load_models] has returned;
    [intercepted_name] is the function of name_utils. *)
Definition generate_remappings_from_config
  (intercepted_name : NodeName -> TopicName -> string)
  (launch_nodes : list (string * list (string * string)))
  (models : list NodeModel) : Res (list SetRemap) :=
  foldM
    (fun node remap_actions =>
       foldM
         (fun remapping remap_actions' =>
            let internal_name := fst remapping in
            let ros_name := snd remapping in
            model <- find_node_model (fst node) models ;;
            if negb (existsb (Cause_eqb (TopicInput ros_name)) (get_possible_inputs model))
            then Ok remap_actions'
            else
              let remap_src := (fst node ++ ":" ++ internal_name)%string in
              let remap_dst := intercepted_name (fst node) ros_name in
              Ok (remap_actions' ++ [mkSetRemap remap_src remap_dst]))
         (snd node) remap_actions)
    launch_nodes [].

(** What the remappings of one node are to be: one for each of its
    remappings whose ROS name is an input of the model, in their order. *)
Definition remaps_of (intercepted_name : NodeName -> TopicName -> string)
  (model : NodeModel) (node : string * list (string * string)) : list SetRemap :=
  map (fun remapping =>
         mkSetRemap (fst node ++ ":" ++ fst remapping)%string
           (intercepted_name (fst node) (snd remapping)))
    (filter (fun remapping =>
               existsb (Cause_eqb (TopicInput (snd remapping))) (get_possible_inputs model))
       (snd node)).

(** * The tracker of the time synchronizer (message_filter.py) *)

(** The loop of [ApproximateTimeSynchronizerTracker.__init__] that fills
    [_filters]: the keys of the dict, in insertion order. *)
Definition tracker_filters (topic_names : list string) : Res (list string) :=
  foldM
    (fun topic_name filters =>
       if existsb (String.eqb topic_name) filters
       then Err AssertionError
       else Ok (filters ++ [topic_name]))
    topic_names [].

(** * The data of plot_graph *)

(** The label of a node, before it is formatted: "node: rx topic" or
    "node: timer @timestamp". *)
Inductive Annotation : Type :=
| RxAnnotation (node : NodeName) (topic : TopicName)
| TimerAnnotation (node : NodeName) (timestamp : Time).

(** [color_map] *)
Definition color_map (ty : EdgeType) : string :=
  match ty with
  | SAME_NODE => "tab:green"
  | SAME_TOPIC => "tab:orange"
  | CAUSALITY => "tab:blue"
  end.

(** The three dictionaries that [plot_graph] computes from the graph:
    [annotations], [edge_colors] and [node_to_community]. *)
Definition PlotData : Type :=
  list (nat * Annotation) * list (nat * nat * string) * list (nat * Time).

(** [plot_graph].  The dictionaries are computed in the order of the
    source; [draw] stands for what the method does with them at its end,
    the call of [netgraph.InteractiveGraph] on the graph and the
    dictionaries, the placement of the annotations and [plt.show()], which
    may raise.  The figure and its legend, which do not depend on the
    graph, are left out. *)
Definition plot_graph (draw : DiGraph -> PlotData -> Res unit) (s : Orchestrator)
  : Res unit :=
  let annotations :=
    map (fun x =>
           match nd_data (snd x) with
           | RxAction _ n _ _ tp _ => (fst x, RxAnnotation n tp)
           | TimerCallbackAction _ n ts _ _ => (fst x, TimerAnnotation n ts)
           end)
      (nodes (graph s)) in
  let edge_colors :=
    map (fun e => (fst (fst e), snd (fst e), color_map (snd e))) (edges (graph s)) in
  node_to_community <-
    mapM (fun x =>
            match nd_timestep (snd x) with
            | Some timestep => Ok (fst x, timestep)
            | None => Err (KeyError "timestep")
            end)
      (nodes (graph s)) ;;
  draw (graph s) (annotations, edge_colors, node_to_community).

(** * Relations between the state before and after a call *)

(** The fields that an insertion does not touch. *)
Definition same_fields (s s' : Orchestrator) : Prop :=
  next_input s' = next_input s
  /\ simulator_time s' = simulator_time s
  /\ published s' = published s
  /\ next_future s' = next_future s
  /\ futures_done s' = futures_done s.

(** [s'] is [s] with more actions: the nodes of [s] are there, in their
    order and as they were, followed by nodes with new ids; an edge that
    starts at an old id is in [s'] if and only if it is in [s]. *)
Definition extends (s s' : Orchestrator) : Prop :=
  (exists l,
      nodes (graph s') = nodes (graph s) ++ l
      /\ forall x, In x l -> next_id s <= fst x < next_id s')
  /\ (forall e, In e (edges (graph s')) ->
                 In e (edges (graph s)) \/ next_id s <= fst (fst e))
  /\ (forall e, In e (edges (graph s)) -> fst (fst e) < next_id s ->
                 In e (edges (graph s')))
  /\ (forall u v, edge_in (graph s) u v -> edge_in (graph s') u v)
  /\ next_id s <= next_id s'
  /\ same_fields s s'.

(** The cause for which [__add_action_and_effects] looks up the effects of
    an action. *)
Definition cause_of (a : Action) : Cause :=
  match a with
  | RxAction _ _ _ _ topic _ => TopicInput topic
  | TimerCallbackAction _ _ _ _ period => TimerInput period
  end.

(** The state in which [__add_all_effects_for_cause] starts its recursive
    calls for action [a]: the node is added and has its edges to the other
    actions at its ROS node, to its parent, and to the [RxAction]s of the
    topics that the effects [effects] publish. *)
Definition inserted (a : Action) (parent : option nat) (effects : list Effect)
  (s : Orchestrator) : Orchestrator :=
  let n := next_id s in
  let g0 := add_node n (mkNodeData a None) (graph s) in
  let g1 := add_edges_to n SAME_NODE (at_same_node n a) (nodes g0) g0 in
  let g2 := match parent with
            | Some p => add_edge n p CAUSALITY g1
            | None => g1
            end in
  set_graph (fold_left
               (fun g' effect =>
                  match effect with
                  | TopicPublish T => add_edges_to n SAME_TOPIC (is_rx_on T) (nodes g') g'
                  | _ => g'
                  end)
               effects g2)
    (set_graph g2 (set_next_id (S n) s)).



(** The action at [x] has no message buffered. *)
Definition no_data (x : nat * NodeData) : bool :=
  match nd_data (snd x) with
  | RxAction _ _ _ _ _ None => true
  | RxAction _ _ _ _ _ (Some _) => false
  | TimerCallbackAction _ _ _ _ _ => true
  end.

(** What the buffering loop is to do at a node when the message is an
    external input for the timestep [input_timestep]: an RxAction of the
    topic that waits for its message and whose node carries that timestep
    gets the message and becomes READY. *)
Definition ready_external (topic_name : TopicName) (msg : Msg)
  (input_timestep : option Time) (x : nat * NodeData) : nat * NodeData :=
  match input_timestep, nd_timestep (snd x), nd_data (snd x) with
  | Some m, Some t, RxAction _ n ts c tp _ =>
      if waiting_on topic_name x && Z.eqb t m
      then (fst x, mkNodeData (RxAction READY n ts c tp (Some msg)) (Some t))
      else x
  | _, _, _ => x
  end.

Section ModelConditions.

Context {config : Config}.

(** No two node models have the same name. *)
Definition unique_names : Prop := NoDup (map get_name node_models).

(** The topics are ranked: what a node publishes on an input has a lower
    rank than the input, so no topic leads back to itself. *)
Definition ranked (rank : TopicName -> nat) : Prop :=
  forall m T U,
    In m node_models ->
    In (TopicInput T) (get_possible_inputs m) ->
    In (TopicPublish U) (effects_for_input m (TopicInput T)) ->
    rank U < rank T.

End ModelConditions.

(** * What orders the publishers of a topic *)

Section TopicInvariant.

Context {config : Config}.











End TopicInvariant.



(** * Configurations and states used as examples *)

(** Node X receives A and publishes B; node Y receives A and B.  A is the
    external input. *)
Definition model_X : NodeModel :=
  mkNodeModel "X" [TopicInput "A"]
    (fun c => if Cause_eqb c (TopicInput "A") then [TopicPublish "B"] else []).

Definition model_Y : NodeModel :=
  mkNodeModel "Y" [TopicInput "A"; TopicInput "B"] (fun _ => [StatusPublish]).

Definition ex_config : Config :=
  mkConfig 1000 [model_X; model_Y] [("SampleMessage", "A")]
    [("X", "A"); ("Y", "A"); ("Y", "B")].

(** One node with one timer of 100 ms. *)
Definition ms : Z := 1000000%Z.

Definition model_timer : NodeModel :=
  mkNodeModel "T1" [TimerInput (100 * ms)] (fun _ => [StatusPublish]).

Definition timer_config : Config := mkConfig 1000 [model_timer] [] [].




(** A node that receives T and publishes T. *)
Definition model_L : NodeModel :=
  mkNodeModel "L" [TopicInput "T"] (fun _ => [TopicPublish "T"]).

Definition loop_config : Config :=
  mkConfig 20 [model_L] [("SampleMessage", "T")] [("L", "T")].

(** A fresh orchestrator whose time the caller has set to 0. *)
Definition started0 : Orchestrator := set_simulator_time (Some 0%Z) init.

(** [started0] after the offer of an input on A has been granted. *)
Definition ex_state : Orchestrator :=
  mkOrchestrator None (Some 0%Z)
    (mkDiGraph
       [(0, mkNodeData (RxAction WAITING "X" 0%Z (TopicInput "A") "A" None) None);
        (1, mkNodeData (RxAction WAITING "Y" 0%Z (TopicInput "B") "B" None) None);
        (2, mkNodeData (RxAction WAITING "Y" 0%Z (TopicInput "A") "A" None) None)]
       [(1, 0, CAUSALITY); (2, 1, SAME_NODE)])
    3 [] 1 [0].

(** The graph of [ex_state] with the message on A buffered at its two
    actions, and an offer of the next input on A pending. *)
Definition ex_buffered : Orchestrator :=
  mkOrchestrator (Some (FutureInput "A" 1)) (Some 0%Z)
    (mkDiGraph
       [(0, mkNodeData (RxAction READY "X" 0%Z (TopicInput "A") "A" (Some "m")) None);
        (1, mkNodeData (RxAction WAITING "Y" 0%Z (TopicInput "B") "B" None) None);
        (2, mkNodeData (RxAction READY "Y" 0%Z (TopicInput "A") "A" (Some "m")) None)]
       [(1, 0, CAUSALITY); (2, 1, SAME_NODE)])
    3 [] 2 [0].

(** [ex_buffered] after the scheduling loop. *)
Definition ex_scheduled : Orchestrator :=
  mkOrchestrator (Some (FutureInput "A" 1)) (Some 0%Z)
    (mkDiGraph
       [(0, mkNodeData (RxAction RUNNING "X" 0%Z (TopicInput "A") "A" (Some "m")) None);
        (1, mkNodeData (RxAction WAITING "Y" 0%Z (TopicInput "B") "B" None) None);
        (2, mkNodeData (RxAction READY "Y" 0%Z (TopicInput "A") "A" (Some "m")) None)]
       [(1, 0, CAUSALITY); (2, 1, SAME_NODE)])
    3 [("X", "A", Some "m")] 2 [0].

(** [ex_scheduled] after the message of X on B: the action of X is removed,
    the action of Y on B has the message and runs. *)
Definition ex_completed : Orchestrator :=
  mkOrchestrator (Some (FutureInput "A" 1)) (Some 0%Z)
    (mkDiGraph
       [(1, mkNodeData (RxAction RUNNING "Y" 0%Z (TopicInput "B") "B" (Some "b")) None);
        (2, mkNodeData (RxAction READY "Y" 0%Z (TopicInput "A") "A" (Some "m")) None)]
       [(2, 1, SAME_NODE)])
    3 [("X", "A", Some "m"); ("Y", "B", Some "b")] 2 [0].

(** Only the action of X on A is left, running, and an offer of the next
    input on A is pending. *)
Definition ex_running : Orchestrator :=
  mkOrchestrator (Some (FutureInput "A" 1)) (Some 0%Z)
    (mkDiGraph
       [(0, mkNodeData (RxAction RUNNING "X" 0%Z (TopicInput "A") "A" (Some "m")) None)]
       [])
    1 [("X", "A", Some "m")] 2 [0].









(** [started0] after the insertion of an action of X for A, and then of an
    action of Y for A. *)
Definition ex_inserted : Orchestrator :=
  mkOrchestrator None (Some 0%Z)
    (mkDiGraph
       [(0, mkNodeData (RxAction WAITING "X" 0%Z (TopicInput "A") "A" None) None);
        (1, mkNodeData (RxAction WAITING "Y" 0%Z (TopicInput "B") "B" None) None)]
       [(1, 0, CAUSALITY)])
    2 [] 0 [].

Definition ex_inserted2 : Orchestrator :=
  mkOrchestrator None (Some 0%Z)
    (mkDiGraph
       [(0, mkNodeData (RxAction WAITING "X" 0%Z (TopicInput "A") "A" None) None);
        (1, mkNodeData (RxAction WAITING "Y" 0%Z (TopicInput "B") "B" None) None);
        (2, mkNodeData (RxAction WAITING "Y" 0%Z (TopicInput "A") "A" None) None)]
       [(1, 0, CAUSALITY); (2, 1, SAME_NODE)])
    3 [] 0 [].

(** The action of Y on B runs; it declares a status message. *)
Definition ex_status_running : Orchestrator :=
  mkOrchestrator None (Some 0%Z)
    (mkDiGraph
       [(1, mkNodeData (RxAction RUNNING "Y" 0%Z (TopicInput "B") "B" (Some "m")) None);
        (2, mkNodeData (RxAction READY "Y" 0%Z (TopicInput "A") "A" (Some "m")) None)]
       [(2, 1, SAME_NODE)])
    3 [("X", "A", Some "m"); ("Y", "B", Some "m")] 2 [0].

(** [ex_status_running] after the status message of Y. *)
Definition ex_status_done : Orchestrator :=
  mkOrchestrator None (Some 0%Z)
    (mkDiGraph
       [(2, mkNodeData (RxAction RUNNING "Y" 0%Z (TopicInput "A") "A" (Some "m")) None)]
       [])
    3 [("X", "A", Some "m"); ("Y", "B", Some "m"); ("Y", "A", Some "m")] 2 [0].

(** Two actions of X wait for A, for the times 0 and 5, at nodes that carry
    the key "timestep". *)
Definition ex_timesteps : Orchestrator :=
  mkOrchestrator None (Some 5%Z)
    (mkDiGraph
       [(0, mkNodeData (RxAction WAITING "X" 5%Z (TopicInput "A") "A" None) (Some 5%Z));
        (1, mkNodeData (RxAction WAITING "X" 0%Z (TopicInput "A") "A" None) (Some 0%Z))]
       [(1, 0, SAME_NODE)])
    2 [] 0 [].

(** A is above B. *)
Definition ex_rank (T : TopicName) : nat := if String.eqb T "A" then 1 else 0.

(** A launch configuration for X, with a remapping of an input and one of
    an output, and a naming of intercepted topics. *)
Definition ex_launch_nodes : list (string * list (string * string)) :=
  [("X", [("in", "A"); ("out", "B")])].

Definition ex_intercepted_name (node : NodeName) (topic : TopicName) : string :=
  ("/intercepted/" ++ node ++ "/sub/" ++ topic)%string.

(** * Properties *)

(** ** Loops *)

Lemma foldM_inv {A S : Type} (P : S -> Prop) (f : A -> S -> Res S) :
  forall (l : list A) (s s' : S),
    P s ->
    (forall x t t', In x l -> P t -> f x t = Ok t' -> P t') ->
    foldM f l s = Ok s' -> P s'.
Proof.
  induction l as [|x l IH]; simpl; intros s s' Hs Hf H.
  - inversion H; subst; exact Hs.
  - destruct (f x s) as [t|e] eqn:E; [|discriminate].
    apply (IH t s'); [apply (Hf x s t); auto| |exact H].
    intros y u u' Hy; apply Hf; right; exact Hy.
Qed.

Lemma foldM_fails {A S : Type} (f : A -> S -> Res S) (x : A) :
  forall (l : list A),
    In x l ->
    (forall s t, f x s <> Ok t) ->
    forall s t, foldM f l s <> Ok t.
Proof.
  induction l as [|y l IH]; simpl; intros Hin Hx s t; [contradiction|].
  destruct (f y s) as [u|e] eqn:E; [|discriminate].
  destruct Hin as [->|Hin]; [exfalso; exact (Hx _ _ E)|].
  apply IH; assumption.
Qed.

Lemma fold_left_inv {A B : Type} (P : B -> Prop) (f : B -> A -> B) :
  forall (l : list A) (b : B),
    P b -> (forall x c, In x l -> P c -> P (f c x)) -> P (fold_left f l b).
Proof.
  induction l as [|x l IH]; simpl; intros b Hb Hf; [exact Hb|].
  apply IH; auto.
Qed.

Lemma fold_left_ext {A B : Type} (f g : B -> A -> B) :
  (forall b x, f b x = g b x) ->
  forall l b, fold_left f l b = fold_left g l b.
Proof.
  intros H; induction l as [|x l IH]; simpl; intros b; [reflexivity|].
  rewrite H; apply IH.
Qed.

(** ** Edges *)

Lemma is_edge_true u v e :
  is_edge u v e = true <-> fst (fst e) = u /\ snd (fst e) = v.
Proof.
  unfold is_edge. rewrite andb_true_iff, !Nat.eqb_eq. tauto.
Qed.

Lemma nodes_add_edge u v ty g : nodes (add_edge u v ty g) = nodes g.
Proof. unfold add_edge; destruct (existsb _ _); reflexivity. Qed.

Lemma in_edges_add_edge u v ty g e :
  In e (edges (add_edge u v ty g)) -> In e (edges g) \/ e = (u, v, ty).
Proof.
  unfold add_edge; destruct (existsb _ _); simpl; intros H.
  - apply in_map_iff in H. destruct H as [e0 [He0 Hin]].
    destruct (is_edge u v e0); subst; auto.
  - apply in_app_or in H. destruct H as [H|[H|[]]]; auto.
Qed.

Lemma edge_in_add_edge_new u v ty g : In (u, v, ty) (edges (add_edge u v ty g)).
Proof.
  unfold add_edge; destruct (existsb _ _) eqn:E; simpl.
  - apply existsb_exists in E. destruct E as [e [Hin He]].
    apply in_map_iff. exists e. rewrite He. auto.
  - apply in_or_app; right; left; reflexivity.
Qed.

Lemma edge_in_add_edge_old u v ty g a b :
  edge_in g a b -> edge_in (add_edge u v ty g) a b.
Proof.
  intros [t Hin]. unfold edge_in, add_edge.
  destruct (existsb _ _); simpl.
  - destruct (is_edge u v (a, b, t)) eqn:E.
    + apply is_edge_true in E; simpl in E; destruct E; subst.
      exists ty. apply in_map_iff. exists (u, v, t).
      split; auto.
      replace (is_edge u v (u, v, t)) with true; auto.
      symmetry; apply is_edge_true; auto.
    + exists t. apply in_map_iff. exists (a, b, t). rewrite E. auto.
  - exists t. apply in_or_app; auto.
Qed.

Lemma same_node_edges_eq `{Config} node_id action g :
  same_node_edges node_id action g
  = add_edges_to node_id SAME_NODE (at_same_node node_id action) (nodes g) g.
Proof.
  unfold same_node_edges, add_edges_to. apply fold_left_ext.
  intros b [node nd]; reflexivity.
Qed.

Lemma same_topic_edges_for_eq `{Config} output_topic cause_node_id g :
  same_topic_edges_for output_topic cause_node_id g
  = add_edges_to cause_node_id SAME_TOPIC (is_rx_on output_topic) (nodes g) g.
Proof.
  unfold same_topic_edges_for, add_edges_to. apply fold_left_ext.
  intros b [node nd]; unfold is_rx_on; simpl.
  destruct (nd_data nd); reflexivity.
Qed.

Lemma nodes_add_edges_to u ty sel l g : nodes (add_edges_to u ty sel l g) = nodes g.
Proof.
  unfold add_edges_to.
  apply (fold_left_inv (fun g' => nodes g' = nodes g)); [reflexivity|].
  intros x c _ Hc. destruct (sel x); [rewrite nodes_add_edge|]; exact Hc.
Qed.

Lemma edge_in_add_edges_to_old u ty sel l g a b :
  edge_in g a b -> edge_in (add_edges_to u ty sel l g) a b.
Proof.
  intros H. unfold add_edges_to.
  apply (fold_left_inv (fun g' => edge_in g' a b)); [exact H|].
  intros x c _ Hc. destruct (sel x); [apply edge_in_add_edge_old|]; exact Hc.
Qed.

Lemma edge_in_add_edges_to_new u ty sel :
  forall l g x, In x l -> sel x = true -> edge_in (add_edges_to u ty sel l g) u (fst x).
Proof.
  induction l as [|y l IH]; simpl; intros g x Hin Hsel; [contradiction|].
  destruct Hin as [->|Hin].
  - rewrite Hsel. apply (edge_in_add_edges_to_old u ty sel l).
    exists ty. apply edge_in_add_edge_new.
  - apply IH; assumption.
Qed.

Lemma in_edges_add_edges_to u ty sel :
  forall l g e,
    In e (edges (add_edges_to u ty sel l g)) ->
    In e (edges g) \/ exists x, In x l /\ sel x = true /\ e = (u, fst x, ty).
Proof.
  induction l as [|y l IH]; simpl; intros g e H; [left; exact H|].
  apply IH in H. destruct H as [H|[x [Hx [Hs He]]]].
  - destruct (sel y) eqn:E.
    + apply in_edges_add_edge in H. destruct H as [H|H]; [left; exact H|].
      right. exists y. auto.
    + left; exact H.
  - right. exists x. auto.
Qed.

Section Proofs.

Context {config : Config}.

(** ** The core invariant under new nodes and new edges *)

Lemma GCore_new_edges g g' n u :
  GCore g n ->
  nodes g' = nodes g ->
  (forall e, In e (edges g') ->
     In e (edges g)
     \/ (fst (fst e) = u /\ snd (fst e) < u /\ In (snd (fst e)) (node_ids g))) ->
  In u (node_ids g) ->
  (forall nd, In (u, nd) (nodes g) -> action_state (nd_data nd) <> RUNNING) ->
  GCore g' n.
Proof.
  intros [Hids Hnd Hed Hrun Hmod] Hn He Hu Hst.
  assert (Hni : node_ids g' = node_ids g) by (unfold node_ids; rewrite Hn; reflexivity).
  constructor.
  - rewrite Hni; exact Hids.
  - rewrite Hni; exact Hnd.
  - intros a b ty Hin. rewrite Hni.
    destruct (He _ Hin) as [Hold|[Ha [Hb Hc]]]; [apply (Hed _ _ _ Hold)|].
    simpl in *; subst a. auto.
  - intros a nd b ty Hin Hr Hin'. rewrite Hn in Hin.
    destruct (He _ Hin') as [Hold|[Ha _]].
    + exact (Hrun _ _ _ _ Hin Hr Hold).
    + simpl in Ha; subst a. exact (Hst _ Hin Hr).
  - rewrite Hn; exact Hmod.
Qed.

Lemma GCore_add_edge g n u v ty :
  GCore g n -> In u (node_ids g) -> In v (node_ids g) -> v < u ->
  (forall nd, In (u, nd) (nodes g) -> action_state (nd_data nd) <> RUNNING) ->
  GCore (add_edge u v ty g) n.
Proof.
  intros HG Hu Hv Hlt Hst.
  apply (GCore_new_edges g _ n u); auto using nodes_add_edge.
  intros e He. apply in_edges_add_edge in He.
  destruct He as [He| ->]; [left; exact He|right; simpl; auto].
Qed.

Lemma GCore_add_edges_to g n u ty sel l :
  GCore g n -> In u (node_ids g) ->
  (forall nd, In (u, nd) (nodes g) -> action_state (nd_data nd) <> RUNNING) ->
  (forall x, In x l -> sel x = true -> fst x < u /\ In (fst x) (node_ids g)) ->
  GCore (add_edges_to u ty sel l g) n.
Proof.
  intros HG Hu Hst Hsel.
  apply (GCore_new_edges g _ n u); auto using nodes_add_edges_to.
  intros e He. apply in_edges_add_edges_to in He.
  destruct He as [He|[x [Hx [Hs ->]]]]; [left; exact He|right; simpl].
  destruct (Hsel x Hx Hs); auto.
Qed.

Lemma node_ids_add_node id nd g : node_ids (add_node id nd g) = node_ids g ++ [id].
Proof. unfold node_ids, add_node; simpl. rewrite map_app; reflexivity. Qed.

Lemma in_nodes_ids g id nd : In (id, nd) (nodes g) -> In id (node_ids g).
Proof. intros H. unfold node_ids. apply in_map_iff. exists (id, nd); auto. Qed.

Lemma GCore_add_node g n action ts m :
  GCore g n ->
  node_model_by_name (action_node action) = Ok m ->
  GCore (add_node n (mkNodeData action ts) g) (S n).
Proof.
  intros [Hids Hnd Hed Hrun Hmod] Hm. constructor.
  - intros id. rewrite node_ids_add_node. intros Hin.
    apply in_app_or in Hin. destruct Hin as [Hin|[<-|[]]]; [|lia].
    specialize (Hids _ Hin); lia.
  - rewrite node_ids_add_node. apply NoDup_app; [exact Hnd|repeat constructor; auto|].
    intros a Ha [<-|[]]. specialize (Hids _ Ha); lia.
  - intros u v ty Hin. rewrite node_ids_add_node.
    destruct (Hed _ _ _ Hin) as [H1 [H2 H3]].
    repeat split; auto; apply in_or_app; auto.
  - intros u nd v ty Hin Hr Hin'. simpl in *.
    apply in_app_or in Hin. destruct Hin as [Hin|[Heq|[]]].
    + exact (Hrun _ _ _ _ Hin Hr Hin').
    + inversion Heq; subst.
      destruct (Hed _ _ _ Hin') as [_ [H2 _]]. specialize (Hids _ H2); lia.
  - intros u nd Hin. simpl in Hin.
    apply in_app_or in Hin. destruct Hin as [Hin|[Heq|[]]]; [eauto|].
    inversion Heq; subst; simpl; eauto.
Qed.

Lemma GCore_next g n n' : GCore g n -> n <= n' -> GCore g n'.
Proof.
  intros [Hids Hnd Hed Hrun Hmod] Hle. constructor; auto.
  intros id Hin. specialize (Hids _ Hin); lia.
Qed.

(** ** Same-node edges *)

Lemma SameNode_mono g g' :
  SameNode g -> nodes g' = nodes g ->
  (forall a b, edge_in g a b -> edge_in g' a b) ->
  SameNode g'.
Proof.
  intros HS Hn He u a v b Hu Hv Hlt Heq. rewrite Hn in Hu, Hv.
  apply He. exact (HS _ _ _ _ Hu Hv Hlt Heq).
Qed.

Lemma SameNode_insert g n action ts :
  GCore g n -> SameNode g ->
  SameNode (same_node_edges n action (add_node n (mkNodeData action ts) g)).
Proof.
  intros HG HS u a v b Hu Hv Hlt Heq.
  rewrite same_node_edges_eq in *.
  rewrite nodes_add_edges_to in Hu, Hv.
  assert (Hold : forall w c, In (w, c) (nodes g) -> w < n).
  { intros w c Hin. apply (gc_ids _ _ HG). exact (in_nodes_ids _ _ _ Hin). }
  simpl in Hu, Hv.
  apply in_app_or in Hu; apply in_app_or in Hv.
  destruct Hv as [Hv|[Hv|[]]].
  - destruct Hu as [Hu|[Hu|[]]].
    + apply edge_in_add_edges_to_old.
      exact (HS _ _ _ _ Hu Hv Hlt Heq).
    + injection Hu as Hu1 Hu2; subst u a. specialize (Hold _ _ Hv); lia.
  - injection Hv as Hv1 Hv2; subst v b.
    destruct Hu as [Hu|[Hu|[]]]; [|injection Hu as Hu1 Hu2; lia].
    apply (edge_in_add_edges_to_new n SAME_NODE _ _ _ (u, a)).
    + simpl. apply in_or_app; left; exact Hu.
    + unfold at_same_node; simpl. simpl in Heq. rewrite Heq, String.eqb_refl.
      simpl. apply negb_true_iff, Nat.eqb_neq. lia.
Qed.

(** ** Insertion *)

Lemma node_model_by_name_spec N m :
  node_model_by_name N = Ok m -> In m node_models /\ get_name m = N.
Proof.
  unfold node_model_by_name.
  destruct (find _ node_models) as [m'|] eqn:E; [|discriminate].
  intros H; inversion H; subst.
  apply find_some in E. destruct E as [H1 H2].
  apply String.eqb_eq in H2. auto.
Qed.

Lemma self_publishing_never_ok :
  forall fuel N T st ts c d parent s s',
    self_publishing N T ->
    add_action_and_effects fuel (RxAction st N ts c T d) parent s <> Ok s'.
Proof.
  induction fuel as [|fuel IH]; intros N T st ts c d parent s s' Hself; simpl;
    [discriminate|].
  pose proof Hself as [m [Hm Hin]].
  unfold add_all_effects_for_cause. rewrite Hm. simpl.
  destruct (existsb (Cause_eqb (TopicInput T)) (get_possible_inputs m)) eqn:E;
    simpl; [|discriminate].
  apply (foldM_fails _ (TopicPublish T)); [exact Hin|].
  intros t t'.
  destruct (node_model_by_name_spec _ _ Hm) as [Hmem Hname].
  apply (foldM_fails _ m); [exact Hmem|].
  intros u u'. rewrite E, Hname. apply IH. exact Hself.
Qed.

Lemma grows_refl s : grows s s.
Proof. split; auto. Qed.

Lemma grows_trans s t u : grows s t -> grows t u -> grows s u.
Proof. intros [H1 H2] [H3 H4]. split; [lia|auto]. Qed.

Lemma same_topic_edges_inv effects n g k :
  GCore g k -> SameNode g -> In n (node_ids g) ->
  (forall nd, In (n, nd) (nodes g) -> action_state (nd_data nd) <> RUNNING) ->
  (forall T x, In (TopicPublish T) effects -> In x (nodes g) ->
               is_rx_on T x = true -> fst x < n) ->
  GCore (same_topic_edges effects n g) k
  /\ SameNode (same_topic_edges effects n g)
  /\ nodes (same_topic_edges effects n g) = nodes g.
Proof.
  intros HG HS Hn Hst Hno. unfold same_topic_edges.
  apply (fold_left_inv (fun g' => GCore g' k /\ SameNode g' /\ nodes g' = nodes g));
    [auto|].
  intros e c He [HGc [HSc Hnc]].
  destruct e as [T| |sv]; auto.
  rewrite same_topic_edges_for_eq.
  assert (Hids : node_ids c = node_ids g) by (unfold node_ids; rewrite Hnc; reflexivity).
  split; [|split].
  - apply GCore_add_edges_to; auto.
    + rewrite Hids; exact Hn.
    + rewrite Hnc; exact Hst.
    + intros x Hx Hsel. rewrite Hnc in Hx. split; [eapply Hno; eauto|].
      rewrite Hids. destruct x as [i nd]. exact (in_nodes_ids _ _ _ Hx).
  - apply (SameNode_mono c); auto using nodes_add_edges_to.
    intros a b. apply edge_in_add_edges_to_old.
  - rewrite nodes_add_edges_to. exact Hnc.
Qed.

Lemma add_all_effects_for_cause_inv rec node_name cause n time s s' :
  rec_ok rec ->
  GInv s -> In n (node_ids (graph s)) ->
  (forall nd, In (n, nd) (nodes (graph s)) -> action_state (nd_data nd) <> RUNNING) ->
  (forall m T x, node_model_by_name node_name = Ok m ->
                 In (TopicPublish T) (effects_for_input m cause) ->
                 In x (nodes (graph s)) -> is_rx_on T x = true -> fst x < n) ->
  add_all_effects_for_cause rec node_name cause n time s = Ok s' ->
  GInv s' /\ grows s s'.
Proof.
  intros Hrec [HG HS] Hn Hst Hno.
  unfold add_all_effects_for_cause.
  destruct (node_model_by_name node_name) as [m|e] eqn:Hm; simpl; [|discriminate].
  destruct (negb _); [discriminate|].
  destruct (same_topic_edges_inv (effects_for_input m cause) n (graph s) (next_id s)
              HG HS Hn Hst (fun T x => Hno m T x eq_refl)) as [HG3 [HS3 Hn3]].
  set (s1 := set_graph _ s).
  assert (Hids : node_ids (graph s1) = node_ids (graph s))
    by (unfold node_ids; simpl; rewrite Hn3; reflexivity).
  intros H.
  assert (GInv s' /\ grows s1 s' /\ In n (node_ids (graph s'))) as [HI [Hg _]].
  { revert H.
    apply (foldM_inv (fun t => GInv t /\ grows s1 t /\ In n (node_ids (graph t)))).
    - split; [split; assumption|]. split; [apply grows_refl|]. rewrite Hids; exact Hn.
    - intros e t t' _ Ht. destruct e as [T| |sv]; try (intros E; inversion E; subst; exact Ht).
      apply (foldM_inv (fun t => GInv t /\ grows s1 t /\ In n (node_ids (graph t)))); [exact Ht|].
      clear t t' Ht. intros nm t t' _ [HIt [Hgt Hnt]].
      destruct (existsb _ _); [|intros E; inversion E; subst; auto].
      intros E. apply Hrec in E; [|exact HIt| |simpl; discriminate].
      + destruct E as [HIt' Hgt']. split; [exact HIt'|].
        split; [eapply grows_trans; eauto|]. apply Hgt'. exact Hnt.
      + intros p Hp; inversion Hp; subst; exact Hnt. }
  split; [exact HI|].
  destruct Hg as [Hg1 Hg2]. split; [exact Hg1|].
  intros id Hid. apply Hg2. rewrite Hids. exact Hid.
Qed.

Lemma add_action_and_effects_inv : forall fuel, rec_ok (add_action_and_effects fuel).
Proof.
  induction fuel as [|fuel IH]; intros action parent s s' [HG HS] Hpar Hst H;
    [discriminate|].
  pose proof H as Hcall. simpl in H.
  set (n := next_id s) in *.
  set (nd := mkNodeData action None) in *.
  set (g0 := add_node n nd (graph s)) in *.
  set (g1 := same_node_edges n action g0) in *.
  set (g2 := match parent with Some p => add_edge n p CAUSALITY g1 | None => g1 end) in *.
  set (cause := match action with
                | RxAction _ _ _ _ topic _ => TopicInput topic
                | TimerCallbackAction _ _ _ _ period => TimerInput period
                end) in *.
  destruct (node_model_by_name (action_node action)) as [m|e] eqn:Hm;
    [|unfold add_all_effects_for_cause in H; rewrite Hm in H; discriminate].
  assert (HG0 : GCore g0 (S n)) by (apply (GCore_add_node _ _ _ _ m); assumption).
  assert (Hn0 : In n (node_ids g0))
    by (unfold g0; rewrite node_ids_add_node; apply in_or_app; right; left; reflexivity).
  assert (Hnew : forall x, In (n, x) (nodes g0) -> x = nd).
  { intros x Hx. simpl in Hx. apply in_app_or in Hx.
    destruct Hx as [Hx|[Hx|[]]]; [|inversion Hx; reflexivity].
    apply in_nodes_ids in Hx. apply (gc_ids _ _ HG) in Hx. unfold n in Hx. lia. }
  assert (Hst0 : forall x, In (n, x) (nodes g0) -> action_state (nd_data x) <> RUNNING).
  { intros x Hx. rewrite (Hnew _ Hx). exact Hst. }
  assert (Hlt0 : forall x, In x (nodes g0) -> fst x <> n -> fst x < n).
  { intros [i x] Hx Hne. apply in_nodes_ids in Hx.
    apply (gc_ids _ _ HG0) in Hx. simpl in *. lia. }
  assert (Hn1 : nodes g1 = nodes g0)
    by (unfold g1; rewrite same_node_edges_eq; apply nodes_add_edges_to).
  assert (HG1 : GCore g1 (S n)).
  { unfold g1. rewrite same_node_edges_eq. apply GCore_add_edges_to; auto.
    intros x Hx Hsel. unfold at_same_node in Hsel.
    apply andb_true_iff in Hsel. destruct Hsel as [_ Hne].
    apply negb_true_iff, Nat.eqb_neq in Hne. split; [auto|].
    destruct x as [i x]. exact (in_nodes_ids _ _ _ Hx). }
  assert (HS1 : SameNode g1) by (apply SameNode_insert; assumption).
  assert (Hn2 : nodes g2 = nodes g0).
  { unfold g2. destruct parent; [rewrite nodes_add_edge|]; exact Hn1. }
  assert (Hids1 : node_ids g1 = node_ids g0) by (unfold node_ids; rewrite Hn1; reflexivity).
  assert (HG2 : GCore g2 (S n)).
  { unfold g2. destruct parent as [p|]; [|exact HG1].
    specialize (Hpar p eq_refl).
    apply GCore_add_edge; auto.
    - rewrite Hids1; exact Hn0.
    - rewrite Hids1. unfold g0. rewrite node_ids_add_node. apply in_or_app; auto.
    - apply (gc_ids _ _ HG). exact Hpar.
    - rewrite Hn1; exact Hst0. }
  assert (HS2 : SameNode g2).
  { unfold g2. destruct parent as [p|]; [|exact HS1].
    apply (SameNode_mono g1); auto using nodes_add_edge.
    intros a b. apply edge_in_add_edge_old. }
  apply add_all_effects_for_cause_inv in H; auto.
  - destruct H as [HI [Hg1 Hg2]]. split; [exact HI|]. split.
    + simpl in Hg1. fold n. lia.
    + intros id Hid. apply Hg2. simpl.
      unfold node_ids. rewrite Hn2. fold (node_ids g0).
      unfold g0. rewrite node_ids_add_node. apply in_or_app; auto.
  - split; assumption.
  - simpl. unfold node_ids. rewrite Hn2. exact Hn0.
  - simpl. rewrite Hn2. exact Hst0.
  - intros m' T x Hm' HT Hx Hrx. simpl in Hx. rewrite Hn2 in Hx.
    apply Hlt0; [exact Hx|]. intros Heq.
    destruct x as [i x]. simpl in Heq. subst i.
    rewrite (Hnew _ Hx) in Hrx. unfold is_rx_on, nd in Hrx. simpl in Hrx.
    destruct action as [st N ts c tp d|]; [|discriminate].
    apply String.eqb_eq in Hrx. subst tp.
    apply (self_publishing_never_ok (S fuel) N T st ts c d parent s s'); [|exact Hcall].
    exists m'. split; [exact Hm'|exact HT].
Qed.

(** ** Changes of state and removal *)

Lemma Forall2_in_r {A B : Type} (R : A -> B -> Prop) :
  forall l l', Forall2 R l l' -> forall y, In y l' -> exists x, In x l /\ R x y.
Proof.
  induction 1 as [|x y l l' HR _ IH]; simpl; intros z Hz; [contradiction|].
  destruct Hz as [<-|Hz]; [exists x; auto|].
  destruct (IH _ Hz) as [w [Hw HRw]]. exists w; auto.
Qed.

Lemma Forall2_map_fst {A B : Type} (R : nat * A -> nat * B -> Prop) :
  (forall x y, R x y -> fst x = fst y) ->
  forall l l', Forall2 R l l' -> map fst l' = map fst l.
Proof.
  intros HR. induction 1 as [|x y l l' Hxy _ IH]; simpl; [reflexivity|].
  rewrite IH, (HR _ _ Hxy). reflexivity.
Qed.

Lemma out_degree_zero g u v ty : out_degree g u = 0 -> ~ In (u, v, ty) (edges g).
Proof.
  unfold out_degree. intros H Hin.
  apply length_zero_iff_nil in H.
  assert (Hf : In (u, v, ty) (filter (fun e => Nat.eqb (fst (fst e)) u) (edges g))).
  { apply filter_In. split; [exact Hin|]. simpl. apply Nat.eqb_refl. }
  rewrite H in Hf. exact Hf.
Qed.

Lemma GInv_update_nodes g n l' :
  GCore g n -> SameNode g -> Forall2 (node_update g) (nodes g) l' ->
  GCore (mkDiGraph l' (edges g)) n /\ SameNode (mkDiGraph l' (edges g)).
Proof.
  intros [Hids Hnd Hed Hrun Hmod] HS HF.
  assert (Hmap : map fst l' = node_ids g).
  { apply (Forall2_map_fst (node_update g)); [|exact HF]. intros x y [H _]; exact H. }
  assert (Hback : forall u nd', In (u, nd') l' ->
            exists nd, In (u, nd) (nodes g) /\ node_update g (u, nd) (u, nd')).
  { intros u nd' Hin. destruct (Forall2_in_r _ _ _ HF _ Hin) as [[w nd] [Hw HR]].
    pose proof HR as [Hfst _]. simpl in Hfst. subst w. exists nd; auto. }
  split.
  - constructor; simpl.
    + unfold node_ids; simpl. rewrite Hmap. exact Hids.
    + unfold node_ids; simpl. rewrite Hmap. exact Hnd.
    + unfold edges_to_older, node_ids; simpl. rewrite Hmap. exact Hed.
    + intros u nd' v ty Hin Hr Hin'.
      destruct (Hback _ _ Hin) as [nd [Hnd' [_ [_ Hst]]]]. simpl in Hst.
      destruct (Hst Hr) as [Hold|Hz].
      * exact (Hrun _ _ _ _ Hnd' Hold Hin').
      * exact (out_degree_zero _ _ _ _ Hz Hin').
    + intros u nd' Hin.
      destruct (Hback _ _ Hin) as [nd [Hnd' [_ [Hname _]]]]. simpl in Hname.
      rewrite <- Hname. eauto.
  - intros u a v b Hu Hv Hlt Heq. simpl in Hu, Hv.
    destruct (Hback _ _ Hu) as [a0 [Ha0 [_ [Hna _]]]].
    destruct (Hback _ _ Hv) as [b0 [Hb0 [_ [Hnb _]]]].
    simpl in Hna, Hnb.
    destruct (HS u a0 v b0 Ha0 Hb0 Hlt) as [ty Hty]; [congruence|].
    exists ty. exact Hty.
Qed.

Lemma GInv_remove_node g n id :
  GCore g n -> SameNode g ->
  GCore (remove_node id g) n /\ SameNode (remove_node id g).
Proof.
  intros [Hids Hnd Hed Hrun Hmod] HS.
  assert (Hsub : forall x, In x (nodes (remove_node id g)) -> In x (nodes g) /\ fst x <> id).
  { intros x Hx. simpl in Hx. apply filter_In in Hx. destruct Hx as [Hx Hne].
    apply negb_true_iff, Nat.eqb_neq in Hne. auto. }
  assert (Hkeep : forall i, In i (node_ids g) -> i <> id -> In i (node_ids (remove_node id g))).
  { intros i Hi Hne. unfold node_ids in *. apply in_map_iff in Hi.
    destruct Hi as [x [Hx Hin]]. apply in_map_iff. exists x. split; [exact Hx|].
    simpl. apply filter_In. split; [exact Hin|].
    apply negb_true_iff, Nat.eqb_neq. congruence. }
  assert (Hesub : forall u v ty, In (u, v, ty) (edges (remove_node id g)) ->
            In (u, v, ty) (edges g) /\ u <> id /\ v <> id).
  { intros u v ty He. simpl in He. apply filter_In in He. destruct He as [He Hne].
    simpl in Hne. apply andb_true_iff in Hne. destruct Hne as [H1 H2].
    apply negb_true_iff, Nat.eqb_neq in H1, H2. auto. }
  split.
  - constructor.
    + intros i Hi. apply Hids. unfold node_ids in *. apply in_map_iff in Hi.
      destruct Hi as [x [Hx Hin]]. apply in_map_iff. exists x.
      split; [exact Hx|]. apply Hsub; exact Hin.
    + unfold node_ids, remove_node; simpl.
      clear -Hnd. unfold node_ids in Hnd.
      induction (nodes g) as [|x l IH]; simpl; [constructor|].
      inversion Hnd as [|? ? Hx Hl]; subst.
      destruct (negb (Nat.eqb (fst x) id)); simpl; [|auto].
      constructor; [|auto].
      intros Hin. apply Hx. apply in_map_iff in Hin.
      destruct Hin as [y [Hy Hin]]. apply filter_In in Hin.
      apply in_map_iff. exists y. tauto.
    + intros u v ty He. destruct (Hesub _ _ _ He) as [He' [Hu Hv]].
      destruct (Hed _ _ _ He') as [H1 [H2 H3]]. auto.
    + intros u nd v ty Hin Hr He.
      destruct (Hsub _ Hin) as [Hin' _]. destruct (Hesub _ _ _ He) as [He' _].
      exact (Hrun _ _ _ _ Hin' Hr He').
    + intros u nd Hin. destruct (Hsub _ Hin) as [Hin' _]. eauto.
  - intros u a v b Hu Hv Hlt Heq.
    destruct (Hsub _ Hu) as [Hu' Hune]. destruct (Hsub _ Hv) as [Hv' Hvne].
    destruct (HS _ _ _ _ Hu' Hv' Hlt Heq) as [ty Hty].
    exists ty. simpl. apply filter_In. split; [exact Hty|]. simpl in *.
    apply andb_true_iff; split; apply negb_true_iff, Nat.eqb_neq; assumption.
Qed.

(** ** The scheduling loop *)

Lemma eligible_false_deg g id nd :
  Nat.ltb 0 (out_degree g id) = true -> eligible g (id, nd) = false.
Proof.
  intros H. apply Nat.ltb_lt in H. unfold eligible; simpl.
  destruct (Nat.eqb_spec (out_degree g id) 0); [lia|reflexivity].
Qed.

Lemma eligible_false_state g id nd :
  negb (ActionState_eqb (action_state (nd_data nd)) READY) = true ->
  eligible g (id, nd) = false.
Proof.
  intros H. apply negb_true_iff in H. unfold eligible; simpl.
  rewrite H. apply andb_false_r.
Qed.

Lemma eligible_true g id nd :
  Nat.ltb 0 (out_degree g id) = false ->
  negb (ActionState_eqb (action_state (nd_data nd)) READY) = false ->
  eligible g (id, nd) = true.
Proof.
  intros H1 H2. apply Nat.ltb_ge in H1. apply negb_false_iff in H2.
  unfold eligible; simpl. rewrite H2.
  destruct (Nat.eqb_spec (out_degree g id) 0); [reflexivity|lia].
Qed.

Lemma process_pass_ok g :
  forall l pubs rep l2 p2 b2,
    process_pass g l pubs rep = Ok (l2, p2, b2) ->
    l2 = map (run_eligible g) l
    /\ p2 = pubs ++ publications_of g l
    /\ b2 = rep || existsb (eligible g) l.
Proof.
  induction l as [|[id nd] l IH]; intros pubs rep l2 p2 b2; simpl.
  - intros H; inversion H; subst. rewrite app_nil_r, orb_false_r. auto.
  - destruct (Nat.ltb 0 (out_degree g id)) eqn:Hd;
      [|destruct (negb (ActionState_eqb (action_state (nd_data nd)) READY)) eqn:Hs].
    + destruct (process_pass g l pubs rep) as [[[l3 p3] b3]|] eqn:E; simpl; [|discriminate].
      intros H; inversion H; subst.
      destruct (IH _ _ _ _ _ E) as (-> & -> & ->).
      unfold run_eligible. rewrite (eligible_false_deg _ _ _ Hd). auto.
    + destruct (process_pass g l pubs rep) as [[[l3 p3] b3]|] eqn:E; simpl; [|discriminate].
      intros H; inversion H; subst.
      destruct (IH _ _ _ _ _ E) as (-> & -> & ->).
      unfold run_eligible. rewrite (eligible_false_state _ _ _ Hs). auto.
    + pose proof (eligible_true _ _ _ Hd Hs) as He.
      destruct (nd_data nd) as [st n ts c tp d|] eqn:Hdata; [|discriminate].
      match goal with
      | |- context [if ?b then bind _ _ else _] => destruct b
      end;
        [|match goal with
          | |- (if ?b then _ else _) = _ -> _ => destruct b; discriminate
          end].
      destruct (process_pass g l (pubs ++ [(n, tp, d)]) true) as [[[l3 p3] b3]|] eqn:E;
        simpl; [|discriminate].
      intros H; inversion H; subst.
      destruct (IH _ _ _ _ _ E) as (-> & -> & ->).
      unfold run_eligible. rewrite He. simpl. rewrite Hdata. simpl.
      rewrite <- app_assoc, orb_true_r. auto.
Qed.

Lemma process_pass_total g :
  forall l pubs rep,
    (forall x, In x l -> eligible g x = true -> publishable x = true) ->
    process_pass g l pubs rep
    = Ok (map (run_eligible g) l, pubs ++ publications_of g l,
          rep || existsb (eligible g) l).
Proof.
  induction l as [|[id nd] l IH]; intros pubs rep Hp; simpl.
  - rewrite app_nil_r, orb_false_r. reflexivity.
  - assert (Hl : forall x, In x l -> eligible g x = true -> publishable x = true)
      by (intros x Hx; apply Hp; right; exact Hx).
    destruct (Nat.ltb 0 (out_degree g id)) eqn:Hd;
      [|destruct (negb (ActionState_eqb (action_state (nd_data nd)) READY)) eqn:Hs].
    + rewrite (IH _ _ Hl). simpl.
      unfold run_eligible. rewrite (eligible_false_deg _ _ _ Hd). reflexivity.
    + rewrite (IH _ _ Hl). simpl.
      unfold run_eligible. rewrite (eligible_false_state _ _ _ Hs). reflexivity.
    + pose proof (eligible_true _ _ _ Hd Hs) as He.
      specialize (Hp (id, nd) (or_introl eq_refl) He).
      unfold publishable in Hp. simpl in Hp.
      destruct (nd_data nd) as [st n ts c tp d|] eqn:Hdata; [|discriminate].
      rewrite Hp. rewrite (IH _ _ Hl). simpl.
      unfold run_eligible. rewrite He. simpl. rewrite Hdata. simpl.
      rewrite <- app_assoc, orb_true_r. reflexivity.
Qed.

Lemma eligible_edges g l x : eligible (mkDiGraph l (edges g)) x = eligible g x.
Proof. reflexivity. Qed.

Lemma run_eligible_not_eligible g x : eligible g (run_eligible g x) = false.
Proof.
  unfold run_eligible. destruct (eligible g x) eqn:E; [|exact E].
  unfold eligible; simpl.
  destruct (nd_data (snd x)); simpl; apply andb_false_r.
Qed.

Lemma process_pass_idle g :
  forall l pubs rep,
    (forall x, In x l -> eligible g x = false) ->
    process_pass g l pubs rep = Ok (l, pubs, rep).
Proof.
  intros l pubs rep H.
  rewrite process_pass_total.
  - assert (Hm : map (run_eligible g) l = l).
    { clear -H. induction l as [|x l IH]; simpl; [reflexivity|].
      rewrite IH by (intros y Hy; apply H; right; exact Hy).
      unfold run_eligible. rewrite (H x (or_introl eq_refl)). reflexivity. }
    assert (Hp : publications_of g l = []).
    { clear -H. induction l as [|x l IH]; simpl; [reflexivity|].
      rewrite IH by (intros y Hy; apply H; right; exact Hy).
      rewrite (H x (or_introl eq_refl)). reflexivity. }
    assert (He : existsb (eligible g) l = false).
    { clear -H. induction l as [|x l IH]; simpl; [reflexivity|].
      rewrite IH by (intros y Hy; apply H; right; exact Hy).
      rewrite (H x (or_introl eq_refl)). reflexivity. }
    rewrite Hm, Hp, He, app_nil_r, orb_false_r. reflexivity.
  - intros x Hx He. rewrite (H x Hx) in He. discriminate.
Qed.

(** The [while] loop ends after the round that follows the last change, so
    two rounds are all it takes; the bound is never reached. *)
Lemma process_loop_ok k s l2 p2 b2 :
  process_pass (graph s) (nodes (graph s)) (published s) false = Ok (l2, p2, b2) ->
  process_loop (S (S k)) s = Ok (set_published p2 (set_nodes l2 s)).
Proof.
  intros H. pose proof (process_pass_ok _ _ _ _ _ _ _ H) as (Hl & Hp & Hb).
  cbn [process_loop]. rewrite H. cbn [bind].
  destruct b2; [|reflexivity].
  set (s' := set_published p2 (set_nodes l2 s)).
  assert (Hidle : process_pass (graph s') (nodes (graph s')) (published s') false
                  = Ok (l2, p2, false)).
  { apply process_pass_idle. intros x Hx. simpl in Hx. subst l2.
    apply in_map_iff in Hx. destruct Hx as [y [<- _]].
    unfold s'; simpl. rewrite eligible_edges. apply run_eligible_not_eligible. }
  rewrite Hidle. cbn [bind]. unfold s'. destruct s as [ni st g nid pb nf fd]; reflexivity.
Qed.

Lemma process_loop_err k s e :
  process_pass (graph s) (nodes (graph s)) (published s) false = Err e ->
  process_loop (S k) s = Err e.
Proof. intros H. cbn [process_loop]. rewrite H. reflexivity. Qed.

Lemma process_loop_never_bound k s : process_loop (S (S k)) s <> Err LoopBound.
Proof.
  destruct (process_pass (graph s) (nodes (graph s)) (published s) false)
    as [[[l2 p2] b2]|e] eqn:E.
  - rewrite (process_loop_ok k s _ _ _ E). discriminate.
  - rewrite (process_loop_err _ s e E). intros H; inversion H; subst.
    clear H. revert E. generalize (published s), false.
    induction (nodes (graph s)) as [|[id nd] l IH]; intros pubs rep; simpl; [discriminate|].
    destruct (Nat.ltb 0 _).
    { destruct (process_pass _ l pubs rep) as [[[? ?] ?]|e] eqn:E; simpl; [discriminate|].
      intros H; inversion H; subst. exact (IH _ _ E). }
    destruct (negb _).
    { destruct (process_pass _ l pubs rep) as [[[? ?] ?]|e] eqn:E; simpl; [discriminate|].
      intros H; inversion H; subst. exact (IH _ _ E). }
    destruct (nd_data nd); [|discriminate].
    match goal with
    | |- context [if ?b then bind _ _ else _] => destruct b
    end;
        [|match goal with
          | |- (if ?b then _ else _) = _ -> _ => destruct b; discriminate
          end].
    destruct (process_pass _ l _ true) as [[[? ?] ?]|e] eqn:E; simpl; [discriminate|].
    intros H; inversion H; subst. exact (IH _ _ E).
Qed.

(** ** The invariant along a run *)

Lemma GInv_same s s' :
  graph s' = graph s -> next_id s' = next_id s -> GInv s -> GInv s'.
Proof. unfold GInv. intros -> ->. auto. Qed.

Lemma collect_timers_nil : collect_timers = [].
Proof.
  unfold collect_timers.
  apply (fold_left_inv (fun timers => timers = [])); [reflexivity|].
  intros nm c _ Hc.
  apply (fold_left_inv (fun timers => timers = [])); [exact Hc|].
  intros input c' _ Hc'. destruct input; exact Hc'.
Qed.

Lemma add_pending_timers_until_eq t s :
  add_pending_timers_until t s
  = match simulator_time s with
    | None => Err (RuntimeError
                     "simulator_time has to be initialized before adding timer events")
    | Some _ => Ok s
    end.
Proof.
  unfold add_pending_timers_until. rewrite collect_timers_nil.
  destruct (simulator_time s); reflexivity.
Qed.

Lemma insert_all_inv (actions : list Action) s s' :
  GInv s ->
  (forall a, In a actions -> action_state a <> RUNNING) ->
  foldM (fun action t => add_action_and_effects recursion_limit action None t) actions s
  = Ok s' ->
  GInv s'.
Proof.
  intros HI Hst. apply (foldM_inv GInv); [exact HI|].
  intros a t t' Ha Ht E.
  apply (add_action_and_effects_inv recursion_limit) in E; auto.
  - tauto.
  - discriminate.
Qed.

Lemma add_topic_input_inv t topic s s' :
  GInv s -> add_topic_input t topic s = Ok s' -> GInv s'.
Proof.
  intros HI. unfold add_topic_input. apply insert_all_inv; [exact HI|].
  intros a Ha. apply in_map_iff in Ha. destruct Ha as [nm [<- _]]. discriminate.
Qed.

Lemma request_next_input_inv s s' :
  GInv s -> request_next_input s = Ok s' -> GInv s'.
Proof.
  intros HI. unfold request_next_input.
  destruct (next_input s) as [[topic f|time f]|]; [| |discriminate].
  - simpl. destruct (simulator_time s) as [now|]; [|discriminate].
    destruct (add_topic_input now topic (set_next_input None s)) as [s2|] eqn:E;
      simpl; [|discriminate].
    intros H; inversion H; subst.
    apply add_topic_input_inv in E; [|exact HI].
    exact E.
  - rewrite add_pending_timers_until_eq. simpl.
    destruct (simulator_time s); simpl; [|discriminate].
    intros H; inversion H; subst. exact HI.
Qed.

Lemma run_eligible_update g l : Forall2 (node_update g) l (map (run_eligible g) l).
Proof.
  induction l as [|x l IH]; simpl; constructor; [|exact IH].
  unfold node_update, run_eligible.
  destruct (eligible g x) eqn:E; simpl.
  - split; [reflexivity|]. split; [destruct (nd_data (snd x)); reflexivity|].
    intros _. right. unfold eligible in E. apply andb_true_iff in E.
    destruct E as [E _]. apply Nat.eqb_eq in E. exact E.
  - auto.
Qed.

Lemma process_loop_inv :
  forall rounds s s', GInv s -> process_loop rounds s = Ok s' -> GInv s'.
Proof.
  induction rounds as [|k IH]; intros s s' HI; simpl; [discriminate|].
  destruct (process_pass (graph s) (nodes (graph s)) (published s) false)
    as [[[l2 p2] b2]|e] eqn:E; simpl; [|discriminate].
  apply process_pass_ok in E. destruct E as (-> & _ & _).
  assert (HI' : GInv (set_published p2 (set_nodes (map (run_eligible (graph s))
                                                     (nodes (graph s))) s))).
  { destruct HI as [HG HS]. unfold GInv; simpl.
    apply GInv_update_nodes; auto. apply run_eligible_update. }
  destruct b2; [apply IH; exact HI'|].
  intros H; inversion H; subst. exact HI'.
Qed.

Lemma process_inv s s' : GInv s -> process s = Ok s' -> GInv s'.
Proof.
  intros HI. unfold process.
  destruct (process_loop _ s) as [s1|] eqn:E; simpl; [|discriminate].
  apply process_loop_inv in E; [|exact HI].
  destruct (next_input s1) as [ni|]; [|intros H; inversion H; subst; exact E].
  destruct (ready_for_next_input s1) as [[|]|]; simpl; try discriminate.
  - apply request_next_input_inv; exact E.
  - intros H; inversion H; subst; exact E.
Qed.

Lemma mapM_Forall2 {A B : Type} (R : A -> B -> Prop) (f : A -> Res B) :
  (forall x y, f x = Ok y -> R x y) ->
  forall l l', mapM f l = Ok l' -> Forall2 R l l'.
Proof.
  intros Hf. induction l as [|x l IH]; simpl; intros l' H.
  - inversion H; constructor.
  - destruct (f x) as [y|] eqn:E; simpl in H; [|discriminate].
    destruct (mapM f l) as [ys|] eqn:E'; simpl in H; [|discriminate].
    inversion H; subst. constructor; auto.
Qed.

Lemma buffer_at_update g topic msg cid it x y :
  buffer_at g topic msg cid it x = Ok y ->
  x = y \/ exists n ts c tp,
      nd_data (snd x) = RxAction WAITING n ts c tp None /\
      tp = topic /\
      y = (fst x, mkNodeData (RxAction READY n ts c tp (Some msg)) (nd_timestep (snd x))).
Proof.
  destruct x as [id nd]. unfold buffer_at.
  destruct (nd_data nd) as [st n ts c tp d|] eqn:Hd;
    [|intros H; inversion H; auto].
  destruct (String.eqb tp topic) eqn:Htp; simpl; [|intros H; inversion H; auto].
  destruct st; simpl; try (intros H; inversion H; auto; fail).
  match goal with
  | |- bind ?m _ = _ -> _ => destruct m as [[|]|]; simpl; try discriminate
  end; [intros H; inversion H; auto|].
  destruct d; [discriminate|].
  intros H; inversion H; subst. right.
  apply String.eqb_eq in Htp.
  exists n, ts, c, tp. simpl. auto.
Qed.

Lemma buffer_at_node_update g topic msg cid it x y :
  buffer_at g topic msg cid it x = Ok y -> node_update g x y.
Proof.
  intros H. apply buffer_at_update in H.
  destruct H as [<-|(n & ts & c & tp & Hx & _ & ->)].
  - unfold node_update; auto.
  - unfold node_update; simpl. rewrite Hx. simpl.
    split; [reflexivity|]. split; [reflexivity|discriminate].
Qed.

Lemma interception_subscription_callback_inv topic msg s s' :
  GInv s -> interception_subscription_callback topic msg s = Ok s' -> GInv s'.
Proof.
  intros HI. unfold interception_subscription_callback.
  destruct (String.eqb topic "clock"); [intros H; inversion H; subst; exact HI|].
  match goal with
  | |- bind ?m _ = _ -> _ => destruct m as [[cid it]|]; simpl; [|discriminate]
  end.
  destruct (mapM _ (nodes (graph s))) as [l|] eqn:E; simpl; [|discriminate].
  apply (mapM_Forall2 (node_update (graph s))) in E;
    [|intros x y; apply buffer_at_node_update].
  destruct HI as [HG HS].
  destruct (GInv_update_nodes _ _ _ HG HS E) as [HG1 HS1].
  apply process_inv.
  destruct cid as [id|]; unfold GInv; simpl.
  - apply GInv_remove_node; assumption.
  - split; assumption.
Qed.

Lemma status_callback_inv node_name s s' :
  GInv s -> status_callback node_name s = Ok s' -> GInv s'.
Proof.
  intros [HG HS]. unfold status_callback.
  destruct (find_running_action_status _ _) as [id|]; simpl; [|discriminate].
  apply process_inv. unfold GInv; simpl. apply GInv_remove_node; assumption.
Qed.

Lemma wait_until_publish_allowed_inv topic s f s' :
  GInv s -> wait_until_publish_allowed topic s = Ok (f, s') -> GInv s'.
Proof.
  intros HI. unfold wait_until_publish_allowed.
  destruct (next_input s); [discriminate|].
  destruct (simulator_time s); [|discriminate].
  simpl. destruct (negb _).
  - destruct (request_next_input _) as [s2|] eqn:E; simpl; [|discriminate].
    intros H; inversion H; subst.
    apply request_next_input_inv in E; [exact E|exact HI].
  - intros H; inversion H; subst. exact HI.
Qed.

Lemma wait_until_time_publish_allowed_inv t s f s' :
  GInv s -> wait_until_time_publish_allowed t s = Ok (f, s') -> GInv s'.
Proof.
  intros HI. unfold wait_until_time_publish_allowed.
  destruct (next_input s); [discriminate|].
  simpl. destruct (negb _).
  - destruct (request_next_input _) as [s2|] eqn:E; simpl; [|discriminate].
    intros H; inversion H; subst.
    apply request_next_input_inv in E; [exact E|exact HI].
  - intros H; inversion H; subst. exact HI.
Qed.

(** The invariant is kept by every call that returns, from any state that
    satisfies it, whatever the states of its actions. *)
Lemma step_inv ev s s' : GInv s -> step ev s = Ok s' -> GInv s'.
Proof.
  intros HI. destruct ev as [topic|t|topic msg|node_name]; simpl.
  - destruct (wait_until_publish_allowed topic s) as [[f s2]|] eqn:E; simpl; [|discriminate].
    intros H; inversion H; subst. exact (wait_until_publish_allowed_inv _ _ _ _ HI E).
  - destruct (wait_until_time_publish_allowed t s) as [[f s2]|] eqn:E; simpl; [|discriminate].
    intros H; inversion H; subst. exact (wait_until_time_publish_allowed_inv _ _ _ _ HI E).
  - apply interception_subscription_callback_inv; exact HI.
  - apply status_callback_inv; exact HI.
Qed.

Lemma GInv_init : GInv init.
Proof.
  split.
  - constructor; unfold edges_to_older; simpl; try (intros; contradiction).
    apply NoDup_nil.
  - unfold SameNode; simpl; intros; contradiction.
Qed.

Lemma reachable_inv s : reachable s -> GInv s.
Proof.
  induction 1 as [|t0|ev s s' _ IH E].
  - exact GInv_init.
  - exact GInv_init.
  - exact (step_inv _ _ _ IH E).
Qed.

(** ** Nothing leaves the state WAITING *)

Lemma nodes_same_node_edges n action g : nodes (same_node_edges n action g) = nodes g.
Proof. rewrite same_node_edges_eq. apply nodes_add_edges_to. Qed.

Lemma nodes_same_topic_edges effects n g : nodes (same_topic_edges effects n g) = nodes g.
Proof.
  unfold same_topic_edges.
  apply (fold_left_inv (fun g' => nodes g' = nodes g)); [reflexivity|].
  intros e c _ Hc. destruct e; auto.
  rewrite same_topic_edges_for_eq, nodes_add_edges_to. exact Hc.
Qed.

Lemma add_action_and_effects_waiting :
  forall fuel n ts c tp parent s s',
    all_waiting (graph s) ->
    add_action_and_effects fuel (RxAction WAITING n ts c tp None) parent s = Ok s' ->
    all_waiting (graph s').
Proof.
  induction fuel as [|fuel IH]; intros n ts c tp parent s s' HW; simpl; [discriminate|].
  unfold add_all_effects_for_cause.
  destruct (node_model_by_name n) as [m|]; simpl; [|discriminate].
  destruct (negb _); [discriminate|].
  apply (foldM_inv (fun t => all_waiting (graph t))).
  - intros x Hx. simpl in Hx. rewrite nodes_same_topic_edges in Hx.
    assert (Hx' : In x (nodes (graph s) ++ [(next_id s, mkNodeData (RxAction WAITING n ts c tp None) None)])).
    { destruct parent; [rewrite nodes_add_edge in Hx|];
        rewrite nodes_same_node_edges in Hx; exact Hx. }
    apply in_app_or in Hx'. destruct Hx' as [Hx'|[<-|[]]]; [exact (HW _ Hx')|].
    split; simpl; eauto 6.
  - intros e t t' _ Ht. destruct e; try (intros E; inversion E; subst; exact Ht).
    apply (foldM_inv (fun t => all_waiting (graph t))); [exact Ht|].
    intros nm u u' _ Hu. destruct (existsb _ _); [|intros E; inversion E; subst; exact Hu].
    apply IH. exact Hu.
Qed.

Lemma request_next_input_waiting s s' :
  all_waiting (graph s) -> request_next_input s = Ok s' -> all_waiting (graph s').
Proof.
  intros HW. unfold request_next_input.
  destruct (next_input s) as [[topic f|time f]|]; [| |discriminate].
  - simpl. destruct (simulator_time s) as [now|]; [|discriminate].
    destruct (add_topic_input now topic (set_next_input None s)) as [s2|] eqn:E;
      simpl; [|discriminate].
    intros H; inversion H; subst. simpl.
    revert E. unfold add_topic_input.
    apply (foldM_inv (fun t => all_waiting (graph t))); [exact HW|].
    intros a t t' Ha Ht. apply in_map_iff in Ha. destruct Ha as [nm [<- _]].
    apply add_action_and_effects_waiting. exact Ht.
  - rewrite add_pending_timers_until_eq. simpl.
    destruct (simulator_time s); simpl; [|discriminate].
    intros H; inversion H; subst. exact HW.
Qed.

Lemma waiting_not_eligible g x : waiting_rx x -> eligible g x = false.
Proof.
  intros [(n & ts & c & tp & d & H) _]. unfold eligible. rewrite H. simpl.
  apply andb_false_r.
Qed.

Lemma map_id_on {A : Type} (f : A -> A) (l : list A) :
  (forall x, In x l -> f x = x) -> map f l = l.
Proof.
  induction l as [|x l IH]; simpl; intros H; [reflexivity|].
  rewrite H by auto. rewrite IH by auto. reflexivity.
Qed.

Lemma process_loop_waiting :
  forall rounds s s',
    all_waiting (graph s) -> process_loop rounds s = Ok s' -> all_waiting (graph s').
Proof.
  induction rounds as [|k IH]; intros s s' HW; simpl; [discriminate|].
  destruct (process_pass (graph s) (nodes (graph s)) (published s) false)
    as [[[l2 p2] b2]|e] eqn:E; simpl; [|discriminate].
  apply process_pass_ok in E. destruct E as (-> & _ & _).
  rewrite map_id_on.
  2:{ intros x Hx. unfold run_eligible.
      rewrite (waiting_not_eligible _ _ (HW _ Hx)). reflexivity. }
  destruct b2; [apply IH; exact HW|].
  intros H; inversion H; subst. exact HW.
Qed.

Lemma process_waiting s s' :
  all_waiting (graph s) -> process s = Ok s' -> all_waiting (graph s').
Proof.
  intros HW. unfold process.
  destruct (process_loop _ s) as [s1|] eqn:E; simpl; [|discriminate].
  apply process_loop_waiting in E; [|exact HW].
  destruct (next_input s1) as [ni|]; [|intros H; inversion H; subst; exact E].
  destruct (ready_for_next_input s1) as [[|]|]; simpl; try discriminate.
  - apply request_next_input_waiting; exact E.
  - intros H; inversion H; subst; exact E.
Qed.

Lemma find_running_action_waiting T l :
  (forall x, In x l -> waiting_rx x) -> find_running_action T l = Err ActionNotFoundError.
Proof.
  induction l as [|[id nd] l IH]; simpl; intros H; [reflexivity|].
  destruct (H (id, nd) (or_introl eq_refl)) as [(n & ts & c & tp & d & Hd) _].
  simpl in Hd. rewrite Hd. simpl. apply IH. intros x Hx; apply H; right; exact Hx.
Qed.

Lemma find_running_action_status_waiting N l :
  (forall x, In x l -> waiting_rx x) ->
  find_running_action_status N l = Err ActionNotFoundError.
Proof.
  induction l as [|[id nd] l IH]; simpl; intros H; [reflexivity|].
  destruct (H (id, nd) (or_introl eq_refl)) as [(n & ts & c & tp & d & Hd) _].
  simpl in Hd. rewrite Hd. simpl. apply IH. intros x Hx; apply H; right; exact Hx.
Qed.

(** Without the key ["timestep"] the buffering of an external input changes
    no action. *)
Lemma buffer_at_external_no_timestep g topic msg it x y :
  nd_timestep (snd x) = None ->
  buffer_at g topic msg None it x = Ok y -> y = x.
Proof.
  destruct x as [id nd]. simpl. intros Hts. unfold buffer_at.
  destruct (nd_data nd) as [st n ts c tp d|]; [|intros H; inversion H; auto].
  destruct (negb (String.eqb tp topic)); [intros H; inversion H; auto|].
  destruct (negb (ActionState_eqb st WAITING)); [intros H; inversion H; auto|].
  rewrite Hts. destruct it; simpl; discriminate.
Qed.

Lemma mapM_id_on {A : Type} (f : A -> Res A) :
  forall l l', (forall x y, In x l -> f x = Ok y -> y = x) -> mapM f l = Ok l' -> l' = l.
Proof.
  induction l as [|x l IH]; simpl; intros l' Hf H.
  - inversion H; reflexivity.
  - destruct (f x) as [y|] eqn:E; simpl in H; [|discriminate].
    destruct (mapM f l) as [ys|] eqn:E'; simpl in H; [|discriminate].
    inversion H; subst. rewrite (Hf x y) by auto. rewrite (IH ys) by auto. reflexivity.
Qed.

Lemma step_waiting ev s s' :
  all_waiting (graph s) -> step ev s = Ok s' -> all_waiting (graph s').
Proof.
  intros HW. destruct ev as [topic|t|topic msg|node_name]; simpl.
  - unfold wait_until_publish_allowed.
    destruct (next_input s); [discriminate|].
    destruct (simulator_time s); [|discriminate].
    simpl. destruct (negb _).
    + destruct (request_next_input _) as [s2|] eqn:E; simpl; [|discriminate].
      intros H; inversion H; subst.
      apply request_next_input_waiting in E; [exact E|exact HW].
    + intros H; inversion H; subst. exact HW.
  - unfold wait_until_time_publish_allowed.
    destruct (next_input s); [discriminate|].
    simpl. destruct (negb _).
    + destruct (request_next_input _) as [s2|] eqn:E; simpl; [|discriminate].
      intros H; inversion H; subst.
      apply request_next_input_waiting in E; [exact E|exact HW].
    + intros H; inversion H; subst. exact HW.
  - unfold interception_subscription_callback.
    destruct (String.eqb topic "clock"); [intros H; inversion H; subst; exact HW|].
    rewrite (find_running_action_waiting topic _ HW). cbv beta iota.
    match goal with
    | |- context [if ?b then _ else Err ActionNotFoundError] => destruct b
    end; [|discriminate].
    destruct (earliest_waiting_timestep topic (nodes (graph s))) as [it|]; simpl;
      [|discriminate].
    destruct (mapM _ (nodes (graph s))) as [l|] eqn:E; simpl; [|discriminate].
    apply mapM_id_on in E.
    + subst l. apply process_waiting. simpl. exact HW.
    + intros x y Hx. apply buffer_at_external_no_timestep.
      exact (proj2 (HW _ Hx)).
  - unfold status_callback.
    rewrite (find_running_action_status_waiting node_name _ HW). discriminate.
Qed.

Lemma reachable_waiting s : reachable s -> all_waiting (graph s).
Proof.
  induction 1 as [|t0|ev s s' _ IH E].
  - intros x Hx; contradiction.
  - intros x Hx; contradiction.
  - exact (step_waiting _ _ _ IH E).
Qed.

(** ** The graph has no cycle *)

Lemma path_to_older g :
  edges_to_older g -> forall u v, clos_trans nat (edge_in g) u v -> v < u.
Proof.
  intros He u v. induction 1 as [u v [ty Hin]|u w v _ IH1 _ IH2].
  - destruct (He _ _ _ Hin) as [Hlt _]. exact Hlt.
  - lia.
Qed.

Lemma edges_to_older_acyclic g : edges_to_older g -> acyclic g.
Proof.
  intros He u Hp. apply (path_to_older g He) in Hp. lia.
Qed.

(** Removing a node keeps the edges leading to older nodes, so it keeps the
    graph without a cycle. *)
Lemma remove_node_edges_to_older g id :
  NoDup (node_ids g) -> edges_to_older g -> edges_to_older (remove_node id g).
Proof.
  intros _ He u v ty Hin. simpl in Hin. apply filter_In in Hin.
  destruct Hin as [Hin Hne]. simpl in Hne. apply andb_true_iff in Hne.
  destruct Hne as [H1 H2]. apply negb_true_iff, Nat.eqb_neq in H1, H2.
  destruct (He _ _ _ Hin) as [Hlt [Hu Hv]].
  assert (Hkeep : forall i, In i (node_ids g) -> i <> id -> In i (node_ids (remove_node id g))).
  { intros i Hi Hn. unfold node_ids in *. apply in_map_iff in Hi.
    destruct Hi as [x [Hx Hi]]. apply in_map_iff. exists x. split; [exact Hx|].
    simpl. apply filter_In. split; [exact Hi|].
    apply negb_true_iff, Nat.eqb_neq. congruence. }
  auto.
Qed.

(** C1: in every state that a run of the orchestrator reaches (offers,
    intercepted messages and status messages in any order), the constraint
    graph has no cycle; every edge leads from an action to an action of the
    graph that was inserted before it, which is what the insertion adds and
    what the removal of a node keeps. *)
Theorem reachable_graph_acyclic s :
  reachable s -> acyclic (graph s) /\ edges_to_older (graph s).
Proof.
  intros Hr. apply reachable_inv in Hr. destruct Hr as [HG _].
  pose proof (gc_edges _ _ HG) as He.
  split; [apply edges_to_older_acyclic|]; exact He.
Qed.

(** ** One running action per node *)

Lemma GInv_one_running_per_node s : GInv s -> one_running_per_node (graph s).
Proof.
  intros [HG HS] u a v b Hu Hv Ha Hb Heq.
  destruct (Nat.lt_trichotomy u v) as [Hlt|[Heq'|Hgt]]; [|exact Heq'|].
  - exfalso. destruct (HS _ _ _ _ Hu Hv Hlt Heq) as [ty Hty].
    exact (gc_running _ _ HG _ _ _ _ Hv Hb Hty).
  - exfalso. destruct (HS _ _ _ _ Hv Hu Hgt (eq_sym Heq)) as [ty Hty].
    exact (gc_running _ _ HG _ _ _ _ Hu Ha Hty).
Qed.

Lemma run_from_inv s0 s : GInv s0 -> run_from s0 s -> GInv s.
Proof.
  intros H0. induction 1 as [|ev s s' _ IH E]; [exact H0|].
  exact (step_inv _ _ _ IH E).
Qed.

(** C3: at most one action at a ROS node is RUNNING.  The invariant GInv
    (ids below the counter and distinct, every edge to an older action of
    the graph, no outgoing edge at a RUNNING action, of two actions at one
    node an edge from the later to the earlier) holds in every state that a
    run of the orchestrator reaches; and from any state that satisfies it,
    whatever the states of its actions, every sequence of calls that return
    leads to a state that satisfies it, in which two RUNNING actions at the
    same ROS node are the same action of the graph: the later of two
    actions at a node has the SAME_NODE edge to the earlier and so is not
    eligible while the earlier is in the graph. *)
Theorem one_running_per_node_invariant :
  (forall s, reachable s -> GInv s)
  /\ (forall s0 s, GInv s0 -> run_from s0 s ->
        GInv s /\ one_running_per_node (graph s)).
Proof.
  split; [exact reachable_inv|].
  intros s0 s H0 Hr. pose proof (run_from_inv _ _ H0 Hr) as HI.
  split; [exact HI|]. apply GInv_one_running_per_node. exact HI.
Qed.

(** ** No action runs *)

(** No action runs in a state that a run reaches: an external input is not
    buffered (see [external_input_key_error]) and no timer action is
    created (see [add_pending_timers_until_eq]). *)
Lemma reachable_none_running s x :
  reachable s -> In x (nodes (graph s)) -> action_state (nd_data (snd x)) = WAITING.
Proof.
  intros Hr Hx.
  destruct (reachable_waiting _ Hr _ Hx) as [(n & ts & c & tp & d & Hd) _].
  rewrite Hd. reflexivity.
Qed.

(** ** The scheduling loop runs the eligible actions *)

Lemma process_loop_result k s s' :
  process_loop (S (S k)) s = Ok s' ->
  s' = set_published (published s ++ publications_of (graph s) (nodes (graph s)))
         (set_nodes (map (run_eligible (graph s)) (nodes (graph s))) s).
Proof.
  destruct (process_pass (graph s) (nodes (graph s)) (published s) false)
    as [[[l2 p2] b2]|e] eqn:E.
  - rewrite (process_loop_ok k s _ _ _ E).
    apply process_pass_ok in E. destruct E as (-> & -> & _).
    intros H; inversion H; reflexivity.
  - rewrite (process_loop_err _ s e E). discriminate.
Qed.

(** C4: when every eligible action (no outgoing edge, state READY) is an
    RxAction with an interception publisher for its node and topic, the
    loop of __process returns; it has set exactly the eligible actions to
    RUNNING and left every other action as it was, it has published the
    buffered message of each of them for its node and topic, in the order
    of the nodes, and no eligible action remains. *)
Theorem process_loop_runs_eligible k s :
  (forall x, In x (nodes (graph s)) -> eligible (graph s) x = true -> publishable x = true) ->
  let s' := set_published (published s ++ publications_of (graph s) (nodes (graph s)))
              (set_nodes (map (run_eligible (graph s)) (nodes (graph s))) s) in
  process_loop (S (S k)) s = Ok s'
  /\ (forall x, In x (nodes (graph s')) -> eligible (graph s') x = false)
  /\ (forall x, In x (nodes (graph s)) -> eligible (graph s) x = false ->
                In x (nodes (graph s')))
  /\ (forall x, In x (nodes (graph s)) -> eligible (graph s) x = true ->
                action_state (nd_data (snd x)) = READY
                /\ out_degree (graph s) (fst x) = 0
                /\ In (fst x, mkNodeData (set_state RUNNING (nd_data (snd x)))
                                (nd_timestep (snd x)))
                      (nodes (graph s')))
  /\ (forall id st n ts c tp d ots,
         In (id, mkNodeData (RxAction st n ts c tp d) ots) (nodes (graph s)) ->
         eligible (graph s) (id, mkNodeData (RxAction st n ts c tp d) ots) = true ->
         In (n, tp, d) (published s'))
  /\ edges (graph s') = edges (graph s).
Proof.
  intros Hp s'.
  pose proof (process_pass_total (graph s) (nodes (graph s)) (published s) false Hp) as E.
  split; [|split; [|split; [|split; [|split]]]]; [| | | | |reflexivity].
  - rewrite (process_loop_ok k s _ _ _ E). reflexivity.
  - intros x Hx. simpl in Hx. apply in_map_iff in Hx. destruct Hx as [y [<- _]].
    unfold s'; simpl. rewrite eligible_edges. apply run_eligible_not_eligible.
  - intros x Hx He. simpl. apply in_map_iff. exists x. split; [|exact Hx].
    unfold run_eligible. rewrite He. reflexivity.
  - intros x Hx He. pose proof He as He'. unfold eligible in He'.
    apply andb_true_iff in He'. destruct He' as [H1 H2].
    apply Nat.eqb_eq in H1.
    split; [destruct (action_state (nd_data (snd x))); try discriminate; reflexivity|].
    split; [exact H1|].
    simpl. apply in_map_iff. exists x. split; [|exact Hx].
    unfold run_eligible. rewrite He. reflexivity.
  - intros id st n ts c tp d ots Hx He. simpl.
    apply in_or_app. right. unfold publications_of. apply in_flat_map.
    eexists. split; [exact Hx|]. rewrite He. simpl. auto.
Qed.

(** ** Granting the pending offer *)

Lemma ActionState_eqb_eq a b : ActionState_eqb a b = true <-> a = b.
Proof. destruct a, b; simpl; split; congruence. Qed.

Lemma ready_for_next_input_input s T f :
  next_input s = Some (FutureInput T f) ->
  (pending_on T (graph s) -> ready_for_next_input s = Ok false)
  /\ (~ pending_on T (graph s) -> ready_for_next_input s = Ok true).
Proof.
  intros Hn. unfold ready_for_next_input. rewrite Hn.
  match goal with
  | |- context [negb ?b] => destruct b eqn:E
  end.
  - split; [reflexivity|]. intros Hno. exfalso. apply Hno.
    apply existsb_exists in E. destruct E as [[id [data ots]] [Hin Hx]].
    simpl in Hx. apply andb_true_iff in Hx. destruct Hx as [Hst Htp].
    destruct data as [st n ts c tp d|]; [|discriminate].
    apply String.eqb_eq in Htp. subst tp.
    exists id, st, n, ts, c, d, ots. split; [exact Hin|].
    simpl in Hst. apply orb_true_iff in Hst.
    destruct Hst as [H|H]; apply ActionState_eqb_eq in H; auto.
  - split; [|reflexivity]. intros (id & st & n & ts & c & d & ots & Hin & Hst).
    exfalso. apply not_true_iff_false in E. apply E.
    apply existsb_exists. eexists. split; [exact Hin|]. simpl.
    rewrite String.eqb_refl. destruct Hst as [-> | ->]; reflexivity.
Qed.

(** ** Unmatched messages *)

Lemma Effect_eqb_eq a b : Effect_eqb a b = true <-> a = b.
Proof.
  destruct a, b; simpl; split; intros H;
    try discriminate; try reflexivity;
    try (apply String.eqb_eq in H; congruence);
    inversion H; apply String.eqb_refl.
Qed.

Lemma existsb_Effect e l :
  existsb (fun output => Effect_eqb output e) l = true <-> In e l.
Proof.
  rewrite existsb_exists. split.
  - intros [x [Hx He]]. apply Effect_eqb_eq in He. subst; exact Hx.
  - intros H. exists e. split; [exact H|]. apply Effect_eqb_eq; reflexivity.
Qed.

Lemma find_running_action_none T l :
  (forall x, In x l -> exists m, node_model_by_name (action_node (nd_data (snd x))) = Ok m) ->
  (forall x, In x l -> action_state (nd_data (snd x)) = RUNNING ->
             ~ declares_publish (nd_data (snd x)) T) ->
  find_running_action T l = Err ActionNotFoundError.
Proof.
  induction l as [|[id nd] l IH]; simpl; intros Hm Hno; [reflexivity|].
  assert (IH' : find_running_action T l = Err ActionNotFoundError)
    by (apply IH; intros x Hx; [apply Hm|apply Hno]; right; exact Hx).
  destruct (ActionState_eqb (action_state (nd_data nd)) RUNNING) eqn:Hst; [|exact IH'].
  apply ActionState_eqb_eq in Hst.
  destruct (Hm (id, nd) (or_introl eq_refl)) as [m Hmod]. simpl in Hmod.
  rewrite Hmod. simpl.
  destruct (existsb _ _) eqn:E; [|exact IH'].
  exfalso. apply (Hno (id, nd) (or_introl eq_refl) Hst).
  exists m. split; [exact Hmod|]. apply existsb_Effect. exact E.
Qed.

Lemma find_running_action_status_none N l :
  (forall x, In x l -> exists m, node_model_by_name (action_node (nd_data (snd x))) = Ok m) ->
  (forall x, In x l -> action_state (nd_data (snd x)) = RUNNING ->
             action_node (nd_data (snd x)) = N ->
             ~ declares_status (nd_data (snd x))) ->
  find_running_action_status N l = Err ActionNotFoundError.
Proof.
  induction l as [|[id nd] l IH]; simpl; intros Hm Hno; [reflexivity|].
  assert (IH' : find_running_action_status N l = Err ActionNotFoundError)
    by (apply IH; intros x Hx; [apply Hm|apply Hno]; right; exact Hx).
  destruct (ActionState_eqb (action_state (nd_data nd)) RUNNING) eqn:Hst; [|exact IH'].
  destruct (String.eqb (action_node (nd_data nd)) N) eqn:Hn; [|exact IH'].
  apply ActionState_eqb_eq in Hst. apply String.eqb_eq in Hn.
  destruct (Hm (id, nd) (or_introl eq_refl)) as [m Hmod]. simpl in Hmod.
  simpl. rewrite Hmod. simpl.
  destruct (existsb _ _) eqn:E; [|exact IH'].
  exfalso. apply (Hno (id, nd) (or_introl eq_refl) Hst Hn).
  exists m. split; [exact Hmod|]. apply existsb_Effect. exact E.
Qed.

Lemma reachable_models_known s : reachable s -> models_known (graph s).
Proof.
  intros Hr [id nd] Hx. apply reachable_inv in Hr. destruct Hr as [HG _].
  exact (gc_models _ _ HG _ _ Hx).
Qed.

(** C9, as the code has it: in a state whose actions all have a node model
    (every state that a run reaches is one), a message on a topic other
    than "clock" that no running action declares to publish and that is no
    external input raises ActionNotFoundError, and so does a status
    message from a node at which no running action declares a status
    message.  A second completion message for an action that has been
    removed is such a message. *)
Theorem unmatched_message_raises s :
  models_known (graph s) ->
  (forall T msg,
      T <> "clock" ->
      ~ running_publisher (graph s) T ->
      is_external_input T = false ->
      interception_subscription_callback T msg s = Err ActionNotFoundError)
  /\ (forall N,
         ~ running_status (graph s) N ->
         status_callback N s = Err ActionNotFoundError).
Proof.
  intros Hm. split.
  - intros T msg Hc Hno Hext. unfold interception_subscription_callback.
    apply String.eqb_neq in Hc. rewrite Hc.
    rewrite find_running_action_none.
    + unfold is_external_input in Hext. cbv beta iota. rewrite Hext. reflexivity.
    + exact Hm.
    + intros x Hx Hst Hd. apply Hno. exists x. auto.
  - intros N Hno. unfold status_callback.
    rewrite find_running_action_status_none; [reflexivity|exact Hm|].
    intros x Hx Hst Hn Hd. apply Hno. exists x. auto.
Qed.

(** ** External inputs *)

Lemma earliest_waiting_timestep_key_error T :
  forall l acc,
    (forall x, In x l -> nd_timestep (snd x) = None) ->
    (exists x, In x l /\ waiting_on T x = true) ->
    foldM
      (fun x input_timestep =>
         match nd_data (snd x) with
         | RxAction st _ _ _ tp _ =>
             if negb (String.eqb tp T) then Ok input_timestep
             else if negb (ActionState_eqb st WAITING) then Ok input_timestep
             else
               match nd_timestep (snd x) with
               | None => Err (KeyError "timestep")
               | Some t =>
                   match input_timestep with
                   | None => Ok (Some t)
                   | Some it => if Z.ltb t it then Ok (Some t) else Ok (Some it)
                   end
               end
         | TimerCallbackAction _ _ _ _ _ => Ok input_timestep
         end)
      l acc
    = Err (KeyError "timestep").
Proof.
  induction l as [|x l IH]; intros acc Hts [y [Hy Hw]]; [contradiction|].
  assert (Hl : forall z, In z l -> nd_timestep (snd z) = None)
    by (intros z Hz; apply Hts; right; exact Hz).
  cbn [foldM].
  destruct (waiting_on T x) eqn:Hx.
  - unfold waiting_on in Hx.
    destruct (nd_data (snd x)) as [st n ts c tp d|]; [|discriminate].
    apply andb_true_iff in Hx. destruct Hx as [H1 H2].
    rewrite H1, H2. simpl. rewrite (Hts x (or_introl eq_refl)). reflexivity.
  - assert (Hy' : In y l) by (destruct Hy as [->|Hy]; [congruence|exact Hy]).
    unfold waiting_on in Hx.
    destruct (nd_data (snd x)) as [st n ts c tp d|].
    + destruct (String.eqb tp T); simpl; [|apply IH; eauto].
      simpl in Hx. rewrite Hx. simpl. apply IH; eauto.
    + apply IH; eauto.
Qed.

(** In a state that a run reaches, a message of an external input for which
    an action waits ends in the KeyError of the missing key "timestep". *)
Lemma external_input_key_error s T msg :
  reachable s -> T <> "clock" -> is_external_input T = true ->
  (exists x, In x (nodes (graph s)) /\ waiting_on T x = true) ->
  interception_subscription_callback T msg s = Err (KeyError "timestep").
Proof.
  intros Hr Hc Hext Hw. pose proof (reachable_waiting _ Hr) as HW.
  unfold interception_subscription_callback.
  apply String.eqb_neq in Hc. rewrite Hc.
  rewrite (find_running_action_waiting T _ HW). cbv beta iota.
  unfold is_external_input in Hext. rewrite Hext.
  unfold earliest_waiting_timestep.
  rewrite earliest_waiting_timestep_key_error; [reflexivity| |exact Hw].
  intros x Hx. exact (proj2 (HW _ Hx)).
Qed.

(** ** The first offer of a time *)

(** C10: on a fresh orchestrator (no simulator_time, empty graph) the call
    wait_until_time_publish_allowed(t) raises the RuntimeError of the timer
    expansion: the graph is idle, the offer is granted at once, and the
    timer expansion asks for a simulator_time that is not there.  No future
    is returned and none is completed. *)
Theorem first_time_offer_raises (t : Time) :
  wait_until_time_publish_allowed t init
  = Err (RuntimeError "simulator_time has to be initialized before adding timer events").
Proof. reflexivity. Qed.

End Proofs.

(** * The examples *)

(** ex_state is reached, and its graph has no cycle. *)
Lemma reachable_graph_acyclic_witness :
  @reachable ex_config ex_state
  /\ acyclic (graph ex_state) /\ edges_to_older (graph ex_state).
Proof.
  assert (Hr : @reachable ex_config ex_state).
  { apply (@reachable_step ex_config (OfferInput "A") started0);
      [apply reachable_started|reflexivity]. }
  split; [exact Hr|].
  exact (@reachable_graph_acyclic ex_config ex_state Hr).
Defined.

(** The invariant of a graph that is written out. *)
Ltac split_in :=
  repeat match goal with
         | H : In _ (_ :: _) |- _ => destruct H as [H|H]
         | H : _ \/ _ |- _ => destruct H as [H|H]
         | H : In _ [] |- _ => destruct H
         | H : False |- _ => destruct H
         | H : (_, _) = (_, _) |- _ => inversion H; clear H; subst
         end.

Ltac solve_GInv :=
  split;
  [ constructor;
    [ unfold node_ids; simpl; intros id H; split_in; lia
    | unfold node_ids; simpl; repeat constructor; simpl; intuition discriminate
    | intros u v ty H; unfold node_ids; simpl in H; split_in; simpl; lia
    | intros u nd v ty H Hs He; simpl in H, He; split_in; simpl in Hs;
      discriminate
    | intros u nd H; simpl in H; split_in; eexists; reflexivity ]
  | intros u a v b Hu Hv Hlt He; simpl in Hu, Hv; split_in; simpl in He;
    first [ lia | discriminate | eexists; simpl; eauto 6 ] ].

(** In ex_scheduled the action of X on A runs.  Its message on B makes the
    action of Y on B run; the action of Y on A has its message and stays
    READY, it waits for the action of Y on B. *)
Lemma one_running_per_node_invariant_witness :
  @GInv ex_config ex_scheduled
  /\ @run_from ex_config ex_scheduled ex_completed
  /\ @GInv ex_config ex_completed
  /\ one_running_per_node (graph ex_completed)
  /\ In (1, mkNodeData (RxAction RUNNING "Y" 0%Z (TopicInput "B") "B" (Some "b")) None)
        (nodes (graph ex_completed)).
Proof.
  assert (H0 : @GInv ex_config ex_scheduled) by solve_GInv.
  assert (Hr : @run_from ex_config ex_scheduled ex_completed).
  { apply (@run_from_step ex_config ex_scheduled (TopicMessage "B" "b") ex_scheduled);
      [apply run_from_here|reflexivity]. }
  split; [exact H0|]. split; [exact Hr|].
  destruct (proj2 (@one_running_per_node_invariant ex_config) ex_scheduled ex_completed H0 Hr)
    as [HI H1].
  split; [exact HI|]. split; [exact H1|]. simpl; auto.
Defined.

(** In ex_buffered the action of X on A is eligible; the action of Y on A
    is READY but waits for the action of Y on B.  The loop runs the first
    and publishes its message for X. *)
Lemma process_loop_runs_eligible_witness :
  (forall x, In x (nodes (graph ex_buffered)) ->
             eligible (graph ex_buffered) x = true ->
             @publishable ex_config x = true)
  /\ @process_loop ex_config 2 ex_buffered = Ok ex_scheduled.
Proof.
  assert (Hp : forall x, In x (nodes (graph ex_buffered)) ->
                         eligible (graph ex_buffered) x = true ->
                         @publishable ex_config x = true).
  { intros x Hx He. simpl in Hx.
    destruct Hx as [<-|[<-|[<-|[]]]];
      first [reflexivity | vm_compute in He; discriminate He]. }
  split; [exact Hp|].
  exact (proj1 (@process_loop_runs_eligible ex_config 0 ex_buffered Hp)).
Defined.

(** In ex_running the only action on A is running. *)
Lemma running_does_not_block : ~ pending_on "A" (graph ex_running).
Proof.
  intros (id & st & n & ts & c & d & ots & Hin & Hst).
  simpl in Hin. destruct Hin as [Hin|[]].
  inversion Hin; subst. destruct Hst; discriminate.
Qed.

(** While the action of X on A runs, a message on a topic that X does not
    publish and a status message from X are refused. *)
Lemma unmatched_message_raises_witness :
  @models_known ex_config (graph ex_running)
  /\ @interception_subscription_callback ex_config "Z" "m" ex_running
      = Err ActionNotFoundError
  /\ @status_callback ex_config "X" ex_running = Err ActionNotFoundError.
Proof.
  assert (Hm : @models_known ex_config (graph ex_running)).
  { intros x Hx. simpl in Hx. destruct Hx as [<-|[]]. exists model_X. reflexivity. }
  split; [exact Hm|].
  destruct (@unmatched_message_raises ex_config ex_running Hm) as [Ht Hs].
  split.
  - apply Ht.
    + discriminate.
    + intros (x & Hx & _ & m & Hmod & Hin). simpl in Hx. destruct Hx as [<-|[]].
      vm_compute in Hmod. inversion Hmod; subst m. simpl in Hin.
      destruct Hin as [Hin|[]]. discriminate Hin.
    + reflexivity.
  - apply Hs.
    intros (x & Hx & _ & _ & m & Hmod & Hin). simpl in Hx. destruct Hx as [<-|[]].
    vm_compute in Hmod. inversion Hmod; subst m. simpl in Hin.
    destruct Hin as [Hin|[]]. discriminate Hin.
Defined.

(** C9 as it is stated does not hold: a message on "clock" is no external
    input and no running action publishes it, and the callback returns
    without an error. *)
Lemma clock_message_is_accepted :
  ~ (forall (config : Config) (s : Orchestrator) (T : TopicName) (msg : Msg),
        reachable s ->
        ~ running_publisher (graph s) T ->
        is_external_input T = false ->
        interception_subscription_callback T msg s = Err ActionNotFoundError).
Proof.
  intros H.
  specialize (H ex_config init "clock" "m" reachable_init).
  assert (Hc : @interception_subscription_callback ex_config "clock" "m" init = Ok init)
    by reflexivity.
  rewrite H in Hc; [discriminate| |reflexivity].
  intros (x & Hx & _). exact Hx.
Qed.

(** C6, at its example: one timer of 100 ms, simulator_time 0, a time
    offer for 100 ms.  The loop that is to collect the timers collects
    none, so the offer is granted and the graph stays empty: no timer
    action is inserted. *)
Theorem timer_step_schedules_nothing :
  @collect_timers timer_config = []
  /\ @wait_until_time_publish_allowed timer_config (100 * ms)%Z started0
      = Ok (0, mkOrchestrator None (Some (100 * ms)%Z) empty_graph 0 [] 1 [0]).
Proof. split; reflexivity. Qed.

(** C7, at its example: one timer of 100 ms, simulator_time 0, a time
    offer for 250 ms.  The call raises nothing: the offer is granted, the
    future is completed and simulator_time becomes 250 ms. *)
Theorem oversized_step_is_granted :
  @wait_until_time_publish_allowed timer_config (250 * ms)%Z started0
  = Ok (0, mkOrchestrator None (Some (250 * ms)%Z) empty_graph 0 [] 1 [0]).
Proof. reflexivity. Qed.

(** C8, at two inputs.  With actions waiting for the external input A, its
    message ends in the KeyError of the key "timestep" and nothing is
    buffered; with no action waiting for it, the message is accepted without
    an error. *)
Theorem external_input_raises_key_error :
  @interception_subscription_callback ex_config "A" "m" ex_state
  = Err (KeyError "timestep")
  /\ @interception_subscription_callback ex_config "A" "m" started0 = Ok started0.
Proof. split; reflexivity. Qed.

(** For a node that publishes the topic it receives, the SAME_TOPIC loop
    gives the new action an edge to itself; the insertion then calls itself
    for the resulting input until the recursion limit, and the offer ends
    in RecursionError. *)
Lemma self_edge_ends_in_recursion_error :
  edges (same_topic_edges [TopicPublish "T"] 0
           (add_node 0 (mkNodeData (RxAction WAITING "L" 0%Z (TopicInput "T") "T" None) None)
              empty_graph))
  = [(0, 0, SAME_TOPIC)]
  /\ @step loop_config (OfferInput "T") started0 = Err RecursionError.
Proof. split; reflexivity. Qed.

(** * Further properties of the methods *)

Section More.

Context {config : Config}.

(** ** What an insertion adds and what it keeps *)

Lemma in_edges_add_edge_other u v ty g e :
  In e (edges g) -> fst (fst e) <> u -> In e (edges (add_edge u v ty g)).
Proof.
  intros Hin Hne. unfold add_edge. destruct (existsb _ _); simpl.
  - apply in_map_iff. exists e. split; [|exact Hin].
    destruct (is_edge u v e) eqn:E; [|reflexivity].
    apply is_edge_true in E. destruct E; contradiction.
  - apply in_or_app; left; exact Hin.
Qed.

Lemma in_edges_add_edges_to_other u ty sel l g e :
  In e (edges g) -> fst (fst e) <> u -> In e (edges (add_edges_to u ty sel l g)).
Proof.
  intros Hin Hne. unfold add_edges_to.
  apply (fold_left_inv (fun g' => In e (edges g'))); [exact Hin|].
  intros x c _ Hc. destruct (sel x); [apply in_edges_add_edge_other|]; assumption.
Qed.

Lemma in_edges_add_edges_to_source u ty sel l g e :
  In e (edges (add_edges_to u ty sel l g)) -> In e (edges g) \/ fst (fst e) = u.
Proof.
  intros H. apply in_edges_add_edges_to in H.
  destruct H as [H|[x [_ [_ ->]]]]; auto.
Qed.

Lemma same_topic_edges_source effects n g e :
  In e (edges (same_topic_edges effects n g)) -> In e (edges g) \/ fst (fst e) = n.
Proof.
  unfold same_topic_edges. revert g.
  induction effects as [|eff effects IH]; simpl; intros g H; [left; exact H|].
  apply IH in H. destruct H as [H|H]; [|right; exact H].
  destruct eff; auto.
  rewrite same_topic_edges_for_eq in H.
  apply in_edges_add_edges_to_source in H. exact H.
Qed.

Lemma same_topic_edges_other effects n g e :
  In e (edges g) -> fst (fst e) <> n -> In e (edges (same_topic_edges effects n g)).
Proof.
  intros Hin Hne. unfold same_topic_edges.
  apply (fold_left_inv (fun g' => In e (edges g'))); [exact Hin|].
  intros eff c _ Hc. destruct eff; auto.
  rewrite same_topic_edges_for_eq. apply in_edges_add_edges_to_other; assumption.
Qed.

Lemma same_topic_edges_edge_in effects n g u v :
  edge_in g u v -> edge_in (same_topic_edges effects n g) u v.
Proof.
  intros H. unfold same_topic_edges.
  apply (fold_left_inv (fun g' => edge_in g' u v)); [exact H|].
  intros eff c _ Hc. destruct eff; auto.
  rewrite same_topic_edges_for_eq. apply edge_in_add_edges_to_old; exact Hc.
Qed.

Lemma same_topic_edges_new effects n g T x :
  In (TopicPublish T) effects -> In x (nodes g) -> is_rx_on T x = true ->
  edge_in (same_topic_edges effects n g) n (fst x).
Proof.
  unfold same_topic_edges. revert g.
  induction effects as [|eff effects IH]; simpl; intros g HT Hx Hrx; [contradiction|].
  destruct HT as [->|HT].
  - fold (same_topic_edges effects n (same_topic_edges_for T n g)).
    apply same_topic_edges_edge_in.
    rewrite same_topic_edges_for_eq. apply edge_in_add_edges_to_new; assumption.
  - apply IH; auto. destruct eff; auto.
    rewrite same_topic_edges_for_eq, nodes_add_edges_to. exact Hx.
Qed.

Lemma extends_refl s : extends s s.
Proof.
  split; [exists []; rewrite app_nil_r; split; [reflexivity|intros x []]|].
  unfold same_fields. repeat split; auto.
Qed.

Lemma extends_trans s t u : extends s t -> extends t u -> extends s u.
Proof.
  intros [[l1 [Hn1 Hb1]] [He1 [Hk1 [Hi1 [Hle1 Hf1]]]]]
         [[l2 [Hn2 Hb2]] [He2 [Hk2 [Hi2 [Hle2 Hf2]]]]].
  split; [|split; [|split; [|split; [|split]]]].
  - exists (l1 ++ l2). split; [rewrite Hn2, Hn1, app_assoc; reflexivity|].
    intros x Hx. apply in_app_or in Hx. destruct Hx as [Hx|Hx].
    + specialize (Hb1 _ Hx). lia.
    + specialize (Hb2 _ Hx). lia.
  - intros e He. destruct (He2 _ He) as [H|H]; [|right; lia].
    destruct (He1 _ H) as [H'|H']; auto.
  - intros e He Hlt. apply Hk2; [apply Hk1; assumption|lia].
  - auto.
  - lia.
  - unfold same_fields in *. intuition congruence.
Qed.

Lemma same_topic_edges_fold effects n g :
  same_topic_edges effects n g
  = fold_left
      (fun g' effect =>
         match effect with
         | TopicPublish T => add_edges_to n SAME_TOPIC (is_rx_on T) (nodes g') g'
         | _ => g'
         end)
      effects g.
Proof.
  unfold same_topic_edges. apply fold_left_ext.
  intros b [T| |sv]; try reflexivity. apply same_topic_edges_for_eq.
Qed.

(** One level of the recursion, when it returns. *)
Lemma add_action_and_effects_unfold fuel a parent s s' :
  add_action_and_effects (S fuel) a parent s = Ok s' ->
  exists m,
    node_model_by_name (action_node a) = Ok m
    /\ existsb (Cause_eqb (cause_of a)) (get_possible_inputs m) = true
    /\ foldM
         (fun effect s2 =>
            match effect with
            | TopicPublish T =>
                foldM
                  (fun node s3 =>
                     if existsb (Cause_eqb (TopicInput T)) (get_possible_inputs node)
                     then add_action_and_effects fuel
                            (RxAction WAITING (get_name node) (action_timestamp a)
                               (TopicInput T) T None)
                            (Some (next_id s)) s3
                     else Ok s3)
                  node_models s2
            | _ => Ok s2
            end)
         (effects_for_input m (cause_of a))
         (inserted a parent (effects_for_input m (cause_of a)) s)
       = Ok s'.
Proof.
  cbn [add_action_and_effects]. unfold add_all_effects_for_cause.
  destruct (node_model_by_name (action_node a)) as [m|] eqn:Hm; cbn [bind]; [|discriminate].
  change (match a with
          | RxAction _ _ _ _ topic _ => TopicInput topic
          | TimerCallbackAction _ _ _ _ period => TimerInput period
          end) with (cause_of a).
  destruct (existsb (Cause_eqb (cause_of a)) (get_possible_inputs m)) eqn:E;
    cbn [negb]; [|discriminate].
  intros H. exists m. split; [reflexivity|]. split; [exact E|].
  unfold inserted. rewrite <- same_topic_edges_fold, <- same_node_edges_eq. exact H.
Qed.

Lemma inserted_extends a parent effects s : extends s (inserted a parent effects s).
Proof.
  unfold inserted.
  set (n := next_id s). set (nd := mkNodeData a None).
  set (g0 := add_node n nd (graph s)).
  set (g1 := add_edges_to n SAME_NODE (at_same_node n a) (nodes g0) g0).
  set (g2 := match parent with Some p => add_edge n p CAUSALITY g1 | None => g1 end).
  rewrite <- same_topic_edges_fold.
  assert (Hn2 : nodes g2 = nodes (graph s) ++ [(n, nd)]).
  { unfold g2. destruct parent; [rewrite nodes_add_edge|];
      unfold g1; rewrite nodes_add_edges_to; reflexivity. }
  assert (He2 : forall e, In e (edges g2) -> In e (edges (graph s)) \/ fst (fst e) = n).
  { intros e He. unfold g2 in He.
    assert (H1 : In e (edges g1) -> In e (edges (graph s)) \/ fst (fst e) = n).
    { unfold g1. intros H. apply in_edges_add_edges_to_source in H. exact H. }
    destruct parent; [|auto].
    apply in_edges_add_edge in He. destruct He as [He| ->]; auto. }
  assert (Hk2 : forall e, In e (edges (graph s)) -> fst (fst e) <> n -> In e (edges g2)).
  { intros e He Hne. unfold g2.
    assert (H1 : In e (edges g1))
      by (unfold g1; apply in_edges_add_edges_to_other; assumption).
    destruct parent; [apply in_edges_add_edge_other|]; assumption. }
  assert (Hi2 : forall u v, edge_in (graph s) u v -> edge_in g2 u v).
  { intros u v H. unfold g2.
    assert (H1 : edge_in g1 u v) by (unfold g1; apply edge_in_add_edges_to_old; exact H).
    destruct parent; [apply edge_in_add_edge_old|]; exact H1. }
  split; [|split; [|split; [|split; [|split]]]]; simpl.
  - exists [(n, nd)]. rewrite nodes_same_topic_edges. split; [exact Hn2|].
    intros x [<-|[]]. simpl. fold n. lia.
  - intros e He. apply same_topic_edges_source in He.
    destruct He as [He|He]; [|right; fold n; lia].
    destruct (He2 _ He) as [H|H]; [left; exact H|right; fold n; lia].
  - intros e He Hlt. apply same_topic_edges_other; [apply Hk2|]; auto; fold n in Hlt; lia.
  - intros u v H. apply same_topic_edges_edge_in. apply Hi2. exact H.
  - lia.
  - unfold same_fields; simpl. auto.
Qed.

Lemma add_action_and_effects_extends :
  forall fuel a parent s s',
    add_action_and_effects fuel a parent s = Ok s' -> extends s s'.
Proof.
  induction fuel as [|fuel IH]; intros a parent s s' H; [discriminate|].
  apply add_action_and_effects_unfold in H. destruct H as (m & _ & _ & H).
  revert H. apply (foldM_inv (fun t => extends s t)); [apply inserted_extends|].
  intros eff t t' _ Ht. destruct eff; try (intros E; inversion E; subst; exact Ht).
  apply (foldM_inv (fun t => extends s t)); [exact Ht|].
  intros nm u u' _ Hu. destruct (existsb _ _); [|intros E; inversion E; subst; exact Hu].
  intros E. apply IH in E. exact (extends_trans _ _ _ Hu E).
Qed.

Lemma add_action_and_effects_nodes fuel a parent s s' :
  add_action_and_effects fuel a parent s = Ok s' ->
  (exists l,
      nodes (graph s') = nodes (graph s) ++ (next_id s, mkNodeData a None) :: l
      /\ forall x, In x l -> next_id s < fst x < next_id s')
  /\ next_id s < next_id s'
  /\ same_fields s s'.
Proof.
  destruct fuel as [|fuel]; [discriminate|]. intros H.
  apply add_action_and_effects_unfold in H. destruct H as (m & _ & _ & H).
  set (s1 := inserted a parent (effects_for_input m (cause_of a)) s) in H.
  assert (Hn1 : nodes (graph s1) = nodes (graph s) ++ [(next_id s, mkNodeData a None)]).
  { unfold s1, inserted. simpl. rewrite <- same_topic_edges_fold, nodes_same_topic_edges.
    destruct parent; [rewrite nodes_add_edge|]; rewrite nodes_add_edges_to; reflexivity. }
  assert (Hf1 : same_fields s s1) by (unfold same_fields, s1, inserted; simpl; auto).
  assert (He : extends s1 s').
  { revert H. apply (foldM_inv (fun t => extends s1 t)); [apply extends_refl|].
    intros eff t t' _ Ht. destruct eff; try (intros E; inversion E; subst; exact Ht).
    apply (foldM_inv (fun t => extends s1 t)); [exact Ht|].
    intros nm u u' _ Hu. destruct (existsb _ _); [|intros E; inversion E; subst; exact Hu].
    intros E. apply add_action_and_effects_extends in E. exact (extends_trans _ _ _ Hu E). }
  destruct He as [[l [Hn Hb]] [_ [_ [_ [Hle Hf]]]]].
  assert (Hid1 : next_id s1 = S (next_id s)) by reflexivity.
  split; [|split].
  - exists l. split.
    + rewrite Hn, Hn1, <- app_assoc. reflexivity.
    + intros x Hx. specialize (Hb _ Hx). lia.
  - lia.
  - unfold same_fields in *. intuition congruence.
Qed.

(** X1: an insertion that returns has put the new action, without the key
    "timestep", right behind the nodes that were there, which are all kept
    as they were and in their order; the actions of the resulting inputs
    follow with larger ids; the id counter has grown and nothing but the
    graph and the counter has changed. *)
Theorem insertion_keeps_existing_actions fuel a parent s s' :
  add_action_and_effects fuel a parent s = Ok s' ->
  (exists l,
      nodes (graph s') = nodes (graph s) ++ (next_id s, mkNodeData a None) :: l
      /\ forall x, In x l -> next_id s < fst x < next_id s')
  /\ next_id s < next_id s'
  /\ same_fields s s'.
Proof. apply add_action_and_effects_nodes. Qed.

Lemma out_degree_zero_iff g u :
  out_degree g u = 0 <-> forall v ty, ~ In (u, v, ty) (edges g).
Proof.
  split; [intros H v ty; apply out_degree_zero; exact H|].
  intros H. unfold out_degree.
  destruct (filter _ (edges g)) as [|[[a b] ty] l] eqn:E; [reflexivity|].
  exfalso.
  assert (Hin : In (a, b, ty) (filter (fun e => Nat.eqb (fst (fst e)) u) (edges g)))
    by (rewrite E; left; reflexivity).
  apply filter_In in Hin. destruct Hin as [Hin Hu]. simpl in Hu.
  apply Nat.eqb_eq in Hu. subst a. exact (H _ _ Hin).
Qed.

Lemma extends_old_edges s s' u v ty :
  extends s s' -> u < next_id s ->
  (In (u, v, ty) (edges (graph s')) <-> In (u, v, ty) (edges (graph s))).
Proof.
  intros [_ [He [Hk _]]] Hlt. split; intros H.
  - destruct (He _ H) as [H'|H']; [exact H'|simpl in H'; lia].
  - apply Hk; assumption.
Qed.

(** X2: an insertion gives no action that was in the graph a new edge to
    wait for, and takes none of its edges away: for an id below the
    counter, the outgoing edges after the insertion are the outgoing edges
    before it, so an action that could run before the insertion can run
    after it, and one that could not still cannot. *)
Theorem insertion_leaves_old_actions_unconstrained fuel a parent s s' x :
  add_action_and_effects fuel a parent s = Ok s' ->
  fst x < next_id s ->
  (forall v ty, In (fst x, v, ty) (edges (graph s'))
                <-> In (fst x, v, ty) (edges (graph s)))
  /\ eligible (graph s') x = eligible (graph s) x.
Proof.
  intros H Hlt. apply add_action_and_effects_extends in H.
  assert (Hiff : forall v ty, In (fst x, v, ty) (edges (graph s'))
                              <-> In (fst x, v, ty) (edges (graph s)))
    by (intros v ty; apply extends_old_edges; assumption).
  split; [exact Hiff|].
  unfold eligible. f_equal.
  destruct (Nat.eqb_spec (out_degree (graph s) (fst x)) 0) as [Hz|Hnz].
  - apply Nat.eqb_eq. apply out_degree_zero_iff. intros v ty Hin.
    apply Hiff in Hin. revert Hin. apply out_degree_zero. exact Hz.
  - apply Nat.eqb_neq. intros Hz. apply Hnz.
    apply out_degree_zero_iff. intros v ty Hin.
    apply Hiff in Hin. revert Hin. apply out_degree_zero. exact Hz.
Qed.

(** X3: after an insertion that returns, the new action waits for its
    parent, for every action that was in the graph at its ROS node, and for
    every RxAction that was in the graph for a topic that the model declares
    as published by the cause of the new action. *)
Theorem insertion_edges_of_new_action fuel a parent s s' :
  add_action_and_effects fuel a parent s = Ok s' ->
  (forall p, parent = Some p -> edge_in (graph s') (next_id s) p)
  /\ (forall x, In x (nodes (graph s)) -> fst x <> next_id s ->
                action_node (nd_data (snd x)) = action_node a ->
                edge_in (graph s') (next_id s) (fst x))
  /\ (forall m T x,
         node_model_by_name (action_node a) = Ok m ->
         In (TopicPublish T) (effects_for_input m (cause_of a)) ->
         In x (nodes (graph s)) -> is_rx_on T x = true ->
         edge_in (graph s') (next_id s) (fst x)).
Proof.
  destruct fuel as [|fuel]; [discriminate|]. intros H.
  apply add_action_and_effects_unfold in H. destruct H as (m & Hm & _ & H).
  set (effects := effects_for_input m (cause_of a)) in *.
  set (s1 := inserted a parent effects s) in H.
  assert (He : extends s1 s').
  { revert H. apply (foldM_inv (fun t => extends s1 t)); [apply extends_refl|].
    intros eff t t' _ Ht. destruct eff; try (intros E; inversion E; subst; exact Ht).
    apply (foldM_inv (fun t => extends s1 t)); [exact Ht|].
    intros nm u u' _ Hu. destruct (existsb _ _); [|intros E; inversion E; subst; exact Hu].
    intros E. apply add_action_and_effects_extends in E. exact (extends_trans _ _ _ Hu E). }
  destruct He as [_ [_ [_ [Hmono _]]]].
  set (n := next_id s) in *. set (nd := mkNodeData a None).
  set (g0 := add_node n nd (graph s)).
  set (g1 := add_edges_to n SAME_NODE (at_same_node n a) (nodes g0) g0).
  set (g2 := match parent with Some p => add_edge n p CAUSALITY g1 | None => g1 end).
  assert (Hg : graph s1 = same_topic_edges effects n g2).
  { unfold s1, inserted. simpl. rewrite <- same_topic_edges_fold. reflexivity. }
  assert (Hn2 : nodes g2 = nodes (graph s) ++ [(n, nd)]).
  { unfold g2. destruct parent; [rewrite nodes_add_edge|];
      unfold g1; rewrite nodes_add_edges_to; reflexivity. }
  split; [|split].
  - intros p ->. apply Hmono. rewrite Hg. apply same_topic_edges_edge_in.
    unfold g2. exists CAUSALITY. apply edge_in_add_edge_new.
  - intros x Hx Hne Hnode. apply Hmono. rewrite Hg. apply same_topic_edges_edge_in.
    assert (H1 : edge_in g1 n (fst x)).
    { unfold g1. apply edge_in_add_edges_to_new.
      - simpl. apply in_or_app; left; exact Hx.
      - unfold at_same_node. rewrite Hnode, String.eqb_refl. simpl.
        apply negb_true_iff, Nat.eqb_neq. exact Hne. }
    unfold g2. destruct parent; [apply edge_in_add_edge_old|]; exact H1.
  - intros m' T x Hm' HT Hx Hrx. rewrite Hm in Hm'. inversion Hm'; subst m'.
    apply Hmono. rewrite Hg. apply (same_topic_edges_new _ _ _ T); auto.
    rewrite Hn2. apply in_or_app; left; exact Hx.
Qed.

(** ** The graph along a run *)

(** X4: in every state that a run reaches, the ids of the actions are
    distinct and below the id counter, every action is at a ROS node that
    has a model, and of two actions at the same ROS node the one inserted
    later has an edge to the one inserted earlier. *)
Theorem reachable_actions_ordered_per_node s :
  reachable s ->
  NoDup (node_ids (graph s))
  /\ (forall id, In id (node_ids (graph s)) -> id < next_id s)
  /\ models_known (graph s)
  /\ (forall u a v b,
         In (u, a) (nodes (graph s)) -> In (v, b) (nodes (graph s)) -> u < v ->
         action_node (nd_data a) = action_node (nd_data b) ->
         edge_in (graph s) v u).
Proof.
  intros Hr. pose proof (reachable_inv _ Hr) as [HG HS].
  split; [exact (gc_nodup _ _ HG)|]. split; [exact (gc_ids _ _ HG)|].
  split; [|exact HS].
  intros [id nd] Hx. exact (gc_models _ _ HG _ _ Hx).
Qed.

Lemma foldM_extends (f : Action -> Orchestrator -> Res Orchestrator) :
  (forall a t t', f a t = Ok t' -> extends t t') ->
  forall l s s', foldM f l s = Ok s' -> extends s s'.
Proof.
  intros Hf l s s'. apply (foldM_inv (fun t => extends s t)); [apply extends_refl|].
  intros a t t' _ Ht E. exact (extends_trans _ _ _ Ht (Hf _ _ _ E)).
Qed.

Lemma add_topic_input_extends t topic s s' :
  add_topic_input t topic s = Ok s' -> extends s s'.
Proof.
  unfold add_topic_input. apply foldM_extends.
  intros a u u'. apply add_action_and_effects_extends.
Qed.

(** What a call keeps when no action can change its state: the nodes, as a
    prefix of the new nodes, and the publications. *)
Lemma request_next_input_grows s s' :
  request_next_input s = Ok s' ->
  (exists l, nodes (graph s') = nodes (graph s) ++ l) /\ published s' = published s.
Proof.
  unfold request_next_input.
  destruct (next_input s) as [[topic f|time f]|]; [| |discriminate].
  - simpl. destruct (simulator_time s) as [now|]; [|discriminate].
    destruct (add_topic_input now topic (set_next_input None s)) as [s2|] eqn:E;
      simpl; [|discriminate].
    intros H; inversion H; subst. simpl.
    apply add_topic_input_extends in E.
    destruct E as [[l [Hn _]] [_ [_ [_ [_ [_ [_ [Hp _]]]]]]]].
    simpl in Hn, Hp. eauto.
  - rewrite add_pending_timers_until_eq. simpl.
    destruct (simulator_time s); simpl; [|discriminate].
    intros H; inversion H; subst. simpl. split; [exists []; symmetry; apply app_nil_r|reflexivity].
Qed.

Lemma publications_of_waiting g l :
  (forall x, In x l -> waiting_rx x) -> publications_of g l = [].
Proof.
  induction l as [|x l IH]; simpl; intros H; [reflexivity|].
  rewrite (waiting_not_eligible g x (H x (or_introl eq_refl))). simpl.
  apply IH. intros y Hy; apply H; right; exact Hy.
Qed.

Lemma process_loop_waiting_id :
  forall rounds s s',
    all_waiting (graph s) -> process_loop rounds s = Ok s' ->
    nodes (graph s') = nodes (graph s) /\ published s' = published s
    /\ next_input s' = next_input s.
Proof.
  induction rounds as [|k IH]; intros s s' HW; simpl; [discriminate|].
  destruct (process_pass (graph s) (nodes (graph s)) (published s) false)
    as [[[l2 p2] b2]|e] eqn:E; simpl; [|discriminate].
  apply process_pass_ok in E. destruct E as (-> & -> & _).
  rewrite map_id_on.
  2:{ intros x Hx. unfold run_eligible.
      rewrite (waiting_not_eligible _ _ (HW _ Hx)). reflexivity. }
  rewrite publications_of_waiting, app_nil_r by exact HW.
  destruct b2.
  - intros H. apply IH in H; [|exact HW]. exact H.
  - intros H; inversion H; subst. simpl. auto.
Qed.

Lemma process_grows s s' :
  all_waiting (graph s) -> process s = Ok s' ->
  (exists l, nodes (graph s') = nodes (graph s) ++ l) /\ published s' = published s.
Proof.
  intros HW. unfold process.
  destruct (process_loop _ s) as [s1|] eqn:E; simpl; [|discriminate].
  apply process_loop_waiting_id in E; [|exact HW]. destruct E as (Hn & Hp & _).
  rewrite <- Hn, <- Hp.
  destruct (next_input s1) as [ni|];
    [|intros H; inversion H; subst; split; [exists []; symmetry; apply app_nil_r|reflexivity]].
  destruct (ready_for_next_input s1) as [[|]|]; simpl; try discriminate.
  - apply request_next_input_grows.
  - intros H; inversion H; subst; split; [exists []; symmetry; apply app_nil_r|reflexivity].
Qed.

Lemma step_only_grows ev s s' :
  reachable s -> step ev s = Ok s' ->
  (exists l, nodes (graph s') = nodes (graph s) ++ l)
  /\ published s' = published s.
Proof.
  intros Hr. pose proof (reachable_waiting _ Hr) as HW.
  destruct ev as [topic|t|topic msg|node_name]; simpl.
  - unfold wait_until_publish_allowed.
    destruct (next_input s); [discriminate|].
    destruct (simulator_time s); [|discriminate].
    simpl. destruct (negb _).
    + destruct (request_next_input _) as [s2|] eqn:E; simpl; [|discriminate].
      intros H; inversion H; subst.
      apply request_next_input_grows in E. exact E.
    + intros H; inversion H; subst. simpl.
      split; [exists []; symmetry; apply app_nil_r|reflexivity].
  - unfold wait_until_time_publish_allowed.
    destruct (next_input s); [discriminate|].
    simpl. destruct (negb _).
    + destruct (request_next_input _) as [s2|] eqn:E; simpl; [|discriminate].
      intros H; inversion H; subst.
      apply request_next_input_grows in E. exact E.
    + intros H; inversion H; subst. simpl.
      split; [exists []; symmetry; apply app_nil_r|reflexivity].
  - unfold interception_subscription_callback.
    destruct (String.eqb topic "clock");
      [intros H; inversion H; subst; split; [exists []; symmetry; apply app_nil_r|reflexivity]|].
    rewrite (find_running_action_waiting topic _ HW). cbv beta iota.
    match goal with
    | |- context [if ?b then _ else Err ActionNotFoundError] => destruct b
    end; [|discriminate].
    destruct (earliest_waiting_timestep topic (nodes (graph s))) as [it|]; simpl;
      [|discriminate].
    destruct (mapM _ (nodes (graph s))) as [l|] eqn:E; simpl; [|discriminate].
    apply mapM_id_on in E.
    + subst l. intros H. apply process_grows in H; [exact H|exact HW].
    + intros x y Hx. apply buffer_at_external_no_timestep.
      exact (proj2 (HW _ Hx)).
  - unfold status_callback.
    rewrite (find_running_action_status_waiting node_name _ HW). discriminate.
Qed.

(** X5: along a run no call completes, removes, changes or starts an action:
    after every call that returns, the nodes of the graph are the nodes
    before the call, as they were and in their order, followed by the nodes
    that the call has inserted. *)
Theorem reachable_step_only_grows ev s s' :
  reachable s -> step ev s = Ok s' ->
  exists l, nodes (graph s') = nodes (graph s) ++ l.
Proof.
  intros Hr E. exact (proj1 (step_only_grows ev s s' Hr E)).
Qed.

(** X6: in every state that a run reaches, nothing has been published on an
    interception publisher, and every action is an RxAction in state
    WAITING. *)
Theorem reachable_nothing_published s :
  reachable s ->
  published s = []
  /\ forall x, In x (nodes (graph s)) ->
        exists n ts c tp d, nd_data (snd x) = RxAction WAITING n ts c tp d.
Proof.
  intros Hr. split.
  - induction Hr as [|t0|ev s s' Hr IH E]; try reflexivity.
    destruct (step_only_grows ev s s' Hr E) as [_ Hp]. congruence.
  - intros x Hx. exact (proj1 (reachable_waiting _ Hr _ Hx)).
Qed.

(** ** The scheduling loop, again *)

Lemma process_pass_ok_publishable g :
  forall l pubs rep r,
    process_pass g l pubs rep = Ok r ->
    forall x, In x l -> eligible g x = true -> publishable x = true.
Proof.
  induction l as [|[id nd] l IH]; intros pubs rep r; simpl; [intros _ x []|].
  destruct (Nat.ltb 0 (out_degree g id)) eqn:Hd;
    [|destruct (negb (ActionState_eqb (action_state (nd_data nd)) READY)) eqn:Hs].
  - destruct (process_pass g l pubs rep) as [r'|] eqn:E; simpl; [|discriminate].
    intros _ x [<-|Hx] He.
    + rewrite (eligible_false_deg _ _ _ Hd) in He. discriminate.
    + exact (IH _ _ _ E x Hx He).
  - destruct (process_pass g l pubs rep) as [r'|] eqn:E; simpl; [|discriminate].
    intros _ x [<-|Hx] He.
    + rewrite (eligible_false_state _ _ _ Hs) in He. discriminate.
    + exact (IH _ _ _ E x Hx He).
  - destruct (nd_data nd) as [st n ts c tp d|] eqn:Hdata; [|discriminate].
    match goal with
    | |- context [if ?b then bind _ _ else _] => destruct b eqn:Hpub
    end;
      [|match goal with
        | |- (if ?b then _ else _) = _ -> _ => destruct b; discriminate
        end].
    destruct (process_pass g l (pubs ++ [(n, tp, d)]) true) as [r'|] eqn:E; simpl;
      [|discriminate].
    intros _ x [<-|Hx] He.
    + unfold publishable. simpl. rewrite Hdata. exact Hpub.
    + exact (IH _ _ _ E x Hx He).
Qed.

Lemma process_pass_err_kind g :
  forall l pubs rep e,
    process_pass g l pubs rep = Err e ->
    e = NotImplementedError \/ exists key, e = KeyError key.
Proof.
  induction l as [|[id nd] l IH]; intros pubs rep e; simpl; [discriminate|].
  destruct (Nat.ltb 0 (out_degree g id)).
  { destruct (process_pass g l pubs rep) as [[[? ?] ?]|e'] eqn:E; simpl; [discriminate|].
    intros H; inversion H; subst. exact (IH _ _ _ E). }
  destruct (negb _).
  { destruct (process_pass g l pubs rep) as [[[? ?] ?]|e'] eqn:E; simpl; [discriminate|].
    intros H; inversion H; subst. exact (IH _ _ _ E). }
  destruct (nd_data nd) as [st n ts c tp d|]; [|intros H; inversion H; auto].
  match goal with
  | |- context [if ?b then bind _ _ else _] => destruct b
  end.
  - destruct (process_pass g l _ true) as [[[? ?] ?]|e'] eqn:E; simpl; [discriminate|].
    intros H; inversion H; subst. exact (IH _ _ _ E).
  - match goal with
    | |- (if ?b then _ else _) = _ -> _ => destruct b
    end; intros H; inversion H; eauto.
Qed.

(** X7: the loop of __process returns if and only if every eligible action
    is an RxAction whose node and topic have an interception publisher;
    otherwise it raises NotImplementedError (an eligible timer action) or
    KeyError (no publisher). *)
Theorem process_loop_returns_iff k s :
  ((exists s', process_loop (S (S k)) s = Ok s')
   <-> (forall x, In x (nodes (graph s)) -> eligible (graph s) x = true ->
                  publishable x = true))
  /\ (forall e, process_loop (S (S k)) s = Err e ->
                 e = NotImplementedError \/ exists key, e = KeyError key).
Proof.
  split; [split|].
  - intros [s' H].
    destruct (process_pass (graph s) (nodes (graph s)) (published s) false)
      as [r|e] eqn:E.
    + exact (process_pass_ok_publishable _ _ _ _ _ E).
    + rewrite (process_loop_err _ s e E) in H. discriminate.
  - intros Hp. eexists.
    exact (process_loop_ok k s _ _ _
             (process_pass_total (graph s) (nodes (graph s)) (published s) false Hp)).
  - intros e H.
    destruct (process_pass (graph s) (nodes (graph s)) (published s) false)
      as [[[l2 p2] b2]|e'] eqn:E.
    + rewrite (process_loop_ok k s _ _ _ E) in H. discriminate.
    + rewrite (process_loop_err _ s e' E) in H. inversion H; subst.
      exact (process_pass_err_kind _ _ _ _ _ E).
Qed.

(** X8: the loop of __process publishes a buffered message once: run again
    on the state it has returned, it returns that state, with no further
    publication and no further change; it never removes a node or changes
    an edge. *)
Theorem process_loop_idempotent k k' s s' :
  process_loop (S (S k)) s = Ok s' ->
  process_loop (S k') s' = Ok s'
  /\ node_ids (graph s') = node_ids (graph s)
  /\ edges (graph s') = edges (graph s).
Proof.
  intros H. pose proof (process_loop_result k s s' H) as Hs'.
  assert (Hidle : forall x, In x (nodes (graph s')) -> eligible (graph s') x = false).
  { intros x Hx. subst s'. simpl in Hx. apply in_map_iff in Hx.
    destruct Hx as [y [<- _]]. simpl. rewrite eligible_edges.
    apply run_eligible_not_eligible. }
  split; [|split].
  - cbn [process_loop].
    rewrite (process_pass_idle (graph s') (nodes (graph s')) (published s') false Hidle).
    cbn [bind]. destruct s' as [ni st [nl el] nid pb nf fd]; reflexivity.
  - subst s'. unfold node_ids; simpl. rewrite map_map.
    apply map_ext. intros x. unfold run_eligible. destruct (eligible _ x); reflexivity.
  - subst s'. reflexivity.
Qed.

(** ** Completion of a running action *)

(** X9: the action that __find_running_action returns is in the graph, is
    RUNNING, and its model declares the publication of the topic; no
    RUNNING action before it in the order of the nodes declares it, so of
    several candidates the one inserted first is taken. *)
Theorem find_running_action_sound T l id :
  find_running_action T l = Ok id ->
  exists l1 nd l2,
    l = l1 ++ (id, nd) :: l2
    /\ action_state (nd_data nd) = RUNNING
    /\ declares_publish (nd_data nd) T
    /\ forall x, In x l1 -> action_state (nd_data (snd x)) = RUNNING ->
                 ~ declares_publish (nd_data (snd x)) T.
Proof.
  revert id. induction l as [|[i nd] l IH]; simpl; intros id; [discriminate|].
  destruct (ActionState_eqb (action_state (nd_data nd)) RUNNING) eqn:Hst.
  - destruct (node_model_by_name (action_node (nd_data nd))) as [m|] eqn:Hm; simpl;
      [|discriminate].
    destruct (existsb _ _) eqn:E.
    + intros H; inversion H; subst. exists [], nd, l.
      split; [reflexivity|]. split; [apply ActionState_eqb_eq; exact Hst|].
      split; [|intros x []].
      exists m. split; [exact Hm|]. apply existsb_Effect. exact E.
    + intros H. destruct (IH _ H) as (l1 & nd' & l2 & -> & H1 & H2 & H3).
      exists ((i, nd) :: l1), nd', l2. split; [reflexivity|]. split; [exact H1|].
      split; [exact H2|].
      intros x [<-|Hx] Hr; [|exact (H3 x Hx Hr)].
      simpl. intros [m' [Hm' Hin]]. rewrite Hm in Hm'. inversion Hm'; subst m'.
      apply existsb_Effect in Hin. congruence.
  - intros H. destruct (IH _ H) as (l1 & nd' & l2 & -> & H1 & H2 & H3).
    exists ((i, nd) :: l1), nd', l2. split; [reflexivity|]. split; [exact H1|].
    split; [exact H2|].
    intros x [<-|Hx] Hr; [|exact (H3 x Hx Hr)].
    simpl in Hr. apply ActionState_eqb_eq in Hr. congruence.
Qed.

(** X10: the action that __find_running_action_status returns is in the
    graph, is RUNNING at the named node, and its model declares a status
    message; no such action precedes it in the order of the nodes. *)
Theorem find_running_action_status_sound N l id :
  find_running_action_status N l = Ok id ->
  exists l1 nd l2,
    l = l1 ++ (id, nd) :: l2
    /\ action_state (nd_data nd) = RUNNING
    /\ action_node (nd_data nd) = N
    /\ declares_status (nd_data nd)
    /\ forall x, In x l1 -> action_state (nd_data (snd x)) = RUNNING ->
                 action_node (nd_data (snd x)) = N ->
                 ~ declares_status (nd_data (snd x)).
Proof.
  revert id. induction l as [|[i nd] l IH]; simpl; intros id; [discriminate|].
  destruct (ActionState_eqb (action_state (nd_data nd)) RUNNING
            && String.eqb (action_node (nd_data nd)) N) eqn:Hst.
  - apply andb_true_iff in Hst. destruct Hst as [Hst Hn].
    apply ActionState_eqb_eq in Hst. apply String.eqb_eq in Hn.
    destruct (node_model_by_name (action_node (nd_data nd))) as [m|] eqn:Hm; simpl;
      [|discriminate].
    destruct (existsb _ _) eqn:E.
    + intros H; inversion H; subst. exists [], nd, l.
      split; [reflexivity|]. split; [exact Hst|]. split; [reflexivity|].
      split; [|intros x []].
      exists m. split; [exact Hm|]. apply existsb_Effect. exact E.
    + intros H. destruct (IH _ H) as (l1 & nd' & l2 & -> & H1 & H2 & H3 & H4).
      exists ((i, nd) :: l1), nd', l2. split; [reflexivity|]. split; [exact H1|].
      split; [exact H2|]. split; [exact H3|].
      intros x [<-|Hx] Hr Hx'; [|exact (H4 x Hx Hr Hx')].
      simpl. intros [m' [Hm' Hin]]. rewrite Hm in Hm'. inversion Hm'; subst m'.
      apply existsb_Effect in Hin. congruence.
  - intros H. destruct (IH _ H) as (l1 & nd' & l2 & -> & H1 & H2 & H3 & H4).
    exists ((i, nd) :: l1), nd', l2. split; [reflexivity|]. split; [exact H1|].
    split; [exact H2|]. split; [exact H3|].
    intros x [<-|Hx] Hr Hx'; [|exact (H4 x Hx Hr Hx')].
    simpl in Hr, Hx'. apply ActionState_eqb_eq in Hr. apply String.eqb_eq in Hx'.
    rewrite Hr, Hx' in Hst. discriminate.
Qed.


Lemma mapM_map {A B : Type} (f : A -> Res B) (h : A -> B) :
  forall l, (forall x, In x l -> f x = Ok (h x)) -> mapM f l = Ok (map h l).
Proof.
  induction l as [|x l IH]; simpl; intros H; [reflexivity|].
  rewrite (H x (or_introl eq_refl)). simpl.
  rewrite IH by (intros y Hy; apply H; right; exact Hy). reflexivity.
Qed.


Lemma process_loop_ids :
  forall rounds s s',
    process_loop rounds s = Ok s' ->
    node_ids (graph s') = node_ids (graph s) /\ next_id s' = next_id s.
Proof.
  induction rounds as [|k IH]; intros s s'; simpl; [discriminate|].
  destruct (process_pass (graph s) (nodes (graph s)) (published s) false)
    as [[[l2 p2] b2]|e] eqn:E; simpl; [|discriminate].
  apply process_pass_ok in E. destruct E as (-> & _ & _).
  assert (Hids : map fst (map (run_eligible (graph s)) (nodes (graph s)))
                 = node_ids (graph s)).
  { unfold node_ids. rewrite map_map. apply map_ext.
    intros x. unfold run_eligible. destruct (eligible _ x); reflexivity. }
  destruct b2.
  - intros H. apply IH in H. simpl in H. unfold node_ids in H at 2. simpl in H.
    rewrite Hids in H. exact H.
  - intros H; inversion H; subst. unfold node_ids at 1. simpl. auto.
Qed.

Lemma request_next_input_ids s s' :
  request_next_input s = Ok s' ->
  exists l, node_ids (graph s') = node_ids (graph s) ++ l
            /\ forall i, In i l -> next_id s <= i.
Proof.
  unfold request_next_input.
  destruct (next_input s) as [[topic f|time f]|]; [| |discriminate].
  - simpl. destruct (simulator_time s) as [now|]; [|discriminate].
    destruct (add_topic_input now topic (set_next_input None s)) as [s2|] eqn:E;
      simpl; [|discriminate].
    intros H; inversion H; subst. simpl.
    apply add_topic_input_extends in E.
    destruct E as [[l [Hn Hb]] _]. simpl in Hn, Hb.
    exists (map fst l). unfold node_ids. rewrite Hn, map_app. split; [reflexivity|].
    intros i Hi. apply in_map_iff in Hi. destruct Hi as [x [<- Hx]].
    exact (proj1 (Hb _ Hx)).
  - rewrite add_pending_timers_until_eq. simpl.
    destruct (simulator_time s); simpl; [|discriminate].
    intros H; inversion H; subst. simpl. exists []. rewrite app_nil_r.
    split; [reflexivity|intros i []].
Qed.

(** __process removes no node: the ids of the graph are kept, in their
    order, and the ids that follow are new. *)
Lemma process_ids s s' :
  process s = Ok s' ->
  exists l, node_ids (graph s') = node_ids (graph s) ++ l
            /\ forall i, In i l -> next_id s <= i.
Proof.
  unfold process.
  destruct (process_loop _ s) as [s1|] eqn:E; simpl; [|discriminate].
  apply process_loop_ids in E. destruct E as [Hi Hn]. rewrite <- Hi, <- Hn.
  assert (Hsame : forall t, exists l, node_ids (graph t) = node_ids (graph t) ++ l
                                      /\ forall i, In i l -> next_id t <= i).
  { intros t. exists []. rewrite app_nil_r. split; [reflexivity|intros i []]. }
  destruct (next_input s1) as [ni|]; [|intros H; inversion H; subst; apply Hsame].
  destruct (ready_for_next_input s1) as [[|]|]; simpl; try discriminate.
  - apply request_next_input_ids.
  - intros H; inversion H; subst; apply Hsame.
Qed.

Lemma node_ids_remove_node cid g i :
  In i (node_ids (remove_node cid g)) <-> In i (node_ids g) /\ i <> cid.
Proof.
  unfold node_ids; simpl. rewrite !in_map_iff. split.
  - intros [x [Hx Hin]]. apply filter_In in Hin. destruct Hin as [Hin Hne].
    apply negb_true_iff, Nat.eqb_neq in Hne. split; [exists x; auto|congruence].
  - intros [[x [Hx Hin]] Hne]. exists x. split; [exact Hx|].
    apply filter_In. split; [exact Hin|].
    apply negb_true_iff, Nat.eqb_neq. congruence.
Qed.

Lemma find_running_action_status_in N :
  forall l cid, find_running_action_status N l = Ok cid -> In cid (map fst l).
Proof.
  induction l as [|[i nd] l IH]; simpl; intros cid; [discriminate|].
  destruct (_ && _).
  - destruct (node_model_by_name _); simpl; [|discriminate].
    destruct (existsb _ _); [intros H; inversion H; auto|].
    intros H; right; exact (IH _ H).
  - intros H; right; exact (IH _ H).
Qed.

(** X12: when the ids of the graph are below the id counter, a status
    message that the callback accepts removes one action, the first RUNNING
    action at the named node that declares a status message: that action is
    not in the graph afterwards, every other action still is, and whatever
    else is in the graph afterwards has a new id. *)
Theorem status_callback_removes_completed N s s' :
  (forall i, In i (node_ids (graph s)) -> i < next_id s) ->
  status_callback N s = Ok s' ->
  exists cid,
    find_running_action_status N (nodes (graph s)) = Ok cid
    /\ ~ In cid (node_ids (graph s'))
    /\ (forall i, In i (node_ids (graph s)) -> i <> cid -> In i (node_ids (graph s')))
    /\ (forall i, In i (node_ids (graph s')) ->
                   In i (node_ids (graph s)) \/ next_id s <= i).
Proof.
  intros Hids. unfold status_callback.
  destruct (find_running_action_status N (nodes (graph s))) as [cid|] eqn:Hf; simpl;
    [|discriminate].
  intros H. exists cid. split; [reflexivity|].
  apply process_ids in H. simpl in H. destruct H as [l [Hn Hl]].
  assert (Hcid : In cid (node_ids (graph s))).
  { exact (find_running_action_status_in _ _ _ Hf). }
  split; [|split].
  - rewrite Hn. intros Hin. apply in_app_or in Hin. destruct Hin as [Hin|Hin].
    + apply node_ids_remove_node in Hin. destruct Hin as [_ Hne]. congruence.
    + specialize (Hl _ Hin). specialize (Hids _ Hcid). lia.
  - intros i Hi Hne. rewrite Hn. apply in_or_app; left.
    apply node_ids_remove_node. auto.
  - intros i Hi. rewrite Hn in Hi. apply in_app_or in Hi. destruct Hi as [Hi|Hi].
    + apply node_ids_remove_node in Hi. left; tauto.
    + right. exact (Hl _ Hi).
Qed.

(** ** External inputs when the nodes carry a timestep *)

Lemma earliest_fold T :
  forall l acc,
    (forall x, In x l -> waiting_on T x = true -> exists t, nd_timestep (snd x) = Some t) ->
    exists r,
      foldM
        (fun x input_timestep =>
           match nd_data (snd x) with
           | RxAction st _ _ _ tp _ =>
               if negb (String.eqb tp T) then Ok input_timestep
               else if negb (ActionState_eqb st WAITING) then Ok input_timestep
               else
                 match nd_timestep (snd x) with
                 | None => Err (KeyError "timestep")
                 | Some t =>
                     match input_timestep with
                     | None => Ok (Some t)
                     | Some it => if Z.ltb t it then Ok (Some t) else Ok (Some it)
                     end
                 end
           | TimerCallbackAction _ _ _ _ _ => Ok input_timestep
           end)
        l acc = Ok r
      /\ match r with
         | None => acc = None /\ forall x, In x l -> waiting_on T x = false
         | Some m =>
             (acc = Some m
              \/ exists x, In x l /\ waiting_on T x = true /\ nd_timestep (snd x) = Some m)
             /\ (forall a, acc = Some a -> (m <= a)%Z)
             /\ (forall x t, In x l -> waiting_on T x = true ->
                              nd_timestep (snd x) = Some t -> (m <= t)%Z)
         end.
Proof.
  induction l as [|x l IH]; intros acc Hts.
  - exists acc. split; [reflexivity|]. destruct acc as [a|].
    + split; [left; reflexivity|]. split.
      * intros a' H; inversion H; lia.
      * intros x t [].
    + split; [reflexivity|intros x []].
  - assert (Hl : forall y, In y l -> waiting_on T y = true ->
                           exists t, nd_timestep (snd y) = Some t)
      by (intros y Hy; apply Hts; right; exact Hy).
    cbn [foldM].
    destruct (waiting_on T x) eqn:Hw.
    + destruct (Hts x (or_introl eq_refl) Hw) as [t Ht].
      unfold waiting_on in Hw.
      destruct (nd_data (snd x)) as [st n ts c tp d|] eqn:Hd; [|discriminate].
      apply andb_true_iff in Hw. destruct Hw as [H1 H2].
      rewrite H1, H2, Ht. cbn [negb].
      assert (Hwx : waiting_on T x = true)
        by (unfold waiting_on; rewrite Hd, H1, H2; reflexivity).
      set (acc' := match acc with
                   | None => Some t
                   | Some it => if Z.ltb t it then Some t else Some it
                   end).
      match goal with
      | |- exists r, match ?m with Ok _ => _ | Err _ => _ end = _ /\ _ =>
          assert (Hstep : m = Ok acc')
      end.
      { unfold acc'. destruct acc as [it|]; [destruct (Z.ltb t it)|]; reflexivity. }
      rewrite Hstep.
      destruct (IH acc' Hl) as [r [Hr Hpost]]. exists r. split; [exact Hr|].
      assert (Hacc' : exists m', acc' = Some m' /\ (m' <= t)%Z
                                 /\ (forall a, acc = Some a -> (m' <= a)%Z)
                                 /\ (acc = Some m' \/ m' = t)).
      { unfold acc'. destruct acc as [it|].
        - destruct (Z.ltb_spec t it).
          + exists t. repeat split; auto; try lia. intros a Ha; inversion Ha; lia.
          + exists it. repeat split; auto; try lia. intros a Ha; inversion Ha; lia.
        - exists t. repeat split; auto; try lia. intros a Ha; discriminate. }
      destruct Hacc' as (m' & Hm' & Hle & Hacc & Hor).
      destruct r as [m|].
      * destruct Hpost as (Hex & Hmin1 & Hmin2).
        specialize (Hmin1 _ Hm').
        split; [|split].
        -- destruct Hex as [He|[y [Hy [Hwy Hty]]]].
           ++ rewrite Hm' in He. inversion He; subst m'.
              destruct Hor as [Ho| ->]; [left; exact Ho|].
              right. exists x. split; [left; reflexivity|]. auto.
           ++ right. exists y. split; [right; exact Hy|]. auto.
        -- intros a Ha. specialize (Hacc _ Ha). lia.
        -- intros y ty [<-|Hy] Hwy Hty.
           ++ rewrite Ht in Hty. inversion Hty; subst. lia.
           ++ exact (Hmin2 _ _ Hy Hwy Hty).
      * destruct Hpost as [Hnone _]. rewrite Hm' in Hnone. discriminate.
    + match goal with
      | |- exists r, match ?m with Ok _ => _ | Err _ => _ end = _ /\ _ =>
          assert (Hskip : m = Ok acc)
      end.
      { unfold waiting_on in Hw. destruct (nd_data (snd x)) as [st n ts c tp d|];
          [|reflexivity].
        destruct (String.eqb tp T); simpl; [|reflexivity].
        simpl in Hw. rewrite Hw. reflexivity. }
      rewrite Hskip.
      destruct (IH acc Hl) as [r [Hr Hpost]]. exists r. split; [exact Hr|].
      destruct r as [m|].
      * destruct Hpost as (Hex & Hmin1 & Hmin2). split; [|split; [exact Hmin1|]].
        -- destruct Hex as [He|[y [Hy Hrest]]]; [left; exact He|].
           right. exists y. split; [right; exact Hy|exact Hrest].
        -- intros y ty [<-|Hy] Hwy Hty; [congruence|exact (Hmin2 _ _ Hy Hwy Hty)].
      * destruct Hpost as [Hnone Hall]. split; [exact Hnone|].
        intros y [<-|Hy]; [exact Hw|exact (Hall _ Hy)].
Qed.

Lemma buffer_at_external g T msg r x :
  (waiting_on T x = true ->
   r <> None /\ (exists t, nd_timestep (snd x) = Some t) /\ no_data x = true) ->
  buffer_at g T msg None r x = Ok (ready_external T msg r x).
Proof.
  destruct x as [id nd]. unfold buffer_at, ready_external, waiting_on, no_data. simpl.
  destruct (nd_data nd) as [st n ts c tp d|];
    [|intros _; destruct r; [destruct (nd_timestep nd)|]; reflexivity].
  destruct (String.eqb tp T); simpl;
    [|intros _; destruct r; [destruct (nd_timestep nd)|]; reflexivity].
  destruct (ActionState_eqb st WAITING); simpl;
    [|intros _; destruct r; [destruct (nd_timestep nd)|]; reflexivity].
  intros H. destruct (H eq_refl) as [Hr [[t Ht] Hd]].
  destruct r as [m|]; [|congruence]. rewrite Ht. simpl.
  destruct (Z.eqb t m); simpl; [|reflexivity].
  destruct d; [discriminate|reflexivity].
Qed.

(** X13: what the external-input branch of the interception callback does
    when the key "timestep" is there.  If the topic is an external input
    that no running action publishes, and every waiting RxAction of the
    topic is at a node that carries a timestep and has no message buffered,
    then the callback takes the least timestep of these actions, gives the
    message to exactly the waiting RxActions of the topic at that timestep,
    makes them READY, and goes on with __process; if no RxAction of the
    topic waits, it changes no action and raises no error. *)
Theorem external_input_buffered_at_earliest_timestep T msg s :
  T <> "clock" ->
  find_running_action T (nodes (graph s)) = Err ActionNotFoundError ->
  is_external_input T = true ->
  (forall x, In x (nodes (graph s)) -> waiting_on T x = true ->
             (exists t, nd_timestep (snd x) = Some t) /\ no_data x = true) ->
  exists r,
    earliest_waiting_timestep T (nodes (graph s)) = Ok r
    /\ match r with
       | None => forall x, In x (nodes (graph s)) -> waiting_on T x = false
       | Some m =>
           (exists x, In x (nodes (graph s)) /\ waiting_on T x = true
                      /\ nd_timestep (snd x) = Some m)
           /\ (forall x t, In x (nodes (graph s)) -> waiting_on T x = true ->
                            nd_timestep (snd x) = Some t -> (m <= t)%Z)
       end
    /\ interception_subscription_callback T msg s
       = process (set_nodes (map (ready_external T msg r) (nodes (graph s))) s).
Proof.
  intros Hc Hf Hext Hts.
  destruct (earliest_fold T (nodes (graph s)) None
              (fun x Hx Hw => proj1 (Hts x Hx Hw))) as [r [Hr Hpost]].
  exists r. split; [exact Hr|]. split.
  - destruct r as [m|].
    + destruct Hpost as (Hex & _ & Hmin). split; [|exact Hmin].
      destruct Hex as [He|He]; [discriminate|exact He].
    + exact (proj2 Hpost).
  - unfold interception_subscription_callback.
    apply String.eqb_neq in Hc. rewrite Hc, Hf. cbv beta iota.
    unfold is_external_input in Hext. rewrite Hext.
    unfold earliest_waiting_timestep in Hr |- *. rewrite Hr. cbn [bind].
    rewrite (mapM_map _ (ready_external T msg r)); [reflexivity|].
    intros x Hx. apply buffer_at_external. intros Hw.
    destruct (Hts x Hx Hw) as [Ht Hd]. split; [|split; assumption].
    destruct r; [discriminate|].
    rewrite (proj2 Hpost x Hx) in Hw. discriminate.
Qed.

(** ** When an insertion returns *)

Lemma Cause_eqb_eq a b : Cause_eqb a b = true <-> a = b.
Proof.
  destruct a, b; simpl; split; intros H; try discriminate.
  - apply String.eqb_eq in H. congruence.
  - inversion H. apply String.eqb_refl.
  - apply Z.eqb_eq in H. congruence.
  - inversion H. apply Z.eqb_refl.
Qed.

Lemma existsb_Cause c l : existsb (Cause_eqb c) l = true <-> In c l.
Proof.
  rewrite existsb_exists. split.
  - intros [x [Hx He]]. apply Cause_eqb_eq in He. subst; exact Hx.
  - intros H. exists c. split; [exact H|]. apply Cause_eqb_eq; reflexivity.
Qed.

Lemma find_unique_name (l : list NodeModel) m :
  NoDup (map get_name l) -> In m l ->
  find (fun m' => String.eqb (get_name m') (get_name m)) l = Some m.
Proof.
  induction l as [|m0 l IH]; simpl; intros Hnd Hin; [contradiction|].
  inversion Hnd as [|? ? Hnot Hnd']; subst.
  destruct Hin as [->|Hin]; [rewrite String.eqb_refl; reflexivity|].
  destruct (String.eqb (get_name m0) (get_name m)) eqn:E; [|apply IH; assumption].
  exfalso. apply Hnot. apply String.eqb_eq in E. rewrite E.
  apply in_map. exact Hin.
Qed.

Lemma node_model_by_name_unique m :
  unique_names -> In m node_models -> node_model_by_name (get_name m) = Ok m.
Proof.
  intros Hu Hin. unfold node_model_by_name.
  rewrite (find_unique_name node_models m Hu Hin). reflexivity.
Qed.

Lemma foldM_total {A S : Type} (f : A -> S -> Res S) :
  forall l,
    (forall x, In x l -> forall t, exists t', f x t = Ok t') ->
    forall s, exists s', foldM f l s = Ok s'.
Proof.
  induction l as [|x l IH]; simpl; intros H s; [eauto|].
  destruct (H x (or_introl eq_refl) s) as [t Ht]. rewrite Ht.
  apply IH. intros y Hy. apply H. right; exact Hy.
Qed.

Lemma foldM_err {A S : Type} (f : A -> S -> Res S) :
  forall l s e, foldM f l s = Err e -> exists x t, In x l /\ f x t = Err e.
Proof.
  induction l as [|x l IH]; simpl; intros s e; [discriminate|].
  destruct (f x s) as [t|e'] eqn:E.
  - intros H. destruct (IH _ _ H) as (y & u & Hy & Hu). exists y, u. auto.
  - intros H; inversion H; subst. exists x, s. auto.
Qed.

Lemma insertion_returns_when_ranked_aux rank fuel m T st ts c d parent s :
  unique_names -> ranked rank ->
  In m node_models -> In (TopicInput T) (get_possible_inputs m) ->
  rank T < fuel ->
  exists s', add_action_and_effects fuel (RxAction st (get_name m) ts c T d) parent s
             = Ok s'.
Proof.
  intros Hu Hr. revert m T st ts c d parent s.
  induction fuel as [|fuel IH]; intros m T st ts c d parent s Hm HT Hlt; [lia|].
  cbn [add_action_and_effects]. unfold add_all_effects_for_cause.
  cbn [action_node]. rewrite (node_model_by_name_unique m Hu Hm). cbn [bind].
  rewrite (proj2 (existsb_Cause _ _) HT). cbn [negb].
  apply foldM_total. intros eff Heff t.
  destruct eff as [U| |sv]; eauto.
  apply foldM_total. intros nm Hnm u.
  destruct (existsb (Cause_eqb (TopicInput U)) (get_possible_inputs nm)) eqn:E; eauto.
  apply IH; [exact Hnm|apply existsb_Cause; exact E|].
  specialize (Hr m T U Hm HT Heff). lia.
Qed.

(** X14: when the node models have distinct names and the topics are
    ranked, the insertion of an RxAction for an input of a model returns as
    soon as the recursion limit exceeds the rank of the topic: it raises no
    KeyError, no AssertionError and no RecursionError. *)
Theorem insertion_returns_when_ranked rank fuel m T st ts c d parent s :
  unique_names -> ranked rank ->
  In m node_models -> In (TopicInput T) (get_possible_inputs m) ->
  rank T < fuel ->
  exists s', add_action_and_effects fuel (RxAction st (get_name m) ts c T d) parent s
             = Ok s'.
Proof. apply insertion_returns_when_ranked_aux. Qed.

Lemma insertion_error_kind fuel m T st ts c d parent s e :
  unique_names ->
  In m node_models -> In (TopicInput T) (get_possible_inputs m) ->
  add_action_and_effects fuel (RxAction st (get_name m) ts c T d) parent s = Err e ->
  e = RecursionError.
Proof.
  intros Hu. revert m T st ts c d parent s.
  induction fuel as [|fuel IH]; intros m T st ts c d parent s Hm HT;
    [intros H; inversion H; reflexivity|].
  cbn [add_action_and_effects]. unfold add_all_effects_for_cause.
  cbn [action_node]. rewrite (node_model_by_name_unique m Hu Hm). cbn [bind].
  rewrite (proj2 (existsb_Cause _ _) HT). cbn [negb].
  intros H. apply foldM_err in H. destruct H as (eff & t & _ & H).
  destruct eff as [U| |sv]; try discriminate.
  apply foldM_err in H. destruct H as (nm & u & Hnm & H).
  destruct (existsb (Cause_eqb (TopicInput U)) (get_possible_inputs nm)) eqn:E;
    [|discriminate].
  eapply IH; [exact Hnm|apply existsb_Cause; exact E|exact H].
Qed.

(** X15: when the node models have distinct names, the insertion of an
    RxAction for an input of a model can fail in one way only, with
    RecursionError. *)
Theorem insertion_fails_only_by_recursion fuel m T st ts c d parent s e :
  unique_names ->
  In m node_models -> In (TopicInput T) (get_possible_inputs m) ->
  add_action_and_effects fuel (RxAction st (get_name m) ts c T d) parent s = Err e ->
  e = RecursionError.
Proof. apply insertion_error_kind. Qed.

(** X16: when the node models have distinct names, a node that publishes
    the topic it receives makes the insertion of an RxAction for that input
    end in RecursionError, whatever the recursion limit. *)
Theorem republished_input_ends_in_recursion_error fuel m T st ts c d parent s :
  unique_names ->
  In m node_models -> In (TopicInput T) (get_possible_inputs m) ->
  In (TopicPublish T) (effects_for_input m (TopicInput T)) ->
  add_action_and_effects fuel (RxAction st (get_name m) ts c T d) parent s
  = Err RecursionError.
Proof.
  intros Hu Hm HT Hpub.
  destruct (add_action_and_effects fuel (RxAction st (get_name m) ts c T d) parent s)
    as [s'|e] eqn:E.
  - exfalso. revert E. apply self_publishing_never_ok.
    exists m. split; [apply node_model_by_name_unique; assumption|exact Hpub].
  - f_equal. revert E. apply insertion_error_kind; assumption.
Qed.

(** ** Offers *)

(** X17: with no offer pending, a time set and a graph without RUNNING or
    WAITING actions, the offer of a time is granted at once whatever the
    time is: no timer action is created, no step is refused as too large,
    a time before the current one is accepted; simulator_time becomes the
    offered time and the returned future is completed. *)
Theorem time_offer_granted_when_idle t s now :
  next_input s = None -> simulator_time s = Some now -> graph_is_busy s = false ->
  wait_until_time_publish_allowed t s
  = Ok (next_future s,
        mkOrchestrator None (Some t) (graph s) (next_id s) (published s)
          (S (next_future s)) (futures_done s ++ [next_future s])).
Proof.
  intros Hn Ht Hb. unfold wait_until_time_publish_allowed. rewrite Hn.
  cbn [new_future].
  replace (graph_is_busy (set_next_input _ _)) with (graph_is_busy s) by reflexivity.
  rewrite Hb. cbn [negb].
  unfold request_next_input. cbn [next_input set_next_input].
  rewrite add_pending_timers_until_eq. cbn [simulator_time set_next_input].
  rewrite Ht. reflexivity.
Qed.

(** X18: while an action is RUNNING or WAITING, an offer is registered and
    not granted: the future is returned uncompleted and the graph, the time
    and the id counter are as before; and as long as an offer is
    registered, every further offer of a time or of an input raises
    RuntimeError. *)
Theorem offer_while_busy_is_parked s :
  next_input s = None -> graph_is_busy s = true ->
  (forall t,
      wait_until_time_publish_allowed t s
      = Ok (next_future s,
            mkOrchestrator (Some (FutureTimestep t (next_future s))) (simulator_time s)
              (graph s) (next_id s) (published s) (S (next_future s)) (futures_done s)))
  /\ (forall T now,
         simulator_time s = Some now ->
         wait_until_publish_allowed T s
         = Ok (next_future s,
               mkOrchestrator (Some (FutureInput T (next_future s))) (Some now)
                 (graph s) (next_id s) (published s) (S (next_future s))
                 (futures_done s)))
  /\ (forall s1 f t T,
         (wait_until_time_publish_allowed t s = Ok (f, s1)
          \/ wait_until_publish_allowed T s = Ok (f, s1)) ->
         forall t2 T2,
           wait_until_time_publish_allowed t2 s1
           = Err (RuntimeError
                    "Data source wants to provide next timestep before waiting on the last one!")
           /\ wait_until_publish_allowed T2 s1
              = Err (RuntimeError
                       "Data source wants to provide next input before waiting on the last one!")).
Proof.
  intros Hn Hb.
  assert (Htime : forall t,
             wait_until_time_publish_allowed t s
             = Ok (next_future s,
                   mkOrchestrator (Some (FutureTimestep t (next_future s)))
                     (simulator_time s) (graph s) (next_id s) (published s)
                     (S (next_future s)) (futures_done s))).
  { intros t. unfold wait_until_time_publish_allowed. rewrite Hn. cbn [new_future].
    replace (graph_is_busy (set_next_input _ _)) with (graph_is_busy s) by reflexivity.
    rewrite Hb. reflexivity. }
  assert (Hinput : forall T now,
             simulator_time s = Some now ->
             wait_until_publish_allowed T s
             = Ok (next_future s,
                   mkOrchestrator (Some (FutureInput T (next_future s))) (Some now)
                     (graph s) (next_id s) (published s) (S (next_future s))
                     (futures_done s))).
  { intros T now Ht. unfold wait_until_publish_allowed. rewrite Hn, Ht. cbn [new_future].
    replace (graph_is_busy (set_next_input _ _)) with (graph_is_busy s) by reflexivity.
    rewrite Hb. cbn [negb]. unfold set_next_input. simpl. rewrite Ht. reflexivity. }
  split; [exact Htime|]. split; [exact Hinput|].
  intros s1 f t T Hor t2 T2.
  assert (Hs1 : exists o, next_input s1 = Some o).
  { destruct Hor as [H|H].
    - rewrite Htime in H. inversion H; subst. simpl. eauto.
    - destruct (simulator_time s) as [now|] eqn:Ht.
      + rewrite (Hinput T now eq_refl) in H. inversion H; subst. simpl. eauto.
      + unfold wait_until_publish_allowed in H. rewrite Hn, Ht in H. discriminate. }
  destruct Hs1 as [o Ho].
  unfold wait_until_time_publish_allowed, wait_until_publish_allowed.
  rewrite Ho. split; reflexivity.
Qed.

Lemma insert_all_nodes (acts : list Action) :
  forall s s',
    foldM (fun action t => add_action_and_effects recursion_limit action None t) acts s
    = Ok s' ->
    forall a, In a acts ->
      exists id, next_id s <= id /\ In (id, mkNodeData a None) (nodes (graph s')).
Proof.
  induction acts as [|a0 acts IH]; simpl; intros s s' H a Ha; [contradiction|].
  destruct (add_action_and_effects recursion_limit a0 None s) as [s1|] eqn:E;
    [|discriminate].
  pose proof (add_action_and_effects_nodes _ _ _ _ _ E) as [[l [Hn Hb]] [Hlt _]].
  destruct Ha as [->|Ha].
  - exists (next_id s). split; [lia|].
    apply (foldM_extends _ (fun a t t' => add_action_and_effects_extends _ a None t t')) in H.
    destruct H as [[l' [Hn' _]] _]. rewrite Hn', Hn.
    apply in_or_app; left. apply in_or_app; right. left; reflexivity.
  - destruct (IH _ _ H a Ha) as [id [Hid Hin]]. exists id. split; [lia|exact Hin].
Qed.

(** X19: when the node models have distinct names, the topics are ranked
    and the recursion limit exceeds the rank of the offered topic, the
    offer of an input is granted at once if no offer is pending, a time is
    set and no action is RUNNING or WAITING: the call returns, the future
    is completed, no offer is left pending, the nodes that were in the
    graph are kept, and for every node model that has the topic as an input
    the graph holds an RxAction in state WAITING at that node, for the
    current time, with no message. *)
Theorem input_offer_granted_when_idle rank T s now :
  unique_names -> ranked rank -> rank T < recursion_limit ->
  next_input s = None -> simulator_time s = Some now -> graph_is_busy s = false ->
  exists s',
    wait_until_publish_allowed T s = Ok (next_future s, s')
    /\ next_input s' = None
    /\ simulator_time s' = Some now
    /\ futures_done s' = futures_done s ++ [next_future s]
    /\ (exists l, nodes (graph s') = nodes (graph s) ++ l)
    /\ (forall m, In m node_models -> In (TopicInput T) (get_possible_inputs m) ->
          exists id,
            In (id, mkNodeData (RxAction WAITING (get_name m) now (TopicInput T) T None)
                      None)
               (nodes (graph s'))).
Proof.
  intros Hu Hr Hlt Hn Ht Hb.
  unfold wait_until_publish_allowed. rewrite Hn, Ht. cbn [new_future].
  replace (graph_is_busy (set_next_input _ _)) with (graph_is_busy s) by reflexivity.
  rewrite Hb. cbn [negb].
  unfold request_next_input. cbn [next_input set_next_input simulator_time].
  rewrite Ht.
  match goal with
  | |- context [add_topic_input now T ?s0] => set (s0' := s0)
  end.
  assert (Htot : exists s2, add_topic_input now T s0' = Ok s2).
  { unfold add_topic_input. apply foldM_total. intros a Ha t.
    apply in_map_iff in Ha. destruct Ha as [m [<- Hm]].
    apply filter_In in Hm. destruct Hm as [Hm Hin].
    apply (insertion_returns_when_ranked_aux rank); auto.
    apply existsb_Cause. exact Hin. }
  destruct Htot as [s2 Hs2]. rewrite Hs2. cbn [bind].
  exists (set_result (next_future s) s2). split; [reflexivity|].
  pose proof (add_topic_input_extends _ _ _ _ Hs2) as [[l [Hnodes _]] [_ [_ [_ [_ Hf]]]]].
  destruct Hf as (Hf1 & Hf2 & Hf3 & Hf4 & Hf5).
  split; [simpl; rewrite Hf1; reflexivity|].
  split; [simpl; rewrite Hf2; reflexivity|].
  split; [simpl; rewrite Hf5; reflexivity|].
  split; [exists l; exact Hnodes|].
  intros m Hm Hin.
  unfold add_topic_input in Hs2.
  destruct (insert_all_nodes _ _ _ Hs2
              (RxAction WAITING (get_name m) now (TopicInput T) T None)) as [id [_ Hid]].
  - apply in_map_iff. exists m. split; [reflexivity|].
    apply filter_In. split; [exact Hm|]. apply existsb_Cause. exact Hin.
  - exists id. exact Hid.
Qed.

(** The time of the data source, once set, stays set. *)
Lemma request_next_input_time s s' :
  request_next_input s = Ok s' -> simulator_time s' <> None.
Proof.
  unfold request_next_input.
  destruct (next_input s) as [[T f|t f]|]; [| |discriminate].
  - cbn [simulator_time set_next_input].
    destruct (simulator_time s) as [now|] eqn:Ht; [|discriminate].
    destruct (add_topic_input now T _) as [s2|] eqn:E; cbn [bind]; [|discriminate].
    intros H; inversion H; subst.
    pose proof (add_topic_input_extends _ _ _ _ E) as [_ [_ [_ [_ [_ Hf]]]]].
    destruct Hf as (_ & Hf2 & _). simpl. rewrite Hf2. simpl. rewrite Ht. discriminate.
  - destruct (add_pending_timers_until t _) as [s2|]; cbn [bind]; [|discriminate].
    intros H; inversion H; subst. simpl. discriminate.
Qed.

Lemma process_time s s' :
  process s = Ok s' -> simulator_time s <> None -> simulator_time s' <> None.
Proof.
  unfold process.
  destruct (process_loop _ s) as [s1|] eqn:E; cbn [bind]; [|discriminate].
  apply process_loop_result in E.
  assert (Ht : simulator_time s1 = simulator_time s) by (subst s1; reflexivity).
  destruct (next_input s1).
  - destruct (ready_for_next_input s1) as [[|]|]; cbn [bind negb]; try discriminate.
    + intros H _. exact (request_next_input_time _ _ H).
    + intros H; inversion H; subst s'. rewrite Ht. auto.
  - intros H; inversion H; subst s'. rewrite Ht. auto.
Qed.

Lemma step_time ev s s' :
  step ev s = Ok s' -> simulator_time s <> None -> simulator_time s' <> None.
Proof.
  destruct ev as [T|t|T msg|N]; simpl.
  - unfold wait_until_publish_allowed.
    destruct (next_input s); [discriminate|].
    destruct (simulator_time s) as [now|] eqn:Ht; [|discriminate].
    cbn [new_future]. destruct (negb _).
    + destruct (request_next_input _) as [s2|] eqn:E; cbn [bind]; [|discriminate].
      intros H _; inversion H; subst. exact (request_next_input_time _ _ E).
    + cbn [bind]. intros H _; inversion H; subst. simpl. rewrite Ht. discriminate.
  - unfold wait_until_time_publish_allowed.
    destruct (next_input s); [discriminate|].
    cbn [new_future]. destruct (negb _).
    + destruct (request_next_input _) as [s2|] eqn:E; cbn [bind]; [|discriminate].
      intros H _; inversion H; subst. exact (request_next_input_time _ _ E).
    + cbn [bind]. intros H Hs; inversion H; subst. exact Hs.
  - unfold interception_subscription_callback.
    destruct (String.eqb T "clock"); [intros H; inversion H; subst; auto|].
    match goal with |- context [bind ?m _] => destruct m as [[cid it]|] end;
      cbn [bind]; [|discriminate].
    destruct (mapM _ _) as [l|]; cbn [bind]; [|discriminate].
    intros H Hs. apply process_time in H; [exact H|].
    destruct cid; exact Hs.
  - unfold status_callback.
    destruct (find_running_action_status _ _) as [cid|]; cbn [bind]; [|discriminate].
    intros H Hs. apply process_time in H; [exact H|exact Hs].
Qed.

Lemma step_without_time ev s s' :
  simulator_time s = None -> next_input s = None -> nodes (graph s) = [] ->
  step ev s = Ok s' ->
  simulator_time s' = None /\ next_input s' = None /\ nodes (graph s') = [].
Proof.
  intros Ht Hn Hg.
  destruct ev as [T|t|T msg|N]; simpl.
  - unfold wait_until_publish_allowed. rewrite Hn, Ht. discriminate.
  - unfold wait_until_time_publish_allowed. rewrite Hn. cbn [new_future].
    unfold graph_is_busy. cbn [graph set_next_input]. rewrite Hg. cbn [existsb negb].
    unfold request_next_input. cbn [next_input set_next_input].
    rewrite add_pending_timers_until_eq. cbn [simulator_time]. rewrite Ht. discriminate.
  - unfold interception_subscription_callback.
    destruct (String.eqb T "clock"); [intros H; inversion H; subst; auto|].
    rewrite Hg. cbn [find_running_action].
    match goal with |- context [if ?b then _ else Err ActionNotFoundError] => destruct b end;
      cbn [bind]; [|discriminate].
    unfold earliest_waiting_timestep. cbn [foldM bind mapM].
    unfold process. unfold set_nodes. cbn [graph set_graph nodes length process_loop process_pass bind].
    replace (next_input (set_published _ _)) with (next_input s) by reflexivity.
    rewrite Hn.
    intros H; inversion H; subst. simpl. auto.
  - unfold status_callback. rewrite Hg. discriminate.
Qed.

(** Along a run an offer is pending, or the graph has a node, only when the
    time of the data source is set: __process meets no pending offer
    without a time. *)
Lemma reachable_time_set s :
  reachable s ->
  simulator_time s = None -> next_input s = None /\ nodes (graph s) = [].
Proof.
  induction 1 as [|t0|ev s s' _ IH E]; [auto|discriminate|].
  intros Ht.
  destruct (simulator_time s) eqn:Hs.
  - exfalso. apply (step_time _ _ _ E); [rewrite Hs; discriminate|exact Ht].
  - destruct (IH eq_refl) as [Hn Hg].
    destruct (step_without_time _ _ _ Hs Hn Hg E) as (_ & H1 & H2). auto.
Qed.
(** C5: what __process does with a pending offer after its loop has ended
    in state s1, the time of the data source being set.  A pending offer of
    a time is granted: the offer is cleared, simulator_time becomes the
    offered time and the future is completed.  A pending offer of an input
    on T is left as it is, with nothing else done, if an RxAction on T is
    in state WAITING or READY; if there is none, actions on T in state
    RUNNING or not, it is granted: given node models with distinct names,
    ranked topics and a recursion limit above the rank of T, so that the
    insertion returns, the offer is cleared, the future is completed, the
    nodes of the graph are kept and an RxAction in state WAITING for the
    current time is inserted for every node model that has T as an input.
    Without a pending offer __process ends with the loop. *)
Theorem offer_granted_after_process s s1 now :
  process_loop (S (S (length (nodes (graph s))))) s = Ok s1 ->
  simulator_time s1 = Some now ->
  match next_input s1 with
  | None => process s = Ok s1
  | Some (FutureTimestep t f) =>
      process s
      = Ok (mkOrchestrator None (Some t) (graph s1) (next_id s1) (published s1)
              (next_future s1) (futures_done s1 ++ [f]))
  | Some (FutureInput T f) =>
      (pending_on T (graph s1) -> process s = Ok s1)
      /\ (~ pending_on T (graph s1) ->
          forall rank, unique_names -> ranked rank -> rank T < recursion_limit ->
          exists s',
            process s = Ok s'
            /\ next_input s' = None
            /\ simulator_time s' = Some now
            /\ futures_done s' = futures_done s1 ++ [f]
            /\ published s' = published s1
            /\ (exists l, nodes (graph s') = nodes (graph s1) ++ l)
            /\ (forall m, In m node_models -> In (TopicInput T) (get_possible_inputs m) ->
                  exists id,
                    In (id, mkNodeData
                              (RxAction WAITING (get_name m) now (TopicInput T) T None)
                              None)
                       (nodes (graph s'))))
  end.
Proof.
  intros E Ht. unfold process. rewrite E. cbn [bind].
  destruct (next_input s1) as [[T f|t f]|] eqn:Hn; [| |reflexivity].
  - destruct (ready_for_next_input_input s1 T f Hn) as [Hp Hnp].
    split; [intros H; rewrite (Hp H); reflexivity|].
    intros H rank Hu Hr Hlt. rewrite (Hnp H). cbn [bind negb].
    unfold request_next_input. rewrite Hn. cbn [simulator_time set_next_input].
    rewrite Ht.
    match goal with
    | |- context [add_topic_input now T ?s0] => set (s0' := s0)
    end.
    assert (Htot : exists s2, add_topic_input now T s0' = Ok s2).
    { unfold add_topic_input. apply foldM_total. intros a Ha u.
      apply in_map_iff in Ha. destruct Ha as [m [<- Hm]].
      apply filter_In in Hm. destruct Hm as [Hm Hin].
      apply (insertion_returns_when_ranked_aux rank); auto.
      apply existsb_Cause. exact Hin. }
    destruct Htot as [s2 Hs2]. rewrite Hs2. cbn [bind].
    exists (set_result f s2). split; [reflexivity|].
    pose proof (add_topic_input_extends _ _ _ _ Hs2) as [[l [Hnodes _]] [_ [_ [_ [_ Hf]]]]].
    destruct Hf as (Hf1 & Hf2 & Hf3 & Hf4 & Hf5).
    split; [simpl; rewrite Hf1; reflexivity|].
    split; [simpl; rewrite Hf2; exact Ht|].
    split; [simpl; rewrite Hf5; reflexivity|].
    split; [simpl; rewrite Hf3; reflexivity|].
    split; [exists l; exact Hnodes|].
    intros m Hm Hin.
    unfold add_topic_input in Hs2.
    destruct (insert_all_nodes _ _ _ Hs2
                (RxAction WAITING (get_name m) now (TopicInput T) T None)) as [id [_ Hid]].
    + apply in_map_iff. exists m. split; [reflexivity|].
      apply filter_In. split; [exact Hm|]. apply existsb_Cause. exact Hin.
    + exists id. exact Hid.
  - unfold ready_for_next_input. rewrite Hn. cbn [bind negb].
    unfold request_next_input. rewrite Hn.
    rewrite add_pending_timers_until_eq. cbn [simulator_time set_next_input].
    rewrite Ht. reflexivity.
Qed.

(** X25: when the node models have distinct names, the offer of an input
    can fail in three ways only: with the RuntimeError of an offer that is
    already pending, with the RuntimeError of a time that has not been
    set, or, when the offer is granted at once, with RecursionError; it
    raises no KeyError and no AssertionError. *)
Theorem input_offer_errors T s e :
  unique_names ->
  wait_until_publish_allowed T s = Err e ->
  e = RuntimeError "Data source wants to provide next input before waiting on the last one!"
  \/ e = RuntimeError "Data source has to provide time before first data"
  \/ e = RecursionError.
Proof.
  intros Hu. unfold wait_until_publish_allowed.
  destruct (next_input s); [intros H; inversion H; auto|].
  destruct (simulator_time s) as [now|] eqn:Ht; [|intros H; inversion H; auto].
  cbn [new_future]. destruct (negb _); [|discriminate].
  unfold request_next_input. cbn [next_input set_next_input simulator_time].
  rewrite ?Ht.
  match goal with
  | |- context [add_topic_input ?a ?b ?c] =>
      destruct (add_topic_input a b c) as [s2|e'] eqn:E
  end; cbn [bind]; [discriminate|].
  intros H; inversion H; subst e'. right; right.
  unfold add_topic_input in E. apply foldM_err in E.
  destruct E as (a & t & Ha & E).
  apply in_map_iff in Ha. destruct Ha as [m [<- Hm]].
  apply filter_In in Hm. destruct Hm as [Hm Hin].
  apply (insertion_error_kind _ _ _ _ _ _ _ _ _ _ Hu Hm) in E; [exact E|].
  apply existsb_Cause. exact Hin.
Qed.

End More.

(** * The publishers of a topic *)

Section Topics.

Context {config : Config}.





































End Topics.


(** ** Subscriptions and publishers *)

Lemma dict_get_set_same {V : Type} k (v : V) :
  forall d, dict_get k (dict_set k v d) = Some v.
Proof.
  induction d as [|[k' v'] d IH]; simpl.
  - rewrite String.eqb_refl. reflexivity.
  - destruct (String.eqb k' k) eqn:E; simpl.
    + rewrite String.eqb_refl. reflexivity.
    + rewrite E. exact IH.
Qed.

Lemma dict_get_set_other {V : Type} k k0 (v : V) :
  k0 <> k -> forall d, dict_get k0 (dict_set k v d) = dict_get k0 d.
Proof.
  intros Hne. induction d as [|[k' v'] d IH]; simpl.
  - destruct (String.eqb_spec k k0); [congruence|reflexivity].
  - destruct (String.eqb_spec k' k) as [->|Hk]; simpl.
    + destruct (String.eqb_spec k k0); [congruence|reflexivity].
    + destruct (String.eqb k' k0); [reflexivity|exact IH].
Qed.

Lemma dict_get_none_keys {V : Type} k :
  forall d : list (string * V), dict_get k d = None <-> ~ In k (map fst d).
Proof.
  induction d as [|[k' v'] d IH]; simpl; [tauto|].
  destruct (String.eqb_spec k' k) as [->|Hk].
  - split; [discriminate|intros H; exfalso; apply H; left; reflexivity].
  - rewrite IH. tauto.
Qed.

Lemma dict_set_keys {V : Type} k (v : V) :
  forall d, map fst (dict_set k v d)
            = match dict_get k d with
              | Some _ => map fst d
              | None => map fst d ++ [k]
              end.
Proof.
  induction d as [|[k' v'] d IH]; simpl; [reflexivity|].
  destruct (String.eqb_spec k' k) as [->|Hk]; simpl; [reflexivity|].
  rewrite IH. destruct (dict_get k d); reflexivity.
Qed.

Lemma dict_set_nodup {V : Type} k (v : V) (d : list (string * V)) :
  NoDup (map fst d) -> NoDup (map fst (dict_set k v d)).
Proof.
  intros H. rewrite dict_set_keys.
  destruct (dict_get k d) eqn:E; [exact H|].
  apply dict_get_none_keys in E.
  apply NoDup_app; [exact H|repeat constructor; auto|].
  intros a Ha [<-|[]]. exact (E Ha).
Qed.

Lemma intercept_one_subs rc x T :
  dict_get T (rc_interception_subs (intercept_one rc x))
  = match dict_get T (rc_interception_subs rc) with
    | Some v => Some v
    | None => if String.eqb (ic_canonical x) T
              then Some (mkSubscription (ic_type x) T)
              else None
    end.
Proof.
  unfold intercept_one; simpl.
  destruct (dict_get (ic_canonical x) (rc_interception_subs rc)) eqn:E.
  - destruct (dict_get T (rc_interception_subs rc)) eqn:E'; [reflexivity|].
    destruct (String.eqb_spec (ic_canonical x) T); [congruence|reflexivity].
  - destruct (String.eqb_spec (ic_canonical x) T) as [<-|Hne].
    + rewrite dict_get_set_same, E. reflexivity.
    + rewrite dict_get_set_other by congruence.
      destruct (dict_get T (rc_interception_subs rc)); reflexivity.
Qed.

Lemma intercept_all_subs T :
  forall l rc,
    dict_get T (rc_interception_subs (fold_left intercept_one l rc))
    = match dict_get T (rc_interception_subs rc) with
      | Some v => Some v
      | None =>
          option_map (fun x => mkSubscription (ic_type x) T)
            (find (fun x => String.eqb (ic_canonical x) T) l)
      end.
Proof.
  induction l as [|x l IH]; intros rc; simpl.
  - destruct (dict_get T (rc_interception_subs rc)); reflexivity.
  - rewrite IH, intercept_one_subs.
    destruct (dict_get T (rc_interception_subs rc)); [reflexivity|].
    destruct (String.eqb (ic_canonical x) T); reflexivity.
Qed.

Lemma intercept_all_subs_nodup :
  forall l rc,
    NoDup (map fst (rc_interception_subs rc)) ->
    NoDup (map fst (rc_interception_subs (fold_left intercept_one l rc))).
Proof.
  intros l rc H. apply (fold_left_inv (fun rc' => NoDup (map fst (rc_interception_subs rc'))));
    [exact H|].
  intros x c _ Hc. unfold intercept_one; simpl.
  destruct (dict_get _ (rc_interception_subs c)); [exact Hc|].
  apply dict_set_nodup. exact Hc.
Qed.

Lemma initialize_keeps_dicts intercepted output_topics rc :
  rc_interception_subs (initialize_ros_communication intercepted output_topics rc)
  = rc_interception_subs (fold_left intercept_one intercepted rc)
  /\ rc_interception_pubs (initialize_ros_communication intercepted output_topics rc)
     = rc_interception_pubs (fold_left intercept_one intercepted rc)
  /\ rc_output_subs (initialize_ros_communication intercepted output_topics rc)
     = rc_output_subs (fold_left intercept_one intercepted rc)
       ++ map (fun x => mkSubscription (fst x) (snd x)) output_topics.
Proof.
  unfold initialize_ros_communication. simpl.
  generalize (fold_left intercept_one intercepted rc). intros rc1.
  revert rc1. induction output_topics as [|x l IH]; intros rc1; simpl.
  - rewrite app_nil_r. auto.
  - destruct (IH (mkRosCommunication (rc_interception_subs rc1) (rc_interception_pubs rc1)
                    (rc_output_subs rc1 ++ [mkSubscription (fst x) (snd x)])
                    (rc_status_subscription rc1))) as (H1 & H2 & H3).
    simpl in *. rewrite H1, H2, H3, <- app_assoc. auto.
Qed.

Lemma intercept_all_output_subs :
  forall l rc, rc_output_subs (fold_left intercept_one l rc) = rc_output_subs rc.
Proof.
  intros l rc. apply (fold_left_inv (fun rc' => rc_output_subs rc' = rc_output_subs rc));
    [reflexivity|].
  intros x c _ Hc. exact Hc.
Qed.

(** X20: initialize_ros_communication subscribes once to each canonical
    topic, however many nodes receive it: the keys of interception_subs are
    distinct, a topic has a subscription if and only if it is the canonical
    name of an intercepted input, and the subscription has the message type
    of the first such input.  The output topics get one subscription each,
    in their order, and the status subscription is there. *)
Theorem one_subscription_per_topic intercepted output_topics :
  let rc := initialize_ros_communication intercepted output_topics no_communication in
  NoDup (map fst (rc_interception_subs rc))
  /\ (forall T,
         dict_get T (rc_interception_subs rc)
         = option_map (fun x => mkSubscription (ic_type x) T)
             (find (fun x => String.eqb (ic_canonical x) T) intercepted))
  /\ rc_output_subs rc = map (fun x => mkSubscription (fst x) (snd x)) output_topics
  /\ rc_status_subscription rc = Some (mkSubscription "Status" "status").
Proof.
  intros rc.
  destruct (initialize_keeps_dicts intercepted output_topics no_communication)
    as (H1 & _ & H3).
  fold rc in H1, H3. split; [|split; [|split]].
  - rewrite H1. apply intercept_all_subs_nodup. constructor.
  - intros T. rewrite H1, intercept_all_subs. reflexivity.
  - rewrite H3, intercept_all_output_subs. reflexivity.
  - reflexivity.
Qed.

Lemma lookup_pub_intercept_one rc x n T :
  lookup_pub n T (intercept_one rc x)
  = if String.eqb (ic_node x) n && String.eqb (ic_canonical x) T
    then Some (mkPublisher (ic_type x) (ic_intercepted x))
    else lookup_pub n T rc.
Proof.
  unfold lookup_pub, intercept_one; simpl.
  set (pubs := match dict_get (ic_node x) (rc_interception_pubs rc) with
               | Some _ => rc_interception_pubs rc
               | None => dict_set (ic_node x) [] (rc_interception_pubs rc)
               end).
  assert (Hpubs : forall k, k <> ic_node x ->
                            dict_get k pubs = dict_get k (rc_interception_pubs rc)).
  { intros k Hk. unfold pubs.
    destruct (dict_get (ic_node x) (rc_interception_pubs rc)); [reflexivity|].
    apply dict_get_set_other. exact Hk. }
  assert (Hnode : match dict_get (ic_node x) pubs with Some d => d | None => [] end
                  = match dict_get (ic_node x) (rc_interception_pubs rc) with
                    | Some d => d
                    | None => []
                    end).
  { unfold pubs. destruct (dict_get (ic_node x) (rc_interception_pubs rc)) eqn:E.
    - rewrite E. reflexivity.
    - rewrite dict_get_set_same. reflexivity. }
  destruct (String.eqb_spec (ic_node x) n) as [<-|Hn]; simpl.
  - rewrite dict_get_set_same, Hnode.
    destruct (String.eqb_spec (ic_canonical x) T) as [<-|HT].
    + apply dict_get_set_same.
    + rewrite dict_get_set_other by congruence.
      destruct (dict_get (ic_node x) (rc_interception_pubs rc)); reflexivity.
  - rewrite dict_get_set_other by congruence. rewrite Hpubs by congruence. reflexivity.
Qed.

Lemma find_app {A : Type} (f : A -> bool) (l1 l2 : list A) :
  find f (l1 ++ l2) = match find f l1 with Some x => Some x | None => find f l2 end.
Proof.
  induction l1 as [|x l1 IH]; simpl; [reflexivity|].
  destruct (f x); [reflexivity|exact IH].
Qed.

Lemma lookup_pub_intercept_all n T :
  forall l rc,
    lookup_pub n T (fold_left intercept_one l rc)
    = match find (fun x => String.eqb (ic_node x) n && String.eqb (ic_canonical x) T)
              (rev l) with
      | Some x => Some (mkPublisher (ic_type x) (ic_intercepted x))
      | None => lookup_pub n T rc
      end.
Proof.
  induction l as [|x l IH]; intros rc; simpl; [reflexivity|].
  rewrite IH, find_app, lookup_pub_intercept_one. simpl.
  destruct (find _ (rev l)); [reflexivity|].
  destruct (String.eqb (ic_node x) n && String.eqb (ic_canonical x) T); reflexivity.
Qed.

(** X21: after initialize_ros_communication, interception_pubs[node][topic]
    is there if and only if the topic is the canonical name of an
    intercepted input of the node, and it is then the publisher on the
    intercepted name, with the message type, of the last such input in the
    list. *)
Theorem publisher_for_every_intercepted_input intercepted output_topics n T :
  let rc := initialize_ros_communication intercepted output_topics no_communication in
  lookup_pub n T rc
  = option_map (fun x => mkPublisher (ic_type x) (ic_intercepted x))
      (find (fun x => String.eqb (ic_node x) n && String.eqb (ic_canonical x) T)
         (rev intercepted))
  /\ ((exists p, lookup_pub n T rc = Some p)
      <-> exists x, In x intercepted /\ ic_node x = n /\ ic_canonical x = T).
Proof.
  intros rc.
  assert (H : lookup_pub n T rc
              = option_map (fun x => mkPublisher (ic_type x) (ic_intercepted x))
                  (find (fun x => String.eqb (ic_node x) n && String.eqb (ic_canonical x) T)
                     (rev intercepted))).
  { unfold rc, lookup_pub.
    destruct (initialize_keeps_dicts intercepted output_topics no_communication)
      as (_ & H2 & _).
    rewrite H2. fold (lookup_pub n T (fold_left intercept_one intercepted no_communication)).
    rewrite lookup_pub_intercept_all.
    destruct (find _ (rev intercepted)); reflexivity. }
  split; [exact H|]. rewrite H. split.
  - intros [p Hp].
    destruct (find _ (rev intercepted)) as [x|] eqn:E; [|discriminate].
    apply find_some in E. destruct E as [Hin Hx].
    apply andb_true_iff in Hx. destruct Hx as [H1 H2].
    apply String.eqb_eq in H1, H2.
    exists x. split; [apply in_rev; exact Hin|auto].
  - intros [x [Hin [H1 H2]]].
    destruct (find _ (rev intercepted)) as [y|] eqn:E; [simpl; eauto|].
    exfalso. apply in_rev in Hin. pose proof (find_none _ _ E x Hin) as Hf.
    simpl in Hf. subst. rewrite !String.eqb_refl in Hf. discriminate.
Qed.

(** ** Remappings *)

Lemma remap_node_with_model iname models name (rs : list (string * string)) m :
  find_node_model name models = Ok m ->
  forall acc,
    foldM
      (fun remapping remap_actions' =>
         let internal_name := fst remapping in
         let ros_name := snd remapping in
         model <- find_node_model name models ;;
         if negb (existsb (Cause_eqb (TopicInput ros_name)) (get_possible_inputs model))
         then Ok remap_actions'
         else
           let remap_src := (name ++ ":" ++ internal_name)%string in
           let remap_dst := iname name ros_name in
           Ok (remap_actions' ++ [mkSetRemap remap_src remap_dst]))
      rs acc
    = Ok (acc ++ remaps_of iname m (name, rs)).
Proof.
  intros Hm. unfold remaps_of. cbn [fst snd].
  unfold TopicName, NodeName in *.
  match goal with
  | |- forall acc, foldM ?f _ _ = _ => set (body := f)
  end.
  induction rs as [|r l IH]; intros acc.
  - cbn [foldM filter map]. rewrite app_nil_r. reflexivity.
  - cbn [foldM filter].
    assert (Hb : body r acc
                 = if existsb (Cause_eqb (TopicInput (snd r))) (get_possible_inputs m)
                   then Ok (acc ++ [mkSetRemap (name ++ ":" ++ fst r)%string
                                      (iname name (snd r))])
                   else Ok acc).
    { unfold body. rewrite Hm. cbn [bind].
      destruct (existsb _ (get_possible_inputs m)); reflexivity. }
    rewrite Hb.
    destruct (existsb (Cause_eqb (TopicInput (snd r))) (get_possible_inputs m));
      cbn [map].
    + rewrite IH, <- app_assoc. reflexivity.
    + apply IH.
Qed.

Lemma generate_remappings_fold iname models :
  forall launch_nodes acc,
    match
      foldM
        (fun node remap_actions =>
           foldM
             (fun remapping remap_actions' =>
                let internal_name := fst remapping in
                let ros_name := snd remapping in
                model <- find_node_model (fst node) models ;;
                if negb (existsb (Cause_eqb (TopicInput ros_name))
                           (get_possible_inputs model))
                then Ok remap_actions'
                else
                  let remap_src := (fst node ++ ":" ++ internal_name)%string in
                  let remap_dst := iname (fst node) ros_name in
                  Ok (remap_actions' ++ [mkSetRemap remap_src remap_dst]))
             (snd node) remap_actions)
        launch_nodes acc
    with
    | Ok r =>
        (forall node, In node launch_nodes -> snd node <> [] ->
                      exists m, find_node_model (fst node) models = Ok m)
        /\ r = acc ++ flat_map
                        (fun node =>
                           match find_node_model (fst node) models with
                           | Ok m => remaps_of iname m node
                           | Err _ => []
                           end)
                        launch_nodes
    | Err e =>
        exists node,
          In node launch_nodes /\ snd node <> []
          /\ find (fun model => String.eqb (fst node) (get_name model)) models = None
          /\ e = RuntimeError ("No model for node with name " ++ fst node)%string
    end.
Proof.
  induction launch_nodes as [|[name rs] l IH]; intros acc; cbn [foldM fst snd flat_map].
  - split; [intros ? []|rewrite app_nil_r; reflexivity].
  - assert (Hcase : (exists m, find_node_model name models = Ok m)
                    \/ (exists e, find_node_model name models = Err e)).
    { destruct (find_node_model name models); eauto. }
    destruct Hcase as [[m Hm]|[e Hm]].
    + match goal with
      | |- context [foldM ?f rs acc] =>
          replace (foldM f rs acc) with (Ok (acc ++ remaps_of iname m (name, rs)))
            by (symmetry; exact (remap_node_with_model iname models name rs m Hm acc))
      end.
      rewrite Hm.
      specialize (IH (acc ++ remaps_of iname m (name, rs))).
      destruct (foldM _ l (acc ++ remaps_of iname m (name, rs))) as [r|e].
      * destruct IH as [Hall ->]. split; [|rewrite <- app_assoc; reflexivity].
        intros node' [<-|Hin] Hne; [simpl; eauto|exact (Hall _ Hin Hne)].
      * destruct IH as (node' & Hin & Hne & Hnone & He). exists node'.
        split; [right; exact Hin|auto].
    + destruct rs as [|r0 rs].
      * cbn [foldM]. rewrite Hm. specialize (IH acc).
        destruct (foldM _ l acc) as [r|e'].
        -- destruct IH as [Hall ->]. split; [|reflexivity].
           intros node' [<-|Hin] Hne; [simpl in Hne; congruence|exact (Hall _ Hin Hne)].
        -- destruct IH as (node' & Hin & Hne & Hnone & He). exists node'.
           split; [right; exact Hin|auto].
      * cbn [foldM]. rewrite Hm. cbn [bind].
        exists (name, r0 :: rs). split; [left; reflexivity|].
        split; [simpl; discriminate|].
        unfold find_node_model in Hm. cbn [fst].
        destruct (find _ models); [discriminate|]. inversion Hm. auto.
Qed.

Lemma generate_remappings_char iname launch_nodes models :
  match generate_remappings_from_config iname launch_nodes models with
  | Ok r =>
      (forall node, In node launch_nodes -> snd node <> [] ->
                    exists m, find_node_model (fst node) models = Ok m)
      /\ r = flat_map
               (fun node =>
                  match find_node_model (fst node) models with
                  | Ok m => remaps_of iname m node
                  | Err _ => []
                  end)
               launch_nodes
  | Err e =>
      exists node,
        In node launch_nodes /\ snd node <> []
        /\ find (fun model => String.eqb (fst node) (get_name model)) models = None
        /\ e = RuntimeError ("No model for node with name " ++ fst node)%string
  end.
Proof.
  exact (generate_remappings_fold iname models launch_nodes []).
Qed.

(** X22: generate_remappings_from_config returns if and only if every node
    of the launch configuration that has a remapping has a model; it then
    returns, node by node and in the order of the remappings, one SetRemap
    for each remapping whose ROS name is an input of the model of the node,
    from "node:internal name" to the intercepted name of the node and
    topic.  Otherwise it raises the RuntimeError that names the first node
    with a remapping and without a model; a node without remappings needs
    no model. *)
Theorem generate_remappings_from_config_spec iname launch_nodes models :
  match generate_remappings_from_config iname launch_nodes models with
  | Ok r =>
      (forall node, In node launch_nodes -> snd node <> [] ->
                    exists m, find_node_model (fst node) models = Ok m)
      /\ r = flat_map
               (fun node =>
                  match find_node_model (fst node) models with
                  | Ok m => remaps_of iname m node
                  | Err _ => []
                  end)
               launch_nodes
  | Err e =>
      exists node,
        In node launch_nodes /\ snd node <> []
        /\ find (fun model => String.eqb (fst node) (get_name model)) models = None
        /\ e = RuntimeError ("No model for node with name " ++ fst node)%string
  end.
Proof. apply generate_remappings_char. Qed.

(** X23: only inputs are remapped: every SetRemap that
    generate_remappings_from_config returns comes from a remapping of a
    node of the launch configuration to a topic that the model of the node
    has as an input, and every such remapping gives one. *)
Theorem remappings_are_inputs iname launch_nodes models r :
  generate_remappings_from_config iname launch_nodes models = Ok r ->
  forall x,
    In x r <->
    exists node remapping m,
      In node launch_nodes /\ In remapping (snd node)
      /\ find_node_model (fst node) models = Ok m
      /\ In (TopicInput (snd remapping)) (get_possible_inputs m)
      /\ x = mkSetRemap (fst node ++ ":" ++ fst remapping)%string
               (iname (fst node) (snd remapping)).
Proof.
  intros H x.
  pose proof (generate_remappings_char iname launch_nodes models) as Hs.
  rewrite H in Hs.
  destruct Hs as [_ ->]. rewrite in_flat_map. split.
  - intros [node [Hnode Hx]].
    destruct (find_node_model (fst node) models) as [m|] eqn:Hm; [|contradiction].
    unfold remaps_of in Hx. apply in_map_iff in Hx. destruct Hx as [rm [<- Hrm]].
    apply filter_In in Hrm. destruct Hrm as [Hrm Hin].
    exists node, rm, m. repeat split; auto.
    apply existsb_exists in Hin. destruct Hin as [c [Hc He]].
    destruct c as [t|p]; simpl in He; [|discriminate].
    apply String.eqb_eq in He. subst t. exact Hc.
  - intros (node & rm & m & Hnode & Hrm & Hm & Hin & ->).
    exists node. split; [exact Hnode|]. rewrite Hm.
    unfold remaps_of. apply in_map_iff. exists rm. split; [reflexivity|].
    apply filter_In. split; [exact Hrm|].
    apply existsb_exists. exists (TopicInput (snd rm)). split; [exact Hin|].
    simpl. apply String.eqb_refl.
Qed.

(** ** The tracker of the time synchronizer *)

Lemma tracker_filters_fold :
  forall l acc,
    NoDup acc ->
    (NoDup (acc ++ l) ->
     foldM (fun topic_name filters =>
              if existsb (String.eqb topic_name) filters
              then Err AssertionError
              else Ok (filters ++ [topic_name]))
       l acc = Ok (acc ++ l))
    /\ (~ NoDup (acc ++ l) ->
        foldM (fun topic_name filters =>
                 if existsb (String.eqb topic_name) filters
                 then Err AssertionError
                 else Ok (filters ++ [topic_name]))
          l acc = Err AssertionError).
Proof.
  induction l as [|x l IH]; intros acc Hacc; simpl.
  - rewrite app_nil_r. split; [reflexivity|contradiction].
  - destruct (existsb (String.eqb x) acc) eqn:E.
    + apply existsb_exists in E. destruct E as [y [Hy He]].
      apply String.eqb_eq in He. subst y.
      split; [|reflexivity].
      intros Hnd. exfalso. apply NoDup_remove_2 in Hnd. apply Hnd.
      apply in_or_app; left; exact Hy.
    + assert (Hx : ~ In x acc).
      { intros Hin. apply not_true_iff_false in E. apply E.
        apply existsb_exists. exists x. split; [exact Hin|apply String.eqb_refl]. }
      assert (Hacc' : NoDup (acc ++ [x])).
      { apply NoDup_app; [exact Hacc|repeat constructor; auto|].
        intros a Ha [<-|[]]. exact (Hx Ha). }
      destruct (IH (acc ++ [x]) Hacc') as [H1 H2].
      rewrite <- app_assoc in H1, H2. simpl in H1, H2. auto.
Qed.

(** X24: ApproximateTimeSynchronizerTracker takes a list of topic names if
    and only if no name is in it twice: it then has one filter per name,
    in the order of the list, and it raises AssertionError otherwise. *)
Theorem tracker_rejects_duplicate_topics topic_names :
  (NoDup topic_names -> tracker_filters topic_names = Ok topic_names)
  /\ (~ NoDup topic_names -> tracker_filters topic_names = Err AssertionError).
Proof.
  exact (tracker_filters_fold topic_names [] (NoDup_nil _)).
Qed.

(** ** plot_graph *)

(** X26: plot_graph draws no graph of this orchestrator that has a node.
    In every state that a run reaches and whatever the drawing does, the
    method raises the KeyError of the key "timestep" as soon as the graph
    has a node, since no node is added with that key; the drawing is
    reached for the empty graph only, with three empty dictionaries. *)
Theorem plot_graph_key_error {config : Config} draw s :
  reachable s ->
  (nodes (graph s) = [] -> plot_graph draw s = draw (graph s) ([], [], []))
  /\ (nodes (graph s) <> [] -> plot_graph draw s = Err (KeyError "timestep")).
Proof.
  intros Hr. pose proof (reachable_waiting _ Hr) as HW.
  pose proof (gc_edges _ _ (proj1 (reachable_inv _ Hr))) as He.
  unfold plot_graph. split.
  - intros Hn. rewrite Hn. cbn [map mapM bind].
    destruct (edges (graph s)) as [|[[u v] ty] l] eqn:E; [reflexivity|].
    exfalso. destruct (He u v ty) as (_ & Hu & _); [rewrite E; left; reflexivity|].
    unfold node_ids in Hu. rewrite Hn in Hu. exact Hu.
  - intros Hne. destruct (nodes (graph s)) as [|x l] eqn:E; [congruence|].
    assert (Hx : In x (nodes (graph s))) by (rewrite E; left; reflexivity).
    cbn [mapM]. rewrite (proj2 (HW x Hx)). reflexivity.
Qed.

Lemma plot_graph_key_error_witness :
  @reachable ex_config ex_state
  /\ nodes (graph ex_state) <> []
  /\ plot_graph (fun _ _ => Ok tt) ex_state = Err (KeyError "timestep").
Proof.
  assert (Hr : @reachable ex_config ex_state).
  { apply (@reachable_step ex_config (OfferInput "A") started0);
      [apply reachable_started|reflexivity]. }
  assert (Hne : nodes (graph ex_state) <> []) by discriminate.
  split; [exact Hr|]. split; [exact Hne|].
  exact (proj2 (@plot_graph_key_error ex_config (fun _ _ => Ok tt) ex_state Hr) Hne).
Defined.

(** ** Examples for the further properties *)

Lemma insertion_keeps_existing_actions_witness :
  @add_action_and_effects ex_config 1000
    (RxAction WAITING "Y" 0%Z (TopicInput "A") "A" None) None ex_inserted
  = Ok ex_inserted2
  /\ next_id ex_inserted < next_id ex_inserted2
  /\ same_fields ex_inserted ex_inserted2.
Proof.
  assert (H : @add_action_and_effects ex_config 1000
                (RxAction WAITING "Y" 0%Z (TopicInput "A") "A" None) None ex_inserted
              = Ok ex_inserted2) by reflexivity.
  split; [exact H|].
  exact (proj2 (@insertion_keeps_existing_actions ex_config _ _ _ _ _ H)).
Defined.

Lemma insertion_leaves_old_actions_unconstrained_witness :
  @add_action_and_effects ex_config 1000
    (RxAction WAITING "Y" 0%Z (TopicInput "A") "A" None) None ex_inserted
  = Ok ex_inserted2
  /\ 0 < next_id ex_inserted
  /\ eligible (graph ex_inserted2)
       (0, mkNodeData (RxAction WAITING "X" 0%Z (TopicInput "A") "A" None) None)
     = eligible (graph ex_inserted)
         (0, mkNodeData (RxAction WAITING "X" 0%Z (TopicInput "A") "A" None) None).
Proof.
  assert (H : @add_action_and_effects ex_config 1000
                (RxAction WAITING "Y" 0%Z (TopicInput "A") "A" None) None ex_inserted
              = Ok ex_inserted2) by reflexivity.
  assert (Hlt : 0 < next_id ex_inserted) by (simpl; lia).
  split; [exact H|]. split; [exact Hlt|].
  exact (proj2 (@insertion_leaves_old_actions_unconstrained ex_config _ _ _ _ _
                  (0, mkNodeData (RxAction WAITING "X" 0%Z (TopicInput "A") "A" None) None)
                  H Hlt)).
Defined.

Lemma insertion_edges_of_new_action_witness :
  @add_action_and_effects ex_config 1000
    (RxAction WAITING "Y" 0%Z (TopicInput "A") "A" None) None ex_inserted
  = Ok ex_inserted2
  /\ edge_in (graph ex_inserted2) 2 1.
Proof.
  assert (H : @add_action_and_effects ex_config 1000
                (RxAction WAITING "Y" 0%Z (TopicInput "A") "A" None) None ex_inserted
              = Ok ex_inserted2) by reflexivity.
  split; [exact H|].
  destruct (@insertion_edges_of_new_action ex_config _ _ _ _ _ H) as [_ [Hnode _]].
  apply (Hnode (1, mkNodeData (RxAction WAITING "Y" 0%Z (TopicInput "B") "B" None) None)).
  - simpl. auto.
  - simpl. lia.
  - reflexivity.
Defined.

Lemma reachable_actions_ordered_per_node_witness :
  @reachable ex_config ex_state /\ edge_in (graph ex_state) 2 1.
Proof.
  assert (Hr : @reachable ex_config ex_state).
  { apply (@reachable_step ex_config (OfferInput "A") started0);
      [apply reachable_started|reflexivity]. }
  split; [exact Hr|].
  destruct (@reachable_actions_ordered_per_node ex_config ex_state Hr) as [_ [_ [_ H]]].
  apply (H 1 (mkNodeData (RxAction WAITING "Y" 0%Z (TopicInput "B") "B" None) None)
           2 (mkNodeData (RxAction WAITING "Y" 0%Z (TopicInput "A") "A" None) None)).
  - simpl. auto.
  - simpl. auto.
  - lia.
  - reflexivity.
Defined.

Lemma reachable_step_only_grows_witness :
  @reachable ex_config started0
  /\ @step ex_config (OfferInput "A") started0 = Ok ex_state
  /\ exists l, nodes (graph ex_state) = nodes (graph started0) ++ l.
Proof.
  assert (Hr : @reachable ex_config started0) by apply reachable_started.
  assert (Hs : @step ex_config (OfferInput "A") started0 = Ok ex_state) by reflexivity.
  split; [exact Hr|]. split; [exact Hs|].
  exact (@reachable_step_only_grows ex_config _ _ _ Hr Hs).
Defined.

Lemma reachable_nothing_published_witness :
  @reachable ex_config ex_state /\ published ex_state = [].
Proof.
  assert (Hr : @reachable ex_config ex_state).
  { apply (@reachable_step ex_config (OfferInput "A") started0);
      [apply reachable_started|reflexivity]. }
  split; [exact Hr|].
  exact (proj1 (@reachable_nothing_published ex_config ex_state Hr)).
Defined.

Lemma process_loop_idempotent_witness :
  @process_loop ex_config 2 ex_buffered = Ok ex_scheduled
  /\ @process_loop ex_config 1 ex_scheduled = Ok ex_scheduled.
Proof.
  assert (H : @process_loop ex_config 2 ex_buffered = Ok ex_scheduled) by reflexivity.
  split; [exact H|].
  exact (proj1 (@process_loop_idempotent ex_config 0 0 _ _ H)).
Defined.

Lemma find_running_action_sound_witness :
  @find_running_action ex_config "B" (nodes (graph ex_scheduled)) = Ok 0
  /\ exists l1 nd l2,
       nodes (graph ex_scheduled) = l1 ++ (0, nd) :: l2
       /\ action_state (nd_data nd) = RUNNING
       /\ @declares_publish ex_config (nd_data nd) "B"
       /\ forall x, In x l1 -> action_state (nd_data (snd x)) = RUNNING ->
                    ~ @declares_publish ex_config (nd_data (snd x)) "B".
Proof.
  assert (H : @find_running_action ex_config "B" (nodes (graph ex_scheduled)) = Ok 0)
    by reflexivity.
  split; [exact H|].
  exact (@find_running_action_sound ex_config _ _ _ H).
Defined.

Lemma find_running_action_status_sound_witness :
  @find_running_action_status ex_config "Y" (nodes (graph ex_status_running)) = Ok 1
  /\ exists l1 nd l2,
       nodes (graph ex_status_running) = l1 ++ (1, nd) :: l2
       /\ action_state (nd_data nd) = RUNNING
       /\ action_node (nd_data nd) = "Y"
       /\ @declares_status ex_config (nd_data nd)
       /\ forall x, In x l1 -> action_state (nd_data (snd x)) = RUNNING ->
                    action_node (nd_data (snd x)) = "Y" ->
                    ~ @declares_status ex_config (nd_data (snd x)).
Proof.
  assert (H : @find_running_action_status ex_config "Y" (nodes (graph ex_status_running))
              = Ok 1) by reflexivity.
  split; [exact H|].
  exact (@find_running_action_status_sound ex_config _ _ _ H).
Defined.


Lemma status_callback_removes_completed_witness :
  (forall i, In i (node_ids (graph ex_status_running)) -> i < next_id ex_status_running)
  /\ @status_callback ex_config "Y" ex_status_running = Ok ex_status_done
  /\ exists cid,
       @find_running_action_status ex_config "Y" (nodes (graph ex_status_running)) = Ok cid
       /\ ~ In cid (node_ids (graph ex_status_done)).
Proof.
  assert (Hi : forall i, In i (node_ids (graph ex_status_running)) ->
                         i < next_id ex_status_running).
  { intros i Hin. simpl in Hin. destruct Hin as [<-|[<-|[]]]; simpl; lia. }
  assert (Hs : @status_callback ex_config "Y" ex_status_running = Ok ex_status_done)
    by reflexivity.
  split; [exact Hi|]. split; [exact Hs|].
  destruct (@status_callback_removes_completed ex_config "Y" _ _ Hi Hs)
    as [cid [H1 [H2 _]]].
  exists cid. split; assumption.
Defined.

Lemma external_input_buffered_at_earliest_timestep_witness :
  "A" <> "clock"
  /\ @find_running_action ex_config "A" (nodes (graph ex_timesteps))
     = Err ActionNotFoundError
  /\ @is_external_input ex_config "A" = true
  /\ (forall x, In x (nodes (graph ex_timesteps)) -> waiting_on "A" x = true ->
                (exists t, nd_timestep (snd x) = Some t) /\ no_data x = true)
  /\ exists r,
       earliest_waiting_timestep "A" (nodes (graph ex_timesteps)) = Ok r
       /\ @interception_subscription_callback ex_config "A" "m" ex_timesteps
          = @process ex_config
              (set_nodes (map (ready_external "A" "m" r) (nodes (graph ex_timesteps)))
                 ex_timesteps).
Proof.
  assert (Hc : "A" <> "clock") by discriminate.
  assert (Hf : @find_running_action ex_config "A" (nodes (graph ex_timesteps))
               = Err ActionNotFoundError) by reflexivity.
  assert (He : @is_external_input ex_config "A" = true) by reflexivity.
  assert (Hts : forall x, In x (nodes (graph ex_timesteps)) -> waiting_on "A" x = true ->
                          (exists t, nd_timestep (snd x) = Some t) /\ no_data x = true).
  { intros x Hx _. simpl in Hx.
    destruct Hx as [<-|[<-|[]]]; (split; [eexists; reflexivity|reflexivity]). }
  split; [exact Hc|]. split; [exact Hf|]. split; [exact He|]. split; [exact Hts|].
  destruct (@external_input_buffered_at_earliest_timestep ex_config "A" "m" ex_timesteps
              Hc Hf He Hts) as [r [Hr [_ Hcb]]].
  exists r. split; assumption.
Defined.

Ltac solve_ex_ranked :=
  let m := fresh "m" in
  let T := fresh "T" in
  let U := fresh "U" in
  let Hm := fresh "Hm" in
  let HT := fresh "HT" in
  let HU := fresh "HU" in
  intros m T U Hm HT HU; simpl in Hm;
  destruct Hm as [<-|[<-|[]]]; simpl in HT, HU;
  [ destruct HT as [HT|[]]; inversion HT; subst T;
    simpl in HU; destruct HU as [HU|[]]; inversion HU; subst U;
    vm_compute; lia
  | destruct HU as [HU|[]]; discriminate HU ].

Ltac solve_nodup := repeat constructor; simpl; intuition discriminate.

Lemma insertion_returns_when_ranked_witness :
  @unique_names ex_config
  /\ @ranked ex_config ex_rank
  /\ In model_X (@node_models ex_config)
  /\ In (TopicInput "A") (get_possible_inputs model_X)
  /\ ex_rank "A" < 1000
  /\ exists s',
       @add_action_and_effects ex_config 1000
         (RxAction WAITING (get_name model_X) 0%Z (TopicInput "A") "A" None) None started0
       = Ok s'.
Proof.
  assert (Hu : @unique_names ex_config) by (unfold unique_names; simpl; solve_nodup).
  assert (Hr : @ranked ex_config ex_rank) by (unfold ranked; solve_ex_ranked).
  assert (Hm : In model_X (@node_models ex_config)) by (simpl; auto).
  assert (HT : In (TopicInput "A") (get_possible_inputs model_X)) by (simpl; auto).
  assert (Hlt : ex_rank "A" < 1000) by (vm_compute; lia).
  repeat (split; [assumption|]).
  exact (@insertion_returns_when_ranked ex_config ex_rank 1000 model_X "A" WAITING 0%Z
           (TopicInput "A") None None started0 Hu Hr Hm HT Hlt).
Defined.

Lemma insertion_fails_only_by_recursion_witness :
  @unique_names loop_config
  /\ In model_L (@node_models loop_config)
  /\ In (TopicInput "T") (get_possible_inputs model_L)
  /\ @add_action_and_effects loop_config 20
       (RxAction WAITING (get_name model_L) 0%Z (TopicInput "T") "T" None) None started0
     = Err RecursionError
  /\ RecursionError = RecursionError.
Proof.
  assert (Hu : @unique_names loop_config) by (unfold unique_names; simpl; solve_nodup).
  assert (Hm : In model_L (@node_models loop_config)) by (simpl; auto).
  assert (HT : In (TopicInput "T") (get_possible_inputs model_L)) by (simpl; auto).
  assert (He : @add_action_and_effects loop_config 20
                 (RxAction WAITING (get_name model_L) 0%Z (TopicInput "T") "T" None)
                 None started0 = Err RecursionError) by reflexivity.
  repeat (split; [assumption|]).
  exact (@insertion_fails_only_by_recursion loop_config 20 model_L "T" WAITING 0%Z
           (TopicInput "T") None None started0 RecursionError Hu Hm HT He).
Defined.

Lemma republished_input_ends_in_recursion_error_witness :
  @unique_names loop_config
  /\ In model_L (@node_models loop_config)
  /\ In (TopicInput "T") (get_possible_inputs model_L)
  /\ In (TopicPublish "T") (effects_for_input model_L (TopicInput "T"))
  /\ @add_action_and_effects loop_config 500
       (RxAction WAITING (get_name model_L) 0%Z (TopicInput "T") "T" None) None started0
     = Err RecursionError.
Proof.
  assert (Hu : @unique_names loop_config) by (unfold unique_names; simpl; solve_nodup).
  assert (Hm : In model_L (@node_models loop_config)) by (simpl; auto).
  assert (HT : In (TopicInput "T") (get_possible_inputs model_L)) by (simpl; auto).
  assert (Hp : In (TopicPublish "T") (effects_for_input model_L (TopicInput "T")))
    by (simpl; auto).
  repeat (split; [assumption|]).
  exact (@republished_input_ends_in_recursion_error loop_config 500 model_L "T" WAITING 0%Z
           (TopicInput "T") None None started0 Hu Hm HT Hp).
Defined.

Lemma time_offer_granted_when_idle_witness :
  next_input started0 = None
  /\ simulator_time started0 = Some 0%Z
  /\ @graph_is_busy started0 = false
  /\ @wait_until_time_publish_allowed ex_config (-3)%Z started0
     = Ok (0, mkOrchestrator None (Some (-3)%Z) empty_graph 0 [] 1 [0]).
Proof.
  repeat (split; [reflexivity|]).
  exact (@time_offer_granted_when_idle ex_config (-3)%Z started0 0%Z
           eq_refl eq_refl eq_refl).
Defined.

Lemma offer_while_busy_is_parked_witness :
  next_input ex_state = None
  /\ graph_is_busy ex_state = true
  /\ @wait_until_time_publish_allowed ex_config 7%Z ex_state
     = Ok (1, mkOrchestrator (Some (FutureTimestep 7%Z 1)) (Some 0%Z) (graph ex_state)
                3 [] 2 [0]).
Proof.
  repeat (split; [reflexivity|]).
  exact (proj1 (@offer_while_busy_is_parked ex_config ex_state eq_refl eq_refl) 7%Z).
Defined.

Lemma input_offer_granted_when_idle_witness :
  @unique_names ex_config
  /\ @ranked ex_config ex_rank
  /\ ex_rank "A" < @recursion_limit ex_config
  /\ next_input started0 = None
  /\ simulator_time started0 = Some 0%Z
  /\ graph_is_busy started0 = false
  /\ exists s',
       @wait_until_publish_allowed ex_config "A" started0 = Ok (next_future started0, s')
       /\ next_input s' = None.
Proof.
  assert (Hu : @unique_names ex_config) by (unfold unique_names; simpl; solve_nodup).
  assert (Hr : @ranked ex_config ex_rank) by (unfold ranked; solve_ex_ranked).
  assert (Hlt : ex_rank "A" < @recursion_limit ex_config) by (vm_compute; lia).
  split; [exact Hu|]. split; [exact Hr|]. split; [exact Hlt|].
  repeat (split; [reflexivity|]).
  destruct (@input_offer_granted_when_idle ex_config ex_rank "A" started0 0%Z
              Hu Hr Hlt eq_refl eq_refl eq_refl) as [s' [H1 [H2 _]]].
  exists s'. split; assumption.
Defined.

Lemma remappings_are_inputs_witness :
  generate_remappings_from_config ex_intercepted_name ex_launch_nodes [model_X; model_Y]
  = Ok [mkSetRemap "X:in" "/intercepted/X/sub/A"]
  /\ forall x,
       In x [mkSetRemap "X:in" "/intercepted/X/sub/A"] <->
       exists node remapping m,
         In node ex_launch_nodes /\ In remapping (snd node)
         /\ find_node_model (fst node) [model_X; model_Y] = Ok m
         /\ In (TopicInput (snd remapping)) (get_possible_inputs m)
         /\ x = mkSetRemap (fst node ++ ":" ++ fst remapping)%string
                  (ex_intercepted_name (fst node) (snd remapping)).
Proof.
  assert (H : generate_remappings_from_config ex_intercepted_name ex_launch_nodes
                [model_X; model_Y]
              = Ok [mkSetRemap "X:in" "/intercepted/X/sub/A"]) by reflexivity.
  split; [exact H|].
  exact (remappings_are_inputs ex_intercepted_name ex_launch_nodes [model_X; model_Y] _ H).
Defined.

(** In ex_running the only action on A runs and an offer of an input on A
    is pending: __process grants it.  In ex_scheduled an action on A has
    its message and has not run: the same offer stays pending. *)
Lemma offer_granted_after_process_witness :
  @process_loop ex_config (S (S (length (nodes (graph ex_running))))) ex_running
  = Ok ex_running
  /\ simulator_time ex_running = Some 0%Z
  /\ ~ pending_on "A" (graph ex_running)
  /\ @unique_names ex_config
  /\ @ranked ex_config ex_rank
  /\ ex_rank "A" < @recursion_limit ex_config
  /\ (exists s',
        @process ex_config ex_running = Ok s'
        /\ next_input s' = None
        /\ futures_done s' = [0; 1]
        /\ exists id,
             In (id, mkNodeData (RxAction WAITING "Y" 0%Z (TopicInput "A") "A" None) None)
                (nodes (graph s')))
  /\ pending_on "A" (graph ex_scheduled)
  /\ @process ex_config ex_scheduled = Ok ex_scheduled.
Proof.
  assert (Hu : @unique_names ex_config) by (unfold unique_names; simpl; solve_nodup).
  assert (Hr : @ranked ex_config ex_rank) by (unfold ranked; solve_ex_ranked).
  assert (Hlt : ex_rank "A" < @recursion_limit ex_config) by (vm_compute; lia).
  assert (Hp : pending_on "A" (graph ex_scheduled)).
  { exists 2, READY, "Y", 0%Z, (TopicInput "A"), (Some "m"), None.
    split; [simpl; auto|right; reflexivity]. }
  split; [reflexivity|]. split; [reflexivity|].
  split; [exact running_does_not_block|].
  split; [exact Hu|]. split; [exact Hr|]. split; [exact Hlt|].
  split.
  - destruct (proj2 (@offer_granted_after_process ex_config ex_running ex_running 0%Z
                       eq_refl eq_refl)
                running_does_not_block ex_rank Hu Hr Hlt)
      as (s' & H1 & H2 & _ & H4 & _ & _ & H7).
    exists s'. split; [exact H1|]. split; [exact H2|]. split; [exact H4|].
    apply (H7 model_Y); simpl; auto.
  - split; [exact Hp|].
    exact (proj1 (@offer_granted_after_process ex_config ex_scheduled ex_scheduled 0%Z
                    eq_refl eq_refl) Hp).
Defined.

Lemma input_offer_errors_witness :
  @unique_names loop_config
  /\ @wait_until_publish_allowed loop_config "T" started0 = Err RecursionError
  /\ (RecursionError
      = RuntimeError "Data source wants to provide next input before waiting on the last one!"
      \/ RecursionError = RuntimeError "Data source has to provide time before first data"
      \/ RecursionError = RecursionError).
Proof.
  assert (Hu : @unique_names loop_config) by (unfold unique_names; simpl; solve_nodup).
  assert (He : @wait_until_publish_allowed loop_config "T" started0 = Err RecursionError)
    by reflexivity.
  split; [exact Hu|]. split; [exact He|].
  exact (@input_offer_errors loop_config "T" started0 RecursionError Hu He).
Defined.




